(** * Dictionary of Symbols: the entry extractor of [extract_symbols.py]

    A shallow embedding of the block classifier, the heading detector, the
    term validator, the entry accumulator and the post-processor, with the
    properties of the specification stated and settled against it.

    Python strings are sequences of Unicode code points: a character is a
    code point [N] and a string a list of them.  The parts of the Python
    runtime that the program calls ([str.strip], [str.split], [re.match]
    ...) are written out below as executable functions. *)

From stdpp Require Import gmap list sorting strings.
From Stdlib Require Import NArith Ascii.

(** ** Characters and strings *)

Definition char := N.
Definition pystr := list char.

Definition chr (a : ascii) : char := N_of_ascii a.
Arguments chr a%_char.

(** An ASCII literal of the source, as a Python string. *)
Fixpoint py (s : string) : pystr :=
  match s with
  | EmptyString => []
  | String a s' => chr a :: py s'
  end.

Local Open Scope N_scope.

Definition in_range (lo hi c : char) : bool := (lo <=? c) && (c <=? hi).

(** [str.isspace] on one character, which is also the class [\s] of [re]
    on [str] patterns and the set that [str.strip()] and [str.split()]
    remove: CPython's [_PyUnicode_IsWhitespace]. *)
Definition isspace (c : char) : bool :=
  in_range 0x09 0x0D c || in_range 0x1C 0x20 c || (c =? 0x85) || (c =? 0xA0)
  || (c =? 0x1680) || in_range 0x2000 0x200A c || (c =? 0x2028)
  || (c =? 0x2029) || (c =? 0x202F) || (c =? 0x205F) || (c =? 0x3000).

(** The Unicode character database behind [str.isalpha], [str.isupper],
    [str.lower] and the class [\d] of [re].  The program only consults it;
    the properties below hold whatever its tables are. *)
Class UnicodeData := {
  isalpha : char → bool;
  isupper : char → bool;
  isdecimal : char → bool;
  lower : pystr → pystr;
  (* a letter is neither whitespace nor the full stop *)
  isalpha_not_space : ∀ c, isalpha c = true → isspace c = false;
  isalpha_not_stop : ∀ c, isalpha c = true → c ≠ chr ".";
}.

(** The tables for Basic Latin and Latin-1 Supplement, and the decimal
    digits of the Basic Multilingual Plane; code points beyond are taken
    as caseless non-letters. *)
Definition latin_isupper (c : char) : bool :=
  in_range 0x41 0x5A c || in_range 0xC0 0xD6 c || in_range 0xD8 0xDE c.

Definition latin_isalpha (c : char) : bool :=
  in_range 0x41 0x5A c || in_range 0x61 0x7A c
  || (c =? 0xAA) || (c =? 0xB5) || (c =? 0xBA)
  || in_range 0xC0 0xD6 c || in_range 0xD8 0xF6 c || in_range 0xF8 0xFF c.

Definition latin_lower_char (c : char) : char :=
  if latin_isupper c then c + 0x20 else c.

Definition decimal_starts : list char :=
  [ 0x0030; 0x0660; 0x06F0; 0x07C0; 0x0966; 0x09E6; 0x0A66; 0x0AE6; 0x0B66;
    0x0BE6; 0x0C66; 0x0CE6; 0x0D66; 0x0DE6; 0x0E50; 0x0ED0; 0x0F20; 0x1040;
    0x1090; 0x17E0; 0x1810; 0x1946; 0x19D0; 0x1A80; 0x1A90; 0x1B50; 0x1BB0;
    0x1C40; 0x1C50; 0xA620; 0xA8D0; 0xA900; 0xA9D0; 0xA9F0; 0xAA50; 0xABF0;
    0xFF10 ].

Definition nd_isdecimal (c : char) : bool :=
  existsb (λ lo, in_range lo (lo + 9) c) decimal_starts.

Local Close Scope N_scope.

(** ** String methods *)

Fixpoint lstrip_by (p : char → bool) (s : pystr) : pystr :=
  match s with
  | c :: s' => if p c then lstrip_by p s' else s
  | [] => []
  end.

Definition rstrip_by (p : char → bool) (s : pystr) : pystr :=
  reverse (lstrip_by p (reverse s)).

(** [s.strip()] *)
Definition strip (s : pystr) : pystr := rstrip_by isspace (lstrip_by isspace s).

Definition char_in (chars : pystr) (c : char) : bool := bool_decide (c ∈ chars).

(** [s.rstrip(chars)] *)
Definition rstrip (chars : pystr) (s : pystr) : pystr := rstrip_by (char_in chars) s.

(** [s.split()]: the maximal runs of non-whitespace characters. *)
Definition push_word (w : pystr) (ws : list pystr) : list pystr :=
  match w with [] => ws | _ => w :: ws end.

Fixpoint split_go (s : pystr) : pystr * list pystr :=
  match s with
  | [] => ([], [])
  | c :: s' =>
      let '(w, ws) := split_go s' in
      if isspace c then ([], push_word w ws) else (c :: w, ws)
  end.

Definition split (s : pystr) : list pystr :=
  let '(w, ws) := split_go s in push_word w ws.

(** [sep.join(parts)] *)
Fixpoint join (sep : pystr) (parts : list pystr) : pystr :=
  match parts with
  | [] => []
  | [p] => p
  | p :: ps => p ++ sep ++ join sep ps
  end.

Fixpoint startswith (pre s : pystr) : bool :=
  match pre, s with
  | [], _ => true
  | a :: pre', b :: s' => (a =? b)%N && startswith pre' s'
  | _ :: _, [] => false
  end.

(** [s.endswith(suffix)] *)
Definition endswith (suf s : pystr) : bool := startswith (reverse suf) (reverse s).

(** Membership in a set literal of strings. *)
Definition in_set (w : pystr) (S : list pystr) : bool := bool_decide (w ∈ S).

(** Truth value of a string or list in a condition. *)
Definition nonempty {A} (l : list A) : bool :=
  match l with [] => false | _ => true end.


(** [s.replace(old, new)] for a non-empty [old]: occurrences are replaced
    from left to right, without overlap.  [skip] counts the characters of
    the occurrence just replaced that are still to be passed over. *)
Fixpoint replace_go (old new : pystr) (skip : nat) (s : pystr) : pystr :=
  match s with
  | [] => []
  | c :: s' =>
      match skip with
      | S k => replace_go old new k s'
      | O =>
          if startswith old s then new ++ replace_go old new (length old - 1) s'
          else c :: replace_go old new 0 s'
      end
  end.

Definition replace (old new s : pystr) : pystr := replace_go old new 0 s.

(** [re.sub(r'\s+', ' ', s)]: every maximal run of whitespace becomes one
    space.  [in_run] tells that the previous character was whitespace. *)
Fixpoint sub_ws_go (in_run : bool) (s : pystr) : pystr :=
  match s with
  | [] => []
  | c :: s' =>
      if isspace c then
        if in_run then sub_ws_go true s' else chr " " :: sub_ws_go true s'
      else c :: sub_ws_go false s'
  end.

Definition sub_ws (s : pystr) : pystr := sub_ws_go false s.

(** ** Regular expressions

    [re.match] is a backtracking matcher: it explores the ways a pattern
    can match in a fixed order of preference and keeps the first.  [exec]
    returns all the ways a pattern matches at a position, in that order, so
    that [re.match] is the head of the list. *)

Record mstate := MState {
  pos : nat;                      (* characters consumed so far *)
  rest : pystr;                   (* the input still to read *)
  groups : list (nat * pystr);    (* captured groups, latest first *)
}.

Inductive regex :=
| Bol                                   (* ^ *)
| Eol                                   (* $ *)
| Cls (p : char → bool)                 (* one character of a class *)
| Many (p : char → bool) (lo : nat) (hi : option nat) (greedy : bool)
                                        (* a class repeated: * + {m,n}, lazy with ? *)
| Seq (r1 r2 : regex)
| Opt (r : regex)                       (* (?:r)? *)
| Star (r : regex)                      (* (?:r)* *)
| Grp (i : nat) (r : regex).            (* capturing group number i *)

Infix ">>" := Seq (at level 60, right associativity).

Definition advance (k : nat) (st : mstate) : mstate :=
  MState (pos st + k) (drop k (rest st)) (groups st).

(** Length of the longest prefix of [s] in the class [p]. *)
Fixpoint run (p : char → bool) (s : pystr) : nat :=
  match s with
  | c :: s' => if p c then S (run p s') else 0
  | [] => 0
  end.

(** The numbers of repetitions a quantifier tries, in order: a greedy one
    from the most down, a lazy one from the fewest up. *)
Definition counts (lo : nat) (hi : option nat) (greedy : bool) (n : nat) : list nat :=
  let top := match hi with Some h => h `min` n | None => n end in
  let ks := seq lo (S top - lo) in
  if greedy then reverse ks else ks.

Definition capture (i : nat) (st st' : mstate) : mstate :=
  MState (pos st') (rest st')
         ((i, take (pos st' - pos st) (rest st)) :: groups st').

Definition progress (st st' : mstate) : bool :=
  length (rest st') <? length (rest st).

(** The iterations of [(?:r)*], greedy: one more iteration is tried first.
    An iteration is kept when it consumes input, so that at most
    [length (rest st)] iterations follow one another. *)
Fixpoint star_loop (body : mstate → list mstate) (fuel : nat) (st : mstate)
    : list mstate :=
  match fuel with
  | O => [st]
  | S fuel' =>
      flat_map (star_loop body fuel') (List.filter (progress st) (body st)) ++ [st]
  end.

Fixpoint exec (r : regex) (st : mstate) : list mstate :=
  match r with
  | Bol => if pos st is O then [st] else []
  | Eol =>
      match rest st with
      | [] => [st]
      | [c] => if (c =? chr "010")%N then [st] else []
      | _ => []
      end
  | Cls p =>
      match rest st with
      | c :: _ => if p c then [advance 1 st] else []
      | [] => []
      end
  | Many p lo hi greedy =>
      map (λ k, advance k st) (counts lo hi greedy (run p (rest st)))
  | Seq r1 r2 => flat_map (exec r2) (exec r1 st)
  | Opt r1 => exec r1 st ++ [st]
  | Star r1 => star_loop (exec r1) (length (rest st)) st
  | Grp i r1 => map (capture i st) (exec r1 st)
  end.

(** [re.match(r, s)] *)
Definition re_match (r : regex) (s : pystr) : option mstate :=
  head (exec r (MState 0 s [])).

(** [m.group(i)], for a group that took part in the match. *)
Definition group (i : nat) (m : mstate) : pystr :=
  default [] (snd <$> List.find (λ g, fst g =? i) (groups m)).

(** [m.end()] *)
Definition m_end (m : mstate) : nat := pos m.

(** Character classes of the patterns. *)
Definition is_chr (a : ascii) (c : char) : bool := (c =? chr a)%N.
Arguments is_chr a%_char c.
Definition lower_az (c : char) : bool := in_range (chr "a") (chr "z") c.
Definition upper_AZ (c : char) : bool := in_range (chr "A") (chr "Z") c.
Definition any_of (chars : pystr) (c : char) : bool := char_in chars c.

(** the class of a-z, whitespace, comma, apostrophe and hyphen *)
Definition term_char (c : char) : bool :=
  lower_az c || isspace c || any_of (py ",'-") c.
(** the class of A-Z, the apostrophe and the double quote (code 34) *)
Definition def_start (c : char) : bool :=
  upper_AZ c || is_chr "'" c || is_chr "034" c.
(** [.] (without DOTALL) *)
Definition dot (c : char) : bool := negb (is_chr "010" c).
(** [[^)]] *)
Definition not_rparen (c : char) : bool := negb (is_chr ")" c).
(** [[Ss]] *)
Definition cls_Ss (c : char) : bool := is_chr "S" c || is_chr "s" c.

Definition star (p : char → bool) : regex := Many p 0 None true.
Definition plus (p : char → bool) : regex := Many p 1 None true.
Definition plus_lazy (p : char → bool) : regex := Many p 1 None false.

(** The lowercase term that opens patterns 1, 1b, 3 and 4: group 1 is a
    letter a-z followed lazily by one or more [term_char]. *)
Definition re_lower_term : regex := Grp 1 (Cls lower_az >> plus_lazy term_char).

(** ** The program *)

Definition SENTENCE_STARTERS : list pystr := map py
  [ "the"; "a"; "an"; "in"; "on"; "at"; "by"; "for"; "to"; "of";
    "it"; "its"; "this"; "that"; "these"; "those"; "they"; "them";
    "he"; "she"; "his"; "her"; "we"; "our"; "but"; "and"; "or";
    "if"; "as"; "so"; "yet"; "nor"; "not"; "no"; "all"; "any";
    "both"; "each"; "every"; "some"; "such"; "than";
    "one"; "two"; "three"; "four"; "five"; "six"; "seven"; "eight";
    "from"; "with"; "into"; "upon"; "over"; "under"; "through";
    "between"; "among"; "about"; "during"; "before"; "after";
    "since"; "while"; "when"; "where"; "which"; "what"; "who";
    "how"; "there"; "here"; "thus"; "hence"; "therefore";
    "however"; "moreover"; "furthermore"; "nevertheless";
    "according"; "although"; "because"; "whether"; "like";
    "many"; "most"; "much"; "more"; "less"; "few"; "other";
    "another"; "only"; "just"; "even"; "still"; "also"; "too" ].

Definition FRAG_ENDERS : list pystr := map py
  [ "the"; "a"; "an"; "of"; "in"; "on"; "at"; "to"; "for"; "by";
    "with"; "from"; "and"; "or"; "but"; "as"; "is"; "was"; "are";
    "were"; "be"; "been"; "being"; "has"; "had"; "have"; "its";
    "his"; "her"; "he"; "she"; "it"; "they"; "we"; "our"; "their";
    "that"; "this"; "those"; "these"; "which"; "who"; "whom";
    "not"; "no"; "nor"; "so"; "than"; "if"; "st" ].

Definition FRAG_INTERNALS : list pystr := map py
  [ "the"; "a"; "an"; "is"; "was"; "are"; "were"; "be";
    "that"; "which"; "who"; "whom"; "has"; "had"; "have";
    "not"; "also"; "been"; "being"; "its"; "his"; "her";
    "their"; "our"; "my"; "your"; "can"; "could"; "would";
    "should"; "will"; "shall"; "may"; "might"; "must";
    "do"; "does"; "did"; "very"; "just"; "even"; "still" ].

(** The set literal of line 153. *)
Definition FRAG_VERBS : list pystr := map py [ "the"; "is"; "was"; "are"; "were" ].

Definition TRIM_LOWER : list pystr := map py
  [ "the"; "a"; "an"; "in"; "on"; "at"; "as"; "or"; "and";
    "its"; "this"; "that"; "these"; "those"; "all"; "old";
    "one"; "two"; "for"; "but"; "not"; "from"; "with"; "new";
    "first"; "second"; "third"; "last"; "next"; "other";
    "great"; "good"; "long"; "high"; "deep"; "early"; "late";
    "most"; "many"; "some"; "each"; "every"; "such" ].

Definition SINGLE_WORD_EXCLUSIONS : list pystr := map py
  [ "very"; "also"; "just"; "even"; "still"; "yet"; "only";
    "often"; "always"; "never"; "rather"; "quite";
    "traditional"; "finally"; "similarly"; "conversely";
    "originally"; "essentially"; "generally"; "consequently";
    "alternatively"; "accordingly"; "subsequently"; "nevertheless";
    "furthermore"; "moreover"; "whereas"; "whereby"; "thereby";
    "nonetheless"; "otherwise"; "indeed"; "certainly";
    "perhaps"; "probably"; "possibly"; "apparently"; "recently";
    "clearly"; "obviously"; "simply"; "merely"; "purely";
    "primarily"; "mainly"; "largely"; "partly"; "partly";
    "already"; "sometimes"; "everywhere"; "anywhere"; "nowhere" ].

Definition DICT_START_PAGE : nat := 8.
Definition DICT_END_PAGE : nat := 1804.

(** Blocks as PyMuPDF's [get_text("dict")] gives them. *)
Record span := Span { text : pystr }.
Record line := Line { spans : list span }.
Record block := Block { type : Z; lines : list line }.

(** The entry dictionaries of the output. *)
Record entry := Entry {
  term : pystr;
  definition : pystr;
  page : nat;
  is_cross_ref : bool;
}.

Definition matched (m : option mstate) : bool :=
  match m with Some _ => true | None => false end.

Section Program.
Context {ucd : UnicodeData}.

(** [upper_ratio >= 0.9] is written on the integers, [9 * len(alpha_chars)
    <= 10 * uppers]: the quotient of the source is a double, and the two
    agree whenever the text has at most 50 characters, while the length
    test makes the result false on a longer one. *)
Definition is_running_header (text : pystr) : bool :=
  let stripped := rstrip (py ".") (strip text) in
  if negb (nonempty stripped) then false else
  let alpha_chars := List.filter isalpha stripped in
  if negb (nonempty alpha_chars) then false else
  let uppers := length (List.filter isupper alpha_chars) in
  if (9 * length alpha_chars <=? 10 * uppers)
     && (2 <=? length stripped) && (length stripped <=? 50)
  then true else false.

(** [^\d{1,4}$] *)
Definition re_page_number : regex := Bol >> Many isdecimal 1 (Some 4) true >> Eol.

Definition is_page_number (text : pystr) : bool :=
  let stripped := strip text in
  matched (re_match re_page_number stripped).

(** The separator of [get_block_text], one line feed. *)
Definition newline : pystr := [chr "010"].

(** The text of one line: its spans concatenated. *)
Definition line_text (l : line) : pystr := concat (map text (spans l)).

Definition get_block_text (b : block) : pystr :=
  if negb (type b =? 0)%Z then []
  else join newline (map line_text (lines b)).

Definition get_block_first_line (b : block) : pystr :=
  if negb (type b =? 0)%Z then []
  else match lines b with
       | l :: _ => strip (line_text l)
       | [] => []
       end.

Definition _is_valid_term (term : pystr) : bool :=
  let words := split term in
  if negb (nonempty words) then false else
  let first_word := lower (default [] (head words)) in
  let last_word := lower (default [] (last words)) in
  if in_set first_word SENTENCE_STARTERS then false else
  if in_set last_word FRAG_ENDERS then false else
  if 5 <? length words then false else
  if 3 <=? length words then
    let internal_words := map lower (drop 1 words) in
    let internal_frag_count :=
      length (List.filter (λ w, in_set w FRAG_INTERNALS) internal_words) in
    if 2 <=? internal_frag_count then false else
    if existsb (λ w, in_set w FRAG_VERBS) internal_words then false else
    true
  else true.

(** *** The heading detector *)

(** The term a match yields: [m.group(1).strip().rstrip('.,')]. *)
Definition term_of (m : mstate) : pystr := rstrip (py ".,") (strip (group 1 m)).

(** Pattern 1: lowercase term, optional closed parenthetical, whitespace,
    then a definition that starts with a capital or a quote. *)
Definition re_pattern1 : regex :=
  Bol >> re_lower_term
  >> Opt (star isspace >> Cls (is_chr "(") >> star not_rparen >> Cls (is_chr ")"))
  >> plus isspace
  >> Grp 2 (Cls def_start >> star dot).

Definition pattern1 (line : pystr) : option pystr :=
  match re_match re_pattern1 line with
  | Some m =>
      let term := term_of m in
      let rest := group 2 m in
      if (2 <=? length term) && (length term <=? 50) && (10 <=? length rest) then
        if _is_valid_term term then Some term else None
      else None
  | None => None
  end.

(** Pattern 1b: lowercase term and a parenthetical left open on the line. *)
Definition re_pattern1b : regex :=
  Bol >> re_lower_term >> plus isspace >> Cls (is_chr "(").

(** [\([Ss]ee\s] *)
Definition re_paren_see : regex :=
  Cls (is_chr "(") >> Cls cls_Ss >> Cls (is_chr "e") >> Cls (is_chr "e") >> Cls isspace.

Definition pattern1b (line : pystr) : option pystr :=
  match re_match re_pattern1b line with
  | Some m =>
      let term := term_of m in
      let paren_content := drop (m_end m - 1) line in
      if matched (re_match re_paren_see paren_content) then
        if (2 <=? length term) && (length term <=? 50) && _is_valid_term term
        then Some term else None
      else None
  | None => None
  end.

(** Pattern 2: capitalized words, whitespace, and a definition that starts
    with another capitalized word. *)
Definition re_capitalized : regex := Cls upper_AZ >> plus lower_az.

Definition re_pattern2 : regex :=
  Bol >> Grp 1 (re_capitalized >> Star (plus isspace >> re_capitalized))
  >> plus isspace
  >> Grp 2 (Cls upper_AZ >> Cls lower_az >> star dot).

(** [while len(parts) > 1 and parts[-1].lower() in TRIM_LOWER: parts.pop()],
    on the list of parts in reverse order. *)
Fixpoint trim_trailing (rparts : list pystr) : list pystr :=
  match rparts with
  | w :: (_ :: _) as more =>
      if in_set (lower w) TRIM_LOWER then trim_trailing more else rparts
  | _ => rparts
  end.

Definition pattern2 (line : pystr) : option pystr :=
  match re_match re_pattern2 line with
  | Some m =>
      let raw_term := strip (group 1 m) in
      let parts := reverse (trim_trailing (reverse (split raw_term))) in
      let term := join (py " ") parts in
      let rest := strip (drop (length term) line) in
      if (length term <=? 35) && (10 <=? length rest) then
        if negb (is_running_header term) then
          if _is_valid_term term then Some term else None
        else None
      else None
  | None => None
  end.

(** Pattern 3: lowercase term, then See or see. *)
Definition re_pattern3 : regex :=
  Bol >> re_lower_term >> plus isspace
  >> Cls cls_Ss >> Cls (is_chr "e") >> Cls (is_chr "e") >> plus isspace.

Definition pattern3 (line : pystr) : option pystr :=
  match re_match re_pattern3 line with
  | Some m =>
      let term := term_of m in
      if (2 <=? length term) && (length term <=? 50) then Some term else None
  | None => None
  end.

(** Pattern 4: lowercase term and a closed parenthetical cross-reference. *)
Definition re_pattern4 : regex :=
  Bol >> re_lower_term >> plus isspace
  >> Cls (is_chr "(") >> Cls cls_Ss >> Cls (is_chr "e") >> Cls (is_chr "e")
  >> plus isspace
  >> Opt (Cls (is_chr "a") >> Cls (is_chr "l") >> Cls (is_chr "s")
          >> Cls (is_chr "o") >> plus isspace)
  >> plus not_rparen >> Cls (is_chr ")").

Definition pattern4 (line : pystr) : option pystr :=
  match re_match re_pattern4 line with
  | Some m =>
      let term := term_of m in
      if (2 <=? length term) && (length term <=? 50) then Some term else None
  | None => None
  end.

(** The first pattern that yields a term wins. *)
Definition or_else {A} (x y : option A) : option A :=
  match x with Some _ => x | None => y end.

Definition detect_entry_heading (first_line : pystr) : option pystr :=
  let line := strip first_line in
  if length line <? 5 then None else
  or_else (pattern1 line)
    (or_else (pattern1b line)
       (or_else (pattern2 line)
          (or_else (pattern3 line) (pattern4 line)))).

(** *** The entry accumulator *)

Definition soft_hyphen : pystr := [0xAD%N].

Definition clean_definition (text : pystr) : pystr :=
  (* Normalize whitespace *)
  let text := strip (sub_ws text) in
  (* Remove soft hyphens: the two literals of the source are one character *)
  let text := replace soft_hyphen [] (replace soft_hyphen [] text) in
  (* Fix common OCR artifacts *)
  let text := replace (py "  ") (py " ") text in
  text.

(** [^[Ss]ee\s+] and [^\([Ss]ee\s+] *)
Definition re_see : regex :=
  Bol >> Cls cls_Ss >> Cls (is_chr "e") >> Cls (is_chr "e") >> plus isspace.
Definition re_see_paren : regex :=
  Bol >> Cls (is_chr "(") >> Cls cls_Ss >> Cls (is_chr "e") >> Cls (is_chr "e")
  >> plus isspace.

Definition is_cross_reference (definition : pystr) : bool :=
  let d := strip definition in
  if matched (re_match re_see d) && (length d <? 120) then true else
  if matched (re_match re_see_paren d) && (length d <? 120) then true else
  false.

(** The variables of the loop of [extract_entries]. *)
Record acc := Acc {
  entries : list entry;
  current_term : option pystr;          (* None, or the open entry's term *)
  current_definition_lines : list pystr;
  current_page : nat;
}.

(** Truth value of [current_term] and [detected_term]: neither None nor
    the empty string. *)
Definition truthy (o : option pystr) : bool :=
  match o with Some t => nonempty t | None => false end.

(** The statements under [# Save previous entry], which the source repeats
    under [# Don't forget the last entry]: the entries after them. *)
Definition finalize (a : acc) : list entry :=
  if truthy (current_term a) && nonempty (current_definition_lines a) then
    let definition := clean_definition (join (py " ") (current_definition_lines a)) in
    if nonempty definition then
      let is_xref := is_cross_reference definition in
      entries a ++ [Entry (default [] (current_term a)) definition
                          (current_page a + 1) is_xref]
    else entries a
  else entries a.

(** A line is appended to a definition when
    [lt and not is_running_header(lt) and not is_page_number(lt)]. *)
Definition keep_line (lt : pystr) : bool :=
  nonempty lt && negb (is_running_header lt) && negb (is_page_number lt).

(** The stripped text of each line of a block. *)
Definition block_lines (b : block) : list pystr :=
  map (λ line_obj, strip (line_text line_obj)) (lines b).

(** The body of the loop over the blocks of page [page_num]. *)
Definition process_block (page_num : nat) (a : acc) (b : block) : acc :=
  if negb (type b =? 0)%Z then a else
  let full_text := strip (get_block_text b) in
  if negb (nonempty full_text) then a else
  let first_line := get_block_first_line b in
  if negb (nonempty first_line) then a else
  if is_running_header full_text then a else
  if is_page_number (strip full_text) then a else
  let detected_term := detect_entry_heading first_line in
  if truthy detected_term then
    let saved := finalize a in
    let rest_of_first :=
      strip (drop (length (default [] detected_term)) first_line) in
    let def_parts :=
      (if nonempty rest_of_first then [rest_of_first] else [])
      ++ List.filter keep_line (drop 1 (block_lines b)) in
    Acc saved detected_term def_parts page_num
  else
    match current_term a with
    | Some _ =>
        Acc (entries a) (current_term a)
            (current_definition_lines a ++ List.filter keep_line (block_lines b))
            (current_page a)
    | None => a
    end.

(** A document: its pages, each the list of blocks of
    [page.get_text("dict").get("blocks", [])]. *)
Definition page_range (doc : list (list block)) : list nat :=
  seq DICT_START_PAGE (DICT_END_PAGE `min` length doc - DICT_START_PAGE).

Definition process_page (doc : list (list block)) (a : acc) (page_num : nat) : acc :=
  foldl (process_block page_num) a (default [] (doc !! page_num)).

Definition acc_init : acc := Acc [] None [] 0.

(** The state of the accumulator when the pages are exhausted. *)
Definition run_blocks (doc : list (list block)) : acc :=
  foldl (process_page doc) acc_init (page_range doc).

Definition extract_entries (doc : list (list block)) : list entry :=
  finalize (run_blocks doc).

(** *** The post-processor

    The entries are dictionaries that [post_process_entries] shares between
    its argument and its result and updates in place: a list of entries is
    a list of references into a store. *)

Definition ref := nat.

Record pp_state := PP {
  cleaned : list ref;
  seen_terms : gset pystr;
  heap : gmap ref entry;
}.

Definition append_definition (e : entry) (extra : pystr) : entry :=
  Entry (term e) (definition e ++ extra) (page e) (is_cross_ref e).

(** [for prev in reversed(cleaned): if prev["term"].lower() == term_lower:
    prev["definition"] += " " + definition; break], given the reversed
    list. *)
Fixpoint merge_into (rcleaned : list ref) (term_lower definition : pystr)
    (σ : gmap ref entry) : gmap ref entry :=
  match rcleaned with
  | [] => σ
  | prev :: more =>
      match σ !! prev with
      | Some e =>
          if bool_decide (lower (term e) = term_lower)
          then <[prev := append_definition e (py " " ++ definition)]> σ
          else merge_into more term_lower definition σ
      | None => merge_into more term_lower definition σ
      end
  end.

(** The body of the loop over [entries]. *)
Definition post_process_step (st : pp_state) (r : ref) : pp_state :=
  match heap st !! r with
  | None => st        (* a reference always denotes a dictionary *)
  | Some e =>
      let term := term e in
      let definition := definition e in
      if length term <? 2 then st else
      if (length definition <? 10) && negb (is_cross_ref e) then st else
      if endswith (py ".") term || endswith (py ":") term || endswith (py ";") term
      then st else
      if 60 <? length term then st else
      if (length (split term) =? 1) && in_set (lower term) SINGLE_WORD_EXCLUSIONS
      then st else
      if negb (_is_valid_term term) then st else
      let term_lower := lower term in
      if bool_decide (term_lower ∈ seen_terms st) then
        PP (cleaned st) (seen_terms st)
           (merge_into (reverse (cleaned st)) term_lower definition (heap st))
      else
        PP (cleaned st ++ [r]) ({[term_lower]} ∪ seen_terms st) (heap st)
  end.

Definition post_process_entries (entries : list ref) (σ : gmap ref entry) : pp_state :=
  foldl post_process_step (PP [] ∅ σ) entries.

(** The entries a list of references denotes. *)
Definition deref (σ : gmap ref entry) (refs : list ref) : list entry :=
  omap (λ r, σ !! r) refs.

(** [entries = extract_entries(doc); entries = post_process_entries(entries)]
    of [main]: every extracted entry is a dictionary of its own. *)
Definition pipeline (doc : list (list block)) : list entry :=
  let es := extract_entries doc in
  let st := post_process_entries (seq 0 (length es)) (map_seq 0 es) in
  deref (heap st) (cleaned st).

End Program.

(** * The statements of the specification

    The predicates below word the properties as the specification does;
    the theorems compare them with the program. *)

Section Statements.
Context {ucd : UnicodeData}.

(** ** Term validator *)

(** The rules of the term validator, as the specification words them. *)
Definition internal_words (words : list pystr) : list pystr := drop 1 words.

Definition filler_count (words : list pystr) : nat :=
  length (List.filter (λ w, bool_decide (lower w ∈ FRAG_INTERNALS)) (internal_words words)).

Definition headword (term : pystr) : Prop :=
  let words := split term in
  (∃ first, head words = Some first ∧ lower first ∉ SENTENCE_STARTERS) ∧
  (∃ final, last words = Some final ∧ lower final ∉ FRAG_ENDERS) ∧
  length words ≤ 5 ∧
  (3 ≤ length words →
     filler_count words < 2 ∧
     ∀ w, w ∈ internal_words words → lower w ∉ FRAG_VERBS).

(** ** Block classifier *)

Definition alphabetic (text : pystr) : pystr := List.filter isalpha text.

(** The uppercase characters are at least 0.9 of the alphabetic ones. *)
Definition mostly_uppercase (text : pystr) : Prop :=
  9 * length (alphabetic text) ≤ 10 * length (List.filter isupper (alphabetic text)).

(** The running-header test as the specification words it: the length is
    that of the stripped text. *)
Definition claimed_running_header (text : pystr) : Prop :=
  alphabetic text ≠ [] ∧ mostly_uppercase text ∧ 2 ≤ length (strip text) ≤ 50.

(** The running-header test of the program: the length is taken once the
    trailing full stops are removed as well. *)
Definition running_header (text : pystr) : Prop :=
  alphabetic text ≠ [] ∧ mostly_uppercase text
  ∧ 2 ≤ length (rstrip (py ".") (strip text)) ≤ 50.

Definition ascii_digit (c : char) : bool := in_range (chr "0") (chr "9") c.

(** The page-number test as the specification words it. *)
Definition claimed_page_number (text : pystr) : Prop :=
  1 ≤ length (strip text) ≤ 4 ∧ ∀ c, c ∈ strip text → ascii_digit c = true.

(** The page-number test of the program: the digits are those of [\d]. *)
Definition page_number (text : pystr) : Prop :=
  1 ≤ length (strip text) ≤ 4 ∧ ∀ c, c ∈ strip text → isdecimal c = true.

(** ** Cross-references *)

(** [d] begins with [pre], letter case apart. *)
Definition begins_nocase (pre d : pystr) : Prop :=
  length pre ≤ length d ∧ lower (take (length pre) d) = pre.

(** The cross-reference test as the specification words it. *)
Definition claimed_cross_reference (d : pystr) : Prop :=
  (begins_nocase (py "see ") d ∨ begins_nocase (py "(see ") d) ∧ length d < 120.

(** [d] begins with See or see and a whitespace character. *)
Definition begins_see (d : pystr) : Prop :=
  ∃ s w tl, d = s :: chr "e" :: chr "e" :: w :: tl
            ∧ (s = chr "S" ∨ s = chr "s") ∧ isspace w = true.

(** The cross-reference test of the program, on the stripped definition:
    only the letter s may be in either case. *)
Definition cross_reference (definition : pystr) : Prop :=
  let d := strip definition in
  (begins_see d ∨ ∃ tl, d = chr "(" :: tl ∧ begins_see tl) ∧ length d < 120.

(** ** Entry accumulator *)

(** A character that cleaning keeps: neither whitespace nor the soft hyphen. *)
Definition solid (c : char) : bool := negb (isspace c) && negb (c =? 0xAD)%N.

(** The text of the first line of a block, if it has one. *)
Definition first_line_spans (b : block) : option pystr :=
  line_text <$> head (lines b).

(** The block is not skipped before the heading detector is called. *)
Definition reaches_detection (b : block) : bool :=
  (type b =? 0)%Z
  && nonempty (strip (get_block_text b))
  && nonempty (get_block_first_line b)
  && negb (is_running_header (strip (get_block_text b)))
  && negb (is_page_number (strip (strip (get_block_text b)))).

(** The accumulator is in state Collecting, with an entry for [t] open. *)
Definition collecting (a : acc) (t : pystr) : Prop := current_term a = Some t.

(** The lines buffered for the open entry hold a solid character. *)
Definition has_substance (lines : list pystr) : Prop :=
  ∃ l c, l ∈ lines ∧ c ∈ l ∧ solid c = true.

(** ** Post-processor *)

(** The entry passes the checks that come before the test for duplicates. *)
Definition admissible (e : entry) : bool :=
  negb (length (term e) <? 2)
  && negb ((length (definition e) <? 10) && negb (is_cross_ref e))
  && negb (endswith (py ".") (term e) || endswith (py ":") (term e)
           || endswith (py ";") (term e))
  && negb (60 <? length (term e))
  && negb ((length (split (term e)) =? 1)
           && in_set (lower (term e)) SINGLE_WORD_EXCLUSIONS)
  && _is_valid_term (term e).

(** An entry with the lowercased term [x] is among the accepted ones. *)
Definition accepted (st : pp_state) (x : pystr) : Prop :=
  ∃ p ep, p ∈ cleaned st ∧ heap st !! p = Some ep ∧ lower (term ep) = x.

(** No two accepted entries have the same lowercased term. *)
Definition unique_terms (st : pp_state) : Prop :=
  ∀ i j r1 r2 e1 e2,
    cleaned st !! i = Some r1 → cleaned st !! j = Some r2 →
    heap st !! r1 = Some e1 → heap st !! r2 = Some e2 →
    lower (term e1) = lower (term e2) → i = j.

(** The entry at index [i] of the accepted list is the earliest one with
    the lowercased term [x]. *)
Definition earliest_accepted (st : pp_state) (x : pystr) (i : nat) (p : ref) (ep : entry)
    : Prop :=
  cleaned st !! i = Some p ∧ heap st !! p = Some ep ∧ lower (term ep) = x
  ∧ ∀ j q eq, j < i → cleaned st !! j = Some q → heap st !! q = Some eq →
              lower (term eq) ≠ x.

(** The entry [ep] with the definition of [e] appended after one space. *)
Definition merged (ep e : entry) : entry :=
  Entry (term ep) (definition ep ++ py " " ++ definition e) (page ep) (is_cross_ref ep).

(** The merge as the specification words it, for every later entry whose
    lowercased term is accepted already. *)
Definition claimed_merge : Prop :=
  ∀ (σ : gmap ref entry) (refs : list ref) (r : ref) (e : entry),
    let st := post_process_entries refs σ in
    let st' := post_process_entries (refs ++ [r]) σ in
    heap st !! r = Some e → accepted st (lower (term e)) →
    ∃ i p ep, earliest_accepted st (lower (term e)) i p ep
              ∧ heap st' !! p = Some (merged ep e)
              ∧ cleaned st' = cleaned st.

End Statements.

(** * Notions used in the proofs *)

Section Notions.
Context {ucd : UnicodeData}.

(** The length that a list of words adds to a joined string once a word
    stands before it: one space and the words joined. *)
Definition sep_length (ws : list pystr) : nat :=
  match ws with [] => 0 | _ => S (length (join (py " ") ws)) end.

(** [forces P r] tells, from the shape of [r], that every match of [r]
    consumes a character satisfying [P]. *)
Fixpoint forces (P : char → Prop) (r : regex) : Prop :=
  match r with
  | Cls p => ∀ c, p c = true → P c
  | Many p lo _ _ => 1 ≤ lo ∧ ∀ c, p c = true → P c
  | Seq r1 r2 => forces P r1 ∨ forces P r2
  | Grp _ r1 => forces P r1
  | _ => False
  end.

(** Groups that a pattern does not contain keep their value. *)
Fixpoint no_group (i : nat) (r : regex) : Prop :=
  match r with
  | Seq r1 r2 => no_group i r1 ∧ no_group i r2
  | Opt r1 | Star r1 => no_group i r1
  | Grp j r1 => j ≠ i ∧ no_group i r1
  | _ => True
  end.

Definition Solid (c : char) : Prop := solid c = true.

(** Whitespace is normalized in [u]: every whitespace character is a space
    and is followed by no whitespace. *)
Fixpoint spaced (u : pystr) : Prop :=
  match u with
  | [] => True
  | c :: tl =>
      (isspace c = true →
         c = chr " " ∧ match tl with d :: _ => isspace d = false | [] => True end)
      ∧ spaced tl
  end.

(** Every saved entry is classified by [is_cross_reference]. *)
Definition entries_classified (es : list entry) : Prop :=
  ∀ e, e ∈ es → is_cross_ref e = is_cross_reference (definition e).

(** The open entry always has a term and text to finalize. *)
Definition open_entry_ok (a : acc) : Prop :=
  ∀ t, current_term a = Some t →
       t ≠ [] ∧ has_substance (current_definition_lines a).

(** The facts that every pass through the loop keeps. *)
Definition pp_inv (st : pp_state) : Prop :=
  NoDup (cleaned st)
  ∧ (∀ r, r ∈ cleaned st →
          ∃ e, heap st !! r = Some e ∧ lower (term e) ∈ seen_terms st)
  ∧ (∀ x, x ∈ seen_terms st → accepted st x)
  ∧ (∀ r1 r2 e1 e2, r1 ∈ cleaned st → r2 ∈ cleaned st →
        heap st !! r1 = Some e1 → heap st !! r2 = Some e2 →
        lower (term e1) = lower (term e2) → r1 = r2).

End Notions.

(** ** The worked example: the mandrake entry *)

Definition text_block (ls : list pystr) : block :=
  Block 0 (map (λ l, Line [Span l]) ls).

Definition mandrake_head : block :=
  text_block [py "mandrake The mandrake is a fertility symbol and protective charm."].
Definition mandrake_continuation : block :=
  text_block [py "It was harvested under strict ritual conditions."].

(** The two blocks on the first page of the dictionary, page 9. *)
Definition mandrake_doc : list (list block) :=
  replicate DICT_START_PAGE [] ++ [[mandrake_head; mandrake_continuation]].

(** ** Worked inputs *)

(** A block whose definition opens with SEE in capitals, and the
    cross-reference of the specification. *)
Definition see_doc : list (list block) :=
  replicate DICT_START_PAGE [] ++ [[text_block [py "aureole SEE under halo."]]].
Definition see_entry : entry :=
  Entry (py "aureole") (py "SEE under halo.") 9 false.

Definition aureole_doc : list (list block) :=
  replicate DICT_START_PAGE [] ++ [[text_block [py "aureole See halo."]]].
Definition aureole_entry : entry := Entry (py "aureole") (py "See halo.") 9 true.

(** The mandrake heading with a second line. *)
Definition mandrake_two_lines : block :=
  text_block [py "mandrake The mandrake is a fertility symbol and protective charm.";
              py "It was harvested under strict ritual conditions."].

(** A mandrake block whose last line is a lone soft hyphen. *)
Definition trailing_hyphen_doc : list (list block) :=
  replicate DICT_START_PAGE []
  ++ [[text_block [py "mandrake The mandrake is a charm."; soft_hyphen]]].

(** Two entries for the phoenix, far apart, and a third too short to keep. *)
Definition phoenix_first : entry :=
  Entry (py "phoenix") (py "The phoenix rises from its own ashes.") 12 false.
Definition phoenix_second : entry :=
  Entry (py "Phoenix") (py "It is a symbol of resurrection.") 340 false.
Definition phoenix_short : entry :=
  Entry (py "phoenix") (py "See fire") 512 false.
Definition phoenix_store : gmap ref entry :=
  <[0 := phoenix_first]> (<[1 := phoenix_second]> (<[2 := phoenix_short]> ∅)).

(** A running header between the two mandrake blocks. *)
Definition automobile_doc : list (list block) :=
  replicate DICT_START_PAGE []
  ++ [[mandrake_head; text_block [py "AUTOMOBILE"]; mandrake_continuation]].

(** A block that the classifier takes for a running header, and the same
    first line followed by a second line. *)
Definition header_like : block := text_block [py "a' XXXXXXXXXX"].
Definition header_like_two_lines : block :=
  text_block [py "a' XXXXXXXXXX"; py "and the rest of the paragraph"].

(** Two blocks headed phoenix, two pages apart. *)
Definition phoenix_doc : list (list block) :=
  replicate DICT_START_PAGE []
  ++ [[text_block [py "phoenix The phoenix rises from its own ashes."]];
      [text_block [py "mandrake The mandrake is a fertility symbol."]];
      [text_block [py "phoenix It is a symbol of resurrection."]]].

(** * The rest of the program *)

(** [re.sub] of the runs of a class: every maximal run of characters of
    the class [p] becomes [rep].  [in_run] tells that the previous
    character was of the class. *)
Fixpoint sub_runs_go (p : char → bool) (rep : pystr) (in_run : bool) (s : pystr)
    : pystr :=
  match s with
  | [] => []
  | c :: s' =>
      if p c then
        if in_run then sub_runs_go p rep true s'
        else rep ++ sub_runs_go p rep true s'
      else c :: sub_runs_go p rep false s'
  end.

Definition sub_runs (p : char → bool) (rep s : pystr) : pystr :=
  sub_runs_go p rep false s.

(** [s.strip(chars)] *)
Definition strip_chars (chars s : pystr) : pystr :=
  rstrip_by (char_in chars) (lstrip_by (char_in chars) s).

(** The class of a-z and 0-9, whose complement [slugify] replaces. *)
Definition slug_char (c : char) : bool :=
  lower_az c || in_range (chr "0") (chr "9") c.

(** The metadata that [main] writes beside the entries. *)
Record metadata := Metadata {
  source : pystr;
  total_entries : nat;
  entries_with_definitions : nat;
  cross_references : nat;
}.

Section Rest.
Context {ucd : UnicodeData}.

(** [slugify] of [generate_symbols_html.py] *)
Definition slugify (text : pystr) : pystr :=
  let slug := strip (lower text) in
  let slug := sub_runs (λ c, negb (slug_char c)) (py "-") slug in
  let slug := strip_chars (py "-") slug in
  slug.

(** [sum(1 for e in entries if not e["is_cross_ref"])] and
    [sum(1 for e in entries if e["is_cross_ref"])] of [main] *)
Definition count_defs (entries : list entry) : nat :=
  length (List.filter (λ e, negb (is_cross_ref e)) entries).
Definition count_xrefs (entries : list entry) : nat :=
  length (List.filter (λ e, is_cross_ref e) entries).

(** The data that [main] of [extract_symbols.py] dumps: the metadata and
    the post-processed entries. *)
Definition main_data (doc : list (list block)) : metadata * list entry :=
  let entries := pipeline doc in
  let defs := count_defs entries in
  let xrefs := count_xrefs entries in
  (Metadata (py "Dictionary of Symbols (reprint edition)")
            (length entries) defs xrefs,
   entries).

End Rest.

(** * Further notions *)

Section FurtherNotions.
Context {ucd : UnicodeData}.

(** The blocks that the loops of [extract_entries] visit, in order, each
    with the number of its page. *)
Definition stream (doc : list (list block)) : list (nat * block) :=
  flat_map (λ page_num, map (pair page_num) (default [] (doc !! page_num)))
           (page_range doc).

(** The body of the block loop, on a block with its page number. *)
Definition process_item (a : acc) (pb : nat * block) : acc :=
  process_block pb.1 a pb.2.

(** The open term, as a list of none or one. *)
Definition option_list {A} (o : option A) : list A :=
  match o with Some x => [x] | None => [] end.

(** The term with which a block opens an entry, if it does. *)
Definition block_heading (b : block) : option pystr :=
  if reaches_detection b then
    let detected := detect_entry_heading (get_block_first_line b) in
    if truthy detected then detected else None
  else None.

(** The headings of a document, in the order of the blocks. *)
Definition headings (doc : list (list block)) : list pystr :=
  omap (λ pb, block_heading pb.2) (stream doc).

(** [within P r] tells, from the shape of [r], that every character a
    match of [r] consumes satisfies [P]. *)
Fixpoint within (P : char → Prop) (r : regex) : Prop :=
  match r with
  | Cls p | Many p _ _ _ => ∀ c, p c = true → P c
  | Seq r1 r2 => within P r1 ∧ within P r2
  | Opt r1 | Star r1 | Grp _ r1 => within P r1
  | Bol | Eol => True
  end.

(** The characters of the capitalized words of pattern 2. *)
Definition name_char (c : char) : bool := upper_AZ c || lower_az c || isspace c.

(** An ASCII letter. *)
Definition ascii_letter (c : char) : bool := lower_az c || upper_AZ c.

(** The characters a detected term is made of: ASCII letters, whitespace,
    comma, apostrophe and hyphen. *)
Definition heading_char (c : char) : bool := term_char c || upper_AZ c.

(** The shape of a term: 2 to 50 characters of the heading alphabet, the
    first an ASCII letter. *)
Definition term_shape (t : pystr) : Prop :=
  2 ≤ length t ≤ 50
  ∧ Forall (λ c, heading_char c = true) t
  ∧ ∃ c t', t = c :: t' ∧ ascii_letter c = true.

(** The definition of a saved entry is a cleaned text, not empty. *)
Definition cleaned_text (d : pystr) : Prop :=
  d ≠ [] ∧ ∃ text, d = clean_definition text.

(** The page, counted from 1, that a block gives to the entry it opens. *)
Definition heading_page (pb : nat * block) : option nat :=
  match block_heading pb.2 with Some _ => Some (pb.1 + 1) | None => None end.

(** The pages of the headings of a document, in the order of the blocks. *)
Definition heading_pages (doc : list (list block)) : list nat :=
  omap heading_page (stream doc).

(** The page of the open entry, as a list of none or one. *)
Definition open_page (a : acc) : list nat :=
  match current_term a with Some _ => [current_page a + 1] | None => [] end.

(** [e'] is [e] with text appended to its definition, or [e] itself. *)
Definition extends (e e' : entry) : Prop :=
  term e' = term e ∧ page e' = page e ∧ is_cross_ref e' = is_cross_ref e
  ∧ definition e `prefix_of` definition e'.

(** What post-processing keeps of an entry whatever it merges into it. *)
Definition label (e : entry) : pystr * nat * bool :=
  (term e, page e, is_cross_ref e).

(** No two hyphens stand side by side in [s]. *)
Fixpoint single_hyphens (s : pystr) : Prop :=
  match s with
  | [] => True
  | c :: tl =>
      match tl with d :: _ => ¬ (c = chr "-" ∧ d = chr "-") | [] => True end
      ∧ single_hyphens tl
  end.

(** The shape of a slug: the letters a to z, the digits and single hyphens
    between them, none at either end. *)
Definition slug_shape (s : pystr) : Prop :=
  Forall (λ c, slug_char c = true ∨ c = chr "-") s
  ∧ head s ≠ Some (chr "-") ∧ last s ≠ Some (chr "-")
  ∧ single_hyphens s.

(** The term [t] opens the line: both begin with the same ASCII letter,
    and a term in small letters is the very beginning of the line. *)
Definition opens (t line : pystr) : Prop :=
  ∃ c u t', line = c :: u ∧ t = c :: t' ∧ ascii_letter c = true
            ∧ (lower_az c = true → t `prefix_of` line).

(** The lines that a block gives to the entry it opens with the term [t]:
    the rest of its first line and those of its later lines that are kept. *)
Definition heading_lines (b : block) (t : pystr) : list pystr :=
  let rest_of_first := strip (drop (length t) (get_block_first_line b)) in
  (if nonempty rest_of_first then [rest_of_first] else [])
  ++ List.filter keep_line (drop 1 (block_lines b)).

(** The lines that a block without heading adds to the open entry. *)
Definition continuation_lines (b : block) : list pystr :=
  if reaches_detection b then List.filter keep_line (block_lines b) else [].

(** The entry saved for a term, its lines and the index of its page. *)
Definition make_entry (t : pystr) (lines : list pystr) (page_num : nat) : entry :=
  let definition := clean_definition (join (py " ") lines) in
  Entry t definition (page_num + 1) (is_cross_reference definition).

(** The entries of a stream of blocks, read from its end: a heading takes
    the lines of the blocks up to the next heading.  The first component
    holds the lines of the blocks that stand before the first heading. *)
Fixpoint group_entries (s : list (nat * block)) : list pystr * list entry :=
  match s with
  | [] => ([], [])
  | pb :: s' =>
      let g := group_entries s' in
      match block_heading pb.2 with
      | Some t => ([], make_entry t (heading_lines pb.2 t ++ g.1) pb.1 :: g.2)
      | None => (continuation_lines pb.2 ++ g.1, g.2)
      end
  end.

End FurtherNotions.

(** * Further worked inputs *)

(** One page, with the mandrake heading on it. *)
Definition one_page_doc : list (list block) := [[mandrake_head]].

(** The mandrake document with text on the pages before the dictionary. *)
Definition front_matter_doc : list (list block) :=
  replicate DICT_START_PAGE [mandrake_head]
  ++ [[mandrake_head; mandrake_continuation]].

(** The first line of the mandrake entry. *)
Definition mandrake_line : pystr :=
  py "mandrake The mandrake is a fertility symbol and protective charm.".

(** A text with a tab and a line feed in it. *)
Definition tabbed_text : pystr :=
  py "The mandrake" ++ [chr "009"] ++ py "is a" ++ [chr "010"] ++ py "charm.".

(** The phoenix entry of [phoenix_doc] after the merge. *)
Definition phoenix_entry : entry :=
  Entry (py "phoenix")
    (py "The phoenix rises from its own ashes. It is a symbol of resurrection.")
    9 false.

(** * Properties *)

(** ** The tables of the interpreter

    The tables of Basic Latin and Latin-1 Supplement satisfy the laws of
    [UnicodeData]; the worked inputs are evaluated with them. *)

Lemma latin_isalpha_not_space c : latin_isalpha c = true → isspace c = false.
Proof.
  unfold latin_isalpha, isspace, in_range. intros H.
  repeat (apply orb_prop in H as [H|H]);
    repeat match goal with
           | H : _ && _ = true |- _ => apply andb_prop in H as [? ?]
           | H : (_ <=? _)%N = true |- _ => apply N.leb_le in H
           | H : (_ =? _)%N = true |- _ => apply N.eqb_eq in H
           end;
    repeat (apply orb_false_intro);
    try (apply andb_false_iff; rewrite !N.leb_gt; lia);
    try (apply N.eqb_neq; lia).
Qed.

Lemma latin_isalpha_not_stop c : latin_isalpha c = true → c ≠ chr ".".
Proof. intros H ->. vm_compute in H. discriminate. Qed.

#[export] Instance python_ucd : UnicodeData := {|
  isalpha := latin_isalpha;
  isupper := latin_isupper;
  isdecimal := nd_isdecimal;
  lower := map latin_lower_char;
  isalpha_not_space := latin_isalpha_not_space;
  isalpha_not_stop := latin_isalpha_not_stop;
|}.


(** ** Term validator *)

Section Validator.
Context {ucd : UnicodeData}.

Lemma in_set_true w S : in_set w S = true ↔ w ∈ S.
Proof. unfold in_set. apply bool_decide_eq_true. Qed.

Lemma in_set_false w S : in_set w S = false ↔ w ∉ S.
Proof. unfold in_set. apply bool_decide_eq_false. Qed.

Lemma filter_map_length {A B} (f : A → B) (P : B → bool) (l : list A) :
  length (List.filter P (map f l)) = length (List.filter (λ x, P (f x)) l).
Proof. induction l as [|x l IH]; simpl; [done|]. destruct (P (f x)); simpl; by rewrite IH. Qed.

Lemma existsb_map_false {A B} (f : A → B) (P : B → bool) (l : list A) :
  existsb P (map f l) = false ↔ ∀ x, x ∈ l → P (f x) = false.
Proof.
  induction l as [|x l IH]; simpl.
  - split; [intros _ y Hy; inversion Hy | done].
  - rewrite orb_false_iff, IH. split.
    + intros [Hx Hl] y Hy. apply elem_of_cons in Hy as [->|Hy]; auto.
    + intros H. split; [apply H; left | intros y Hy; apply H; by right].
Qed.

(** C4: the term validator accepts a term exactly when its first word is no
    sentence starter, its last word no fragment ender, it has at most five
    words and, from three words on, fewer than two of the words after the
    first are fillers and none of them is the, is, was, are or were. *)
Theorem is_valid_term_iff (term : pystr) :
  _is_valid_term term = true ↔ headword term.
Proof.
  unfold _is_valid_term, headword, filler_count, internal_words.
  destruct (split term) as [|w ws] eqn:Hw; simpl nonempty; cbn [negb].
  - split; [done|]. intros [[first [Hf _]] _]. done.
  - assert (Hh : head (w :: ws) = Some w) by done. clear Hw.
    generalize dependent (w :: ws). intros words Hh. rewrite Hh.
    destruct (last words) as [z|] eqn:Hz;
      [|apply last_None in Hz; by subst].
    change (default [] (Some w)) with w.
    change (default [] (Some z)) with z.
    rewrite filter_map_length.
    destruct (in_set (lower w) SENTENCE_STARTERS) eqn:H1; cbv iota.
    { split; [done|]. intros [[first [Hf Hn]] _]. simplify_eq.
      by apply in_set_true in H1. }
    destruct (in_set (lower z) FRAG_ENDERS) eqn:H2; cbv iota.
    { split; [done|]. intros (_ & [final [Hf Hn]] & _). simplify_eq.
      by apply in_set_true in H2. }
    apply in_set_false in H1, H2.
    destruct (5 <? length words) eqn:H5; cbv iota.
    { apply Nat.ltb_lt in H5. split; [done|]. intros (_ & _ & Hlen & _). lia. }
    apply Nat.ltb_ge in H5.
    destruct (3 <=? length words) eqn:H3; cbv iota.
    + apply Nat.leb_le in H3.
      match goal with |- context [2 <=? ?n] => destruct (2 <=? n) eqn:Hc end; cbv iota.
      { apply Nat.leb_le in Hc. split; [done|]. intros (_ & _ & _ & Hfrag).
        destruct (Hfrag H3) as [Hlt _]. unfold in_set in Hc. lia. }
      apply Nat.leb_gt in Hc.
      destruct (existsb _ _) eqn:He; cbv iota.
      { split; [done|]. intros (_ & _ & _ & Hfrag).
        destruct (Hfrag H3) as [_ Hall].
        apply existsb_exists in He as (x & Hx & Hin).
        apply in_map_iff in Hx as (y & <- & Hy).
        apply in_set_true in Hin. apply list_elem_of_In in Hy.
        exfalso. by apply (Hall y). }
      split; [intros _|done].
      split; [eauto|]. split; [eauto|]. split; [lia|]. intros _.
      split; [unfold in_set in Hc; lia|].
      intros y Hy. apply in_set_false.
      by apply (proj1 (existsb_map_false lower _ _) He).
    + apply Nat.leb_gt in H3. split; [intros _|done].
      split; [eauto|]. split; [eauto|]. split; lia.
Qed.

End Validator.

(** ** Facts on the string methods *)

Section Strings.

Lemma filter_reverse_bool {A} (q : A → bool) (l : list A) :
  List.filter q (reverse l) = reverse (List.filter q l).
Proof.
  induction l as [|x l IH]; [done|].
  rewrite reverse_cons, List.filter_app, IH. simpl.
  destruct (q x); [by rewrite reverse_cons | by rewrite app_nil_r].
Qed.

Lemma lstrip_by_length p s : length (lstrip_by p s) ≤ length s.
Proof. induction s as [|c s IH]; simpl; [done|]. destruct (p c); simpl; lia. Qed.

Lemma rstrip_by_length p s : length (rstrip_by p s) ≤ length s.
Proof.
  unfold rstrip_by. rewrite length_reverse.
  etrans; [apply lstrip_by_length|]. by rewrite length_reverse.
Qed.

Lemma strip_length s : length (strip s) ≤ length s.
Proof.
  unfold strip. etrans; [apply rstrip_by_length|]. apply lstrip_by_length.
Qed.

Lemma rstrip_length chars s : length (rstrip chars s) ≤ length s.
Proof. apply rstrip_by_length. Qed.

(** Stripping removes only characters of the stripped class. *)
Lemma lstrip_by_filter (p q : char → bool) s :
  (∀ c, p c = true → q c = false) →
  List.filter q (lstrip_by p s) = List.filter q s.
Proof.
  intros Hpq. induction s as [|c s IH]; simpl; [done|].
  destruct (p c) eqn:Hp; [|done]. by rewrite (Hpq c Hp).
Qed.

Lemma rstrip_by_filter (p q : char → bool) s :
  (∀ c, p c = true → q c = false) →
  List.filter q (rstrip_by p s) = List.filter q s.
Proof.
  intros Hpq. unfold rstrip_by.
  rewrite filter_reverse_bool, lstrip_by_filter, filter_reverse_bool by done.
  apply reverse_involutive.
Qed.

Lemma strip_filter (q : char → bool) s :
  (∀ c, isspace c = true → q c = false) →
  List.filter q (strip s) = List.filter q s.
Proof.
  intros Hq. unfold strip. by rewrite rstrip_by_filter, lstrip_by_filter.
Qed.

Lemma lstrip_by_head p s c : head (lstrip_by p s) = Some c → p c = false.
Proof.
  induction s as [|x s IH]; simpl; [done|].
  destruct (p x) eqn:Hp; [done|]. simpl. by intros [= <-].
Qed.

Lemma rstrip_by_last p s c : last (rstrip_by p s) = Some c → p c = false.
Proof. unfold rstrip_by. rewrite last_reverse. apply lstrip_by_head. Qed.

Lemma strip_last s c : last (strip s) = Some c → isspace c = false.
Proof. apply rstrip_by_last. Qed.

Lemma lstrip_by_id p s :
  (∀ c, head s = Some c → p c = false) → lstrip_by p s = s.
Proof. destruct s as [|c s]; simpl; [done|]. intros H. by rewrite H. Qed.

Lemma lstrip_by_suffix p s : lstrip_by p s `suffix_of` s.
Proof.
  induction s as [|c s IH]; simpl; [done|].
  destruct (p c); [by apply suffix_cons_r | done].
Qed.

Lemma rstrip_by_prefix p s : rstrip_by p s `prefix_of` s.
Proof.
  unfold rstrip_by. rewrite <- (reverse_involutive s) at 2.
  apply suffix_prefix_reverse, lstrip_by_suffix.
Qed.

Lemma strip_head s c : head (strip s) = Some c → isspace c = false.
Proof.
  unfold strip. intros Hh.
  destruct (rstrip_by_prefix isspace (lstrip_by isspace s)) as [k Hk].
  destruct (rstrip_by isspace (lstrip_by isspace s)) as [|x u] eqn:Hu; [done|].
  simpl in Hh. injection Hh as ->.
  apply (lstrip_by_head isspace s). by rewrite Hk.
Qed.

Lemma rstrip_by_id p s :
  (∀ c, last s = Some c → p c = false) → rstrip_by p s = s.
Proof.
  intros H. unfold rstrip_by. rewrite lstrip_by_id; [apply reverse_involutive|].
  intros c Hc. apply H. by rewrite <- (reverse_involutive s), last_reverse.
Qed.

Lemma strip_idemp s : strip (strip s) = strip s.
Proof.
  unfold strip at 1. rewrite lstrip_by_id by apply strip_head.
  apply rstrip_by_id, strip_last.
Qed.

(** [s.split()] then [' '.join] never lengthens the string. *)
Lemma join_cons_length w ws :
  length (join (py " ") (w :: ws)) = length w + sep_length ws.
Proof.
  destruct ws as [|w' ws]; simpl; [lia|].
  rewrite length_app. simpl. lia.
Qed.

Lemma split_go_length s :
  length (split_go s).1 + sep_length (split_go s).2 ≤ length s.
Proof.
  induction s as [|c s IH]; [done|]. cbn [split_go].
  destruct (split_go s) as [w ws]. cbn [fst snd] in *.
  destruct (isspace c); cbn [fst snd length].
  - destruct w as [|x w]; cbn [push_word]; [lia|].
    unfold sep_length at 1. rewrite join_cons_length. simpl in *. lia.
  - lia.
Qed.

Lemma split_join_length s : length (join (py " ") (split s)) ≤ length s.
Proof.
  unfold split. pose proof (split_go_length s) as H.
  destruct (split_go s) as [w ws]. cbn [fst snd] in H.
  destruct w as [|x w]; cbn [push_word].
  - destruct ws; [simpl; lia|]. unfold sep_length in H. simpl in *. lia.
  - rewrite join_cons_length. simpl in *. lia.
Qed.

Lemma join_app_length ws1 ws2 :
  length (join (py " ") ws1) ≤ length (join (py " ") (ws1 ++ ws2)).
Proof.
  induction ws1 as [|w ws1 IH]; [simpl; lia|].
  rewrite <- app_comm_cons, !join_cons_length.
  destruct ws1 as [|w1 ws1]; [simpl; lia|].
  rewrite <- app_comm_cons in *. unfold sep_length. lia.
Qed.

Lemma elem_of_join sep ws w c : w ∈ ws → c ∈ w → c ∈ join sep ws.
Proof.
  induction ws as [|x ws IH]; [by intros H; inversion H|].
  intros Hw Hc. apply elem_of_cons in Hw as [->|Hw].
  - destruct ws; simpl; [done|]. apply elem_of_app. by left.
  - destruct ws as [|y ws]; [by inversion Hw|].
    change (c ∈ x ++ sep ++ join sep (y :: ws)).
    rewrite !elem_of_app. right. right. by apply IH.
Qed.

End Strings.

(** ** Facts on the matcher *)

Section Regex.

Lemma elem_of_flat_map {A B} (f : A → list B) (l : list A) (y : B) :
  y ∈ flat_map f l ↔ ∃ x, x ∈ l ∧ y ∈ f x.
Proof.
  rewrite list_elem_of_In, in_flat_map. split.
  - intros (x & Hx & Hy). exists x. by rewrite !list_elem_of_In.
  - intros (x & Hx & Hy). exists x. by rewrite <- !list_elem_of_In.
Qed.

Lemma elem_of_filter_bool {A} (q : A → bool) (l : list A) (y : A) :
  y ∈ List.filter q l ↔ y ∈ l ∧ q y = true.
Proof. by rewrite !list_elem_of_In, filter_In. Qed.

Lemma matched_head (l : list mstate) : matched (head l) = true ↔ ∃ x, x ∈ l.
Proof.
  destruct l as [|x l]; simpl.
  - split; [done|]. intros [x Hx]. inversion Hx.
  - split; [|done]. intros _. exists x. left.
Qed.

Lemma re_match_Some r s m : re_match r s = Some m → m ∈ exec r (MState 0 s []).
Proof. unfold re_match. apply head_Some_elem_of. Qed.

Lemma exec_seq r1 r2 st x :
  x ∈ exec (r1 >> r2) st ↔ ∃ y, y ∈ exec r1 st ∧ x ∈ exec r2 y.
Proof. simpl. apply elem_of_flat_map. Qed.

Lemma exec_bol st x : x ∈ exec Bol st ↔ pos st = 0 ∧ x = st.
Proof.
  simpl. destruct (pos st).
  - rewrite list_elem_of_singleton. split; [by intros ->|by intros [_ ->]].
  - split; [intros H; inversion H | intros [? _]; done].
Qed.

Lemma exec_eol st x :
  x ∈ exec Eol st ↔ x = st ∧ (rest st = [] ∨ rest st = [chr "010"]).
Proof.
  cbn [exec]. destruct (rest st) as [|c [|c' s]].
  - rewrite list_elem_of_singleton. split; [intros ->; auto|by intros [-> _]].
  - destruct (N.eqb_spec c (chr "010")) as [->|Hc].
    + rewrite list_elem_of_singleton. split; [intros ->; auto|by intros [-> _]].
    + split; [intros H; inversion H | intros [_ [?|[= ?]]]; done].
  - split; [intros H; inversion H | intros [_ [?|?]]; done].
Qed.

Lemma exec_cls p st x :
  x ∈ exec (Cls p) st ↔
  ∃ c s, rest st = c :: s ∧ p c = true ∧ x = advance 1 st.
Proof.
  simpl. destruct (rest st) as [|c s].
  - split; [intros H; inversion H | intros (? & ? & ? & _); done].
  - destruct (p c) eqn:Hp.
    + rewrite list_elem_of_singleton. split; [intros ->; eauto | by intros (? & ? & ? & ? & ->)].
    + split; [intros H; inversion H | intros (? & ? & ? & ? & _); congruence].
Qed.

Lemma counts_elem lo hi greedy n k :
  k ∈ counts lo hi greedy n ↔
  lo ≤ k ∧ k ≤ n ∧ match hi with Some h => k ≤ h | None => True end.
Proof.
  unfold counts. destruct greedy; rewrite ?elem_of_reverse, elem_of_seq;
    destruct hi; lia.
Qed.

Lemma exec_many p lo hi greedy st x :
  x ∈ exec (Many p lo hi greedy) st ↔
  ∃ k, k ∈ counts lo hi greedy (run p (rest st)) ∧ x = advance k st.
Proof.
  simpl. rewrite list_elem_of_fmap. split.
  - intros (k & -> & Hk). by exists k.
  - intros (k & Hk & ->). by exists k.
Qed.

Lemma run_le p s : run p s ≤ length s.
Proof. induction s as [|c s IH]; simpl; [lia|]. destruct (p c); simpl; lia. Qed.

Lemma run_take p s k c : k ≤ run p s → c ∈ take k s → p c = true.
Proof.
  revert k. induction s as [|x s IH]; intros k Hk Hc.
  - rewrite take_nil in Hc. inversion Hc.
  - simpl in Hk. destruct k as [|k]; [inversion Hc|].
    destruct (p x) eqn:Hp; [|lia]. simpl in Hc.
    apply elem_of_cons in Hc as [->|Hc]; [done|]. apply (IH k); [lia|done].
Qed.

Lemma run_all p s : (∀ c, c ∈ s → p c = true) → run p s = length s.
Proof.
  induction s as [|x s IH]; intros H; simpl; [done|].
  rewrite (H x) by left. rewrite IH; [done|]. intros c Hc. apply H. by right.
Qed.

Lemma run_head p s : 1 ≤ run p s → ∃ c s', s = c :: s' ∧ p c = true.
Proof.
  destruct s as [|c s]; simpl; [lia|]. destruct (p c) eqn:Hp; [eauto|lia].
Qed.

Lemma star_loop_word (body : mstate → list mstate) fuel st st' :
  (∀ a b, b ∈ body a →
     ∃ w, rest a = w ++ rest b ∧ pos b = pos a + length w) →
  st' ∈ star_loop body fuel st →
  ∃ w, rest st = w ++ rest st' ∧ pos st' = pos st + length w.
Proof.
  intros Hbody. revert st. induction fuel as [|fuel IH]; intros st; simpl.
  - rewrite list_elem_of_singleton. intros ->. exists []. simpl. split; [done|lia].
  - rewrite elem_of_app, elem_of_flat_map, list_elem_of_singleton.
    intros [(y & Hy & Hst')| ->].
    + apply elem_of_filter_bool in Hy as [Hy _].
      destruct (Hbody _ _ Hy) as (w1 & E1 & P1).
      destruct (IH _ Hst') as (w2 & E2 & P2).
      exists (w1 ++ w2). rewrite E1, E2, length_app, <- app_assoc. split; [done|lia].
    + exists []. simpl. split; [done|lia].
Qed.

Local Ltac empty_word :=
  exists []; cbn [app length]; split; [done|]; split; [lia|]; by intros [].

Lemma exec_word (P : char → Prop) r st st' :
  st' ∈ exec r st →
  ∃ w, rest st = w ++ rest st' ∧ pos st' = pos st + length w ∧
       (forces P r → Exists P w).
Proof.
  revert st st'. induction r as [| |p|p lo hi g|r1 IH1 r2 IH2|r1 IH1|r1 IH1|i r1 IH1];
    intros st st' Hst'.
  - apply exec_bol in Hst' as [_ ->]. empty_word.
  - apply exec_eol in Hst' as [-> _]. empty_word.
  - apply exec_cls in Hst' as (c & s & Hr & Hp & ->).
    exists [c]. cbn [advance pos rest]. rewrite Hr. cbn [drop app length].
    split; [done|]. split; [done|]. intros Hf. apply Exists_cons_hd. by apply Hf.
  - apply exec_many in Hst' as (k & Hk & ->).
    apply counts_elem in Hk as (Hlo & Hn & _).
    pose proof (run_le p (rest st)) as Hle.
    exists (take k (rest st)). cbn [advance pos rest].
    rewrite take_drop, length_take_le by lia. split; [done|]. split; [done|].
    intros [Hlo1 Hf].
    destruct (run_head p (rest st)) as (c & s & Hr & Hp); [lia|].
    rewrite Hr. destruct k as [|k]; [lia|]. cbn [take].
    apply Exists_cons_hd. by apply Hf.
  - apply exec_seq in Hst' as (y & Hy & Hst').
    destruct (IH1 _ _ Hy) as (w1 & E1 & P1 & F1).
    destruct (IH2 _ _ Hst') as (w2 & E2 & P2 & F2).
    exists (w1 ++ w2). rewrite E1, E2, length_app, <- app_assoc.
    split; [done|]. split; [lia|]. intros [Hf|Hf]; apply Exists_app; auto.
  - simpl in Hst'. apply elem_of_app in Hst' as [Hst'|Hst'].
    + destruct (IH1 _ _ Hst') as (w & E & Pw & _). exists w.
      split; [done|]. split; [done|]. by intros [].
    + apply list_elem_of_singleton in Hst' as ->. empty_word.
  - simpl in Hst'. apply star_loop_word in Hst' as (w & E & Pw).
    + exists w. split; [done|]. split; [done|]. by intros [].
    + intros a b Hb. destruct (IH1 _ _ Hb) as (w & E & Pw & _). eauto.
  - simpl in Hst'. apply list_elem_of_fmap in Hst' as (y & -> & Hy).
    destruct (IH1 _ _ Hy) as (w & E & Pw & F). exists w. by repeat split.
Qed.

Lemma star_loop_group (body : mstate → list mstate) i fuel st st' :
  (∀ a b, b ∈ body a → group i b = group i a) →
  st' ∈ star_loop body fuel st → group i st' = group i st.
Proof.
  intros Hbody. revert st. induction fuel as [|fuel IH]; intros st; simpl.
  - by rewrite list_elem_of_singleton; intros ->.
  - rewrite elem_of_app, elem_of_flat_map, list_elem_of_singleton.
    intros [(y & Hy & Hst')| ->]; [|done].
    apply elem_of_filter_bool in Hy as [Hy _].
    rewrite (IH _ Hst'). by apply Hbody.
Qed.

Lemma exec_group i r st st' :
  no_group i r → st' ∈ exec r st → group i st' = group i st.
Proof.
  revert st st'. induction r as [| |p|p lo hi g|r1 IH1 r2 IH2|r1 IH1|r1 IH1|j r1 IH1];
    intros st st' Hno Hst'.
  - by apply exec_bol in Hst' as [_ ->].
  - by apply exec_eol in Hst' as [-> _].
  - by apply exec_cls in Hst' as (c & s & Hr & Hp & ->).
  - by apply exec_many in Hst' as (k & Hk & ->).
  - destruct Hno as [Hn1 Hn2]. apply exec_seq in Hst' as (y & Hy & Hst').
    rewrite (IH2 _ _ Hn2 Hst'). by apply IH1.
  - simpl in Hst'. apply elem_of_app in Hst' as [Hst'|Hst'].
    + by apply IH1.
    + by apply list_elem_of_singleton in Hst' as ->.
  - simpl in Hst'. eapply star_loop_group; [|done]. intros a b. by apply IH1.
  - destruct Hno as [Hj Hn]. simpl in Hst'.
    apply list_elem_of_fmap in Hst' as (y & -> & Hy).
    rewrite <- (IH1 _ _ Hn Hy). unfold group, capture. simpl.
    destruct (Nat.eqb_spec j i); [done|done].
Qed.

(** The bound on the iterations of [Star] is never reached: any larger one
    gives the same matches. *)
Lemma flat_map_ext_elem {A B} (f g : A → list B) (l : list A) :
  (∀ x, x ∈ l → f x = g x) → flat_map f l = flat_map g l.
Proof.
  induction l as [|x l IH]; intros H; [done|]. simpl.
  rewrite (H x) by left. rewrite IH; [done|]. intros y Hy. apply H. by right.
Qed.

Lemma filter_none {A} (q : A → bool) (l : list A) :
  (∀ x, q x = false) → List.filter q l = [].
Proof. intros H. induction l as [|x l IH]; simpl; [done|]. by rewrite H. Qed.

Lemma star_loop_fuel (body : mstate → list mstate) n m st :
  length (rest st) ≤ n → length (rest st) ≤ m →
  star_loop body n st = star_loop body m st.
Proof.
  revert m st. induction n as [|n IH]; intros m st Hn Hm.
  - destruct m as [|m]; [done|]. cbn [star_loop].
    rewrite filter_none; [done|].
    intros b. unfold progress. apply Nat.ltb_ge. lia.
  - destruct m as [|m]; cbn [star_loop].
    + rewrite filter_none; [done|].
      intros b. unfold progress. apply Nat.ltb_ge. lia.
    + f_equal. apply flat_map_ext_elem. intros b Hb.
      apply elem_of_filter_bool in Hb as [_ Hb]. unfold progress in Hb.
      apply Nat.ltb_lt in Hb. apply IH; lia.
Qed.

Corollary exec_star_fuel r st n :
  length (rest st) ≤ n → exec (Star r) st = star_loop (exec r) n st.
Proof. intros Hn. cbn [exec]. by apply star_loop_fuel. Qed.

(** A pattern that opens with [^] and group 1: the group is a prefix of the
    line, and the rest of the pattern consumes what follows it. *)
Lemma match_group1 (P : char → Prop) r1 tail line m :
  no_group 1 tail →
  re_match (Bol >> Grp 1 r1 >> tail) line = Some m →
  ∃ w2 s', line = group 1 m ++ w2 ++ s' ∧ (forces P tail → Exists P w2).
Proof.
  intros Hno Hm. apply re_match_Some in Hm.
  apply exec_seq in Hm as (st0 & H0 & Hm). apply exec_bol in H0 as [_ ->].
  apply exec_seq in Hm as (st1 & H1 & Hm).
  simpl in H1. apply list_elem_of_fmap in H1 as (y & -> & Hy).
  destruct (exec_word P _ _ _ Hy) as (w1 & E1 & P1 & _).
  destruct (exec_word P _ _ _ Hm) as (w2 & E2 & P2 & F2).
  simpl in *. exists w2, (rest m). rewrite (exec_group 1 _ _ _ Hno Hm).
  unfold group, capture. simpl. rewrite P1, Nat.sub_0_r, E1.
  rewrite take_app_length. by rewrite E2.
Qed.

End Regex.

(** ** Block classifier *)

Section Classifier.
Context {ucd : UnicodeData}.

Lemma nonempty_true {A} (l : list A) : nonempty l = true ↔ l ≠ [].
Proof. by destruct l. Qed.

Lemma nonempty_false {A} (l : list A) : nonempty l = false ↔ l = [].
Proof. by destruct l. Qed.

Lemma char_in_stop c : char_in (py ".") c = true → c = chr ".".
Proof.
  unfold char_in. rewrite bool_decide_eq_true.
  intros Hc. by apply list_elem_of_singleton in Hc.
Qed.

(** The letters of the text are those of the text stripped. *)
Lemma alphabetic_stripped text :
  List.filter isalpha (rstrip (py ".") (strip text)) = alphabetic text.
Proof.
  unfold rstrip, alphabetic. rewrite rstrip_by_filter, strip_filter; [done| |].
  - intros c Hc. destruct (isalpha c) eqn:Ha; [|done].
    apply isalpha_not_space in Ha. congruence.
  - intros c Hc. apply char_in_stop in Hc as ->.
    destruct (isalpha (chr ".")) eqn:Ha; [|done].
    by apply isalpha_not_stop in Ha.
Qed.

Lemma is_running_header_running_header (text : pystr) :
  is_running_header text = true ↔ running_header text.
Proof.
  unfold is_running_header, running_header, mostly_uppercase.
  rewrite alphabetic_stripped.
  set (stripped := rstrip (py ".") (strip text)).
  assert (Ha : alphabetic text ≠ [] → stripped ≠ []).
  { intros Hne Hs. apply Hne. rewrite <- alphabetic_stripped.
    fold stripped. by rewrite Hs. }
  destruct (nonempty stripped) eqn:Hs; cbn [negb]; cbv iota.
  - destruct (nonempty (alphabetic text)) eqn:Hal; cbn [negb]; cbv iota.
    + apply nonempty_true in Hal.
      destruct (9 * length (alphabetic text) <=? _) eqn:Hr; cbn [andb].
      * apply Nat.leb_le in Hr.
        destruct (2 <=? length stripped) eqn:H2; cbn [andb].
        -- apply Nat.leb_le in H2.
           destruct (length stripped <=? 50) eqn:H50.
           ++ apply Nat.leb_le in H50. done.
           ++ apply Nat.leb_gt in H50. split; [done|]. intros (_ & _ & _ & ?). lia.
        -- apply Nat.leb_gt in H2. split; [done|]. intros (_ & _ & ? & _). lia.
      * apply Nat.leb_gt in Hr. split; [done|]. intros (_ & ? & _). lia.
    + apply nonempty_false in Hal. split; [done|]. by intros [? _].
  - apply nonempty_false in Hs. split; [done|]. intros [Hne _]. by destruct (Ha Hne).
Qed.

(** C6, as amended: the running-header test holds exactly when the text has
    an alphabetic character, at least 0.9 of its alphabetic characters are
    uppercase, and the text, stripped of surrounding whitespace and then of
    trailing full stops, is 2 to 50 characters long; in particular a text
    without alphabetic character is no running header. *)
Theorem is_running_header_iff (text : pystr) :
  (is_running_header text = true ↔ running_header text)
  ∧ (alphabetic text = [] → is_running_header text = false).
Proof.
  split; [apply is_running_header_running_header|].
  intros Hal. apply not_true_is_false.
  rewrite is_running_header_running_header. by intros [Hne _].
Qed.

Lemma drop_singleton_last {A} (k : nat) (s : list A) (c : A) :
  drop k s = [c] → last s = Some c.
Proof.
  intros Hd. rewrite <- (take_drop k s), Hd. apply last_snoc.
Qed.

(** C7, as amended: the page-number test holds exactly when the stripped
    text consists of 1 to 4 decimal digits, in the sense of the class of
    digits of the regular expressions. *)
Theorem is_page_number_iff (text : pystr) :
  is_page_number text = true ↔ page_number text.
Proof.
  unfold is_page_number, page_number, re_match, re_page_number.
  set (s := strip text). rewrite matched_head. split.
  - intros (m & Hm).
    apply exec_seq in Hm as (st0 & H0 & Hm). apply exec_bol in H0 as [_ ->].
    apply exec_seq in Hm as (st1 & H1 & Hm).
    apply exec_many in H1 as (k & Hk & ->).
    apply counts_elem in Hk as (Hlo & Hrun & Hhi). cbn [rest] in Hrun.
    apply exec_eol in Hm as [_ Hend]. cbn [advance rest] in Hend.
    pose proof (run_le isdecimal s) as Hle.
    destruct Hend as [Hend|Hend].
    + apply drop_nil_inv in Hend.
      assert (k = length s) as -> by lia.
      split; [lia|]. intros c Hc. apply (run_take isdecimal s (length s)); [done|].
      by rewrite firstn_all.
    + apply drop_singleton_last in Hend. apply strip_last in Hend. done.
  - intros [Hlen Hall].
    exists (advance (length s) (MState 0 s [])).
    apply exec_seq. exists (MState 0 s []). split; [by apply exec_bol|].
    apply exec_seq. exists (advance (length s) (MState 0 s [])). split.
    + apply exec_many. exists (length s). split; [|done].
      apply counts_elem. cbn [rest]. rewrite run_all by done. lia.
    + apply exec_eol. split; [done|]. left. cbn [advance rest].
      apply drop_all.
Qed.

End Classifier.

(** ** Cross-references *)

Section CrossReference.
Context {ucd : UnicodeData}.

Lemma cls_Ss_true c : cls_Ss c = true ↔ c = chr "S" ∨ c = chr "s".
Proof.
  unfold cls_Ss, is_chr. rewrite orb_true_iff, !N.eqb_eq. done.
Qed.

Lemma is_chr_true a c : is_chr a c = true ↔ c = chr a.
Proof. unfold is_chr. apply N.eqb_eq. Qed.

(** What [[Ss]ee\s+] matches at a state. *)
Lemma exec_see st :
  (∃ m, m ∈ exec (Cls cls_Ss >> Cls (is_chr "e") >> Cls (is_chr "e") >> plus isspace) st)
  ↔ begins_see (rest st).
Proof.
  split.
  - intros (m & Hm).
    apply exec_seq in Hm as (st1 & H1 & Hm).
    apply exec_cls in H1 as (c1 & s1 & R1 & P1 & ->).
    apply exec_seq in Hm as (st2 & H2 & Hm).
    apply exec_cls in H2 as (c2 & s2 & R2 & P2 & ->).
    apply exec_seq in Hm as (st3 & H3 & Hm).
    apply exec_cls in H3 as (c3 & s3 & R3 & P3 & ->).
    apply exec_many in Hm as (k & Hk & ->).
    apply counts_elem in Hk as (Hlo & Hrun & _).
    destruct (run_head isspace _ (Nat.le_trans _ _ _ Hlo Hrun))
      as (c4 & s4 & R4 & P4).
    cbn [advance rest] in R2, R3, R4. rewrite R1 in R2, R3, R4.
    simpl in R2, R3, R4. rewrite drop_0 in R2, R3, R4. subst s1.
    simpl in R3, R4. rewrite drop_0 in R3, R4. subst s2.
    simpl in R4. rewrite drop_0 in R4. subst s3.
    apply cls_Ss_true in P1. apply is_chr_true in P2, P3. subst c2 c3.
    exists c1, c4, s4. done.
  - intros (s & w & tl & Hr & Hs & Hw).
    exists (advance 1 (advance 1 (advance 1 (advance 1 st)))).
    apply exec_seq. exists (advance 1 st). split.
    { apply exec_cls. exists s, (chr "e" :: chr "e" :: w :: tl).
      by rewrite cls_Ss_true. }
    apply exec_seq. exists (advance 1 (advance 1 st)). split.
    { apply exec_cls. exists (chr "e"), (chr "e" :: w :: tl).
      cbn [advance rest]. by rewrite Hr. }
    apply exec_seq. exists (advance 1 (advance 1 (advance 1 st))). split.
    { apply exec_cls. exists (chr "e"), (w :: tl).
      cbn [advance rest]. by rewrite Hr. }
    apply exec_many. exists 1. split; [|done].
    apply counts_elem. cbn [advance rest]. rewrite Hr. cbn [drop run].
    rewrite Hw. lia.
Qed.

Lemma matched_re_see d : matched (re_match re_see d) = true ↔ begins_see d.
Proof.
  unfold re_match, re_see. rewrite matched_head, <- (exec_see (MState 0 d [])).
  split.
  - intros (m & Hm). apply exec_seq in Hm as (st0 & H0 & Hm).
    apply exec_bol in H0 as [_ ->]. eauto.
  - intros (m & Hm). exists m. apply exec_seq. eexists. split; [by apply exec_bol|done].
Qed.

Lemma matched_re_see_paren d :
  matched (re_match re_see_paren d) = true ↔ ∃ tl, d = chr "(" :: tl ∧ begins_see tl.
Proof.
  unfold re_match, re_see_paren. rewrite matched_head. split.
  - intros (m & Hm). apply exec_seq in Hm as (st0 & H0 & Hm).
    apply exec_bol in H0 as [_ ->].
    apply exec_seq in Hm as (st1 & H1 & Hm).
    apply exec_cls in H1 as (c1 & s1 & R1 & P1 & ->).
    apply is_chr_true in P1. subst c1. cbn [rest] in R1. subst d.
    exists s1. split; [done|]. apply (exec_see (advance 1 (MState 0 (chr "(" :: s1) []))).
    eauto.
  - intros (tl & -> & Hsee).
    apply (exec_see (advance 1 (MState 0 (chr "(" :: tl) []))) in Hsee as (m & Hm).
    exists m. apply exec_seq. eexists. split; [by apply exec_bol|].
    apply exec_seq. eexists. split; [|done].
    apply exec_cls. by exists (chr "("), tl.
Qed.

Lemma is_cross_reference_iff (definition : pystr) :
  is_cross_reference definition = true ↔ cross_reference definition.
Proof.
  unfold is_cross_reference, cross_reference.
  set (d := strip definition).
  destruct (length d <? 120) eqn:Hlen.
  - apply Nat.ltb_lt in Hlen. rewrite !andb_true_r.
    destruct (matched (re_match re_see d)) eqn:H1.
    + apply matched_re_see in H1. split; [|done]. intros _. split; [by left|done].
    + destruct (matched (re_match re_see_paren d)) eqn:H2.
      * apply matched_re_see_paren in H2. split; [|done]. intros _. split; [by right|done].
      * split; [done|]. intros [[Hs|Hs] _].
        -- apply matched_re_see in Hs. congruence.
        -- apply matched_re_see_paren in Hs. congruence.
  - apply Nat.ltb_ge in Hlen. rewrite !andb_false_r.
    split; [done|]. intros [_ ?]. lia.
Qed.

End CrossReference.

(** ** Cleaning keeps the solid characters *)

Section Cleaning.

Lemma solid_not_space c : isspace c = true → solid c = false.
Proof. unfold solid. by intros ->. Qed.

Lemma solid_neq_space c : solid c = true → c ≠ chr " ".
Proof. intros Hc ->. vm_compute in Hc. discriminate. Qed.

Lemma solid_neq_soft_hyphen c : solid c = true → c ∉ soft_hyphen.
Proof.
  intros Hc Hin. apply list_elem_of_singleton in Hin as ->.
  vm_compute in Hc. discriminate.
Qed.

Lemma elem_of_filter_solid (f : pystr → pystr) s c :
  List.filter solid (f s) = List.filter solid s →
  c ∈ s → solid c = true → c ∈ f s.
Proof.
  intros Hf Hc Hs.
  assert (c ∈ List.filter solid (f s)) as Hin
    by (rewrite Hf; by apply elem_of_filter_bool).
  by apply elem_of_filter_bool in Hin as [? _].
Qed.

Lemma strip_solid s c : c ∈ s → solid c = true → c ∈ strip s.
Proof. apply elem_of_filter_solid, strip_filter, solid_not_space. Qed.

Lemma sub_ws_go_solid in_run s c :
  c ∈ s → solid c = true → c ∈ sub_ws_go in_run s.
Proof.
  revert in_run. induction s as [|x s IH]; intros in_run Hc Hs; [inversion Hc|].
  cbn [sub_ws_go]. apply elem_of_cons in Hc as [->|Hc].
  - destruct (isspace x) eqn:Hx; [|left].
    apply solid_not_space in Hx. congruence.
  - destruct (isspace x); [destruct in_run|]; try right; by apply IH.
Qed.

Lemma startswith_app pre s : startswith pre s = true → ∃ tl, s = pre ++ tl.
Proof.
  revert s. induction pre as [|a pre IH]; intros s; [by exists s|].
  destruct s as [|b s]; [done|]. cbn [startswith].
  rewrite andb_true_iff, N.eqb_eq. intros [-> Hs].
  destruct (IH _ Hs) as [tl ->]. by exists tl.
Qed.

(** [replace] removes only characters of [old]. *)
Lemma replace_go_keeps old new skip s c :
  old ≠ [] → c ∉ old →
  Forall (λ x, x ∈ old) (take skip s) →
  c ∈ s → c ∈ replace_go old new skip s.
Proof.
  intros Hold Hc. revert skip.
  induction s as [|x s IH]; intros skip Hskip Hin; [inversion Hin|].
  cbn [replace_go]. destruct skip as [|k].
  - destruct (startswith old (x :: s)) eqn:Hsw.
    + apply startswith_app in Hsw as [tl Htl].
      destruct old as [|a old']; [done|]. injection Htl as -> ->.
      apply elem_of_app. right. apply elem_of_cons in Hin as [->|Hin].
      { exfalso. apply Hc. left. }
      apply IH; [|done].
      replace (length (a :: old') - 1) with (length old') by (simpl; lia).
      rewrite take_app_length.
      apply Forall_forall. intros y Hy. by right.
    + apply elem_of_cons in Hin as [->|Hin]; [left|right].
      apply IH; [|done]. rewrite take_0. constructor.
  - cbn [take] in Hskip. apply Forall_cons in Hskip as [Hx Hk].
    apply elem_of_cons in Hin as [->|Hin]; [done|]. by apply IH.
Qed.

Lemma replace_keeps old new s c :
  old ≠ [] → c ∉ old → c ∈ s → c ∈ replace old new s.
Proof.
  intros. by apply replace_go_keeps.
Qed.

Lemma clean_definition_solid s c :
  c ∈ s → solid c = true → c ∈ clean_definition s.
Proof.
  intros Hc Hs. unfold clean_definition.
  apply replace_keeps; [done| |].
  { intros Hin. apply solid_neq_space in Hs.
    change (py "  ") with [chr " "; chr " "] in Hin.
    repeat (apply elem_of_cons in Hin as [?|Hin]; [done|]). inversion Hin. }
  pose proof (solid_neq_soft_hyphen c Hs).
  do 2 (apply replace_keeps; [done|done|]).
  apply strip_solid; [|done]. by apply sub_ws_go_solid.
Qed.

End Cleaning.

(** ** Cleaning twice

    Without soft hyphens [clean_definition] is the normalization of
    whitespace, which is idempotent; the soft hyphens are what the worked
    input of C8 needs. *)

Section CleaningTwice.

Lemma sub_ws_go_spaced in_run s :
  spaced (sub_ws_go in_run s)
  ∧ (in_run = true → ∀ d tl, sub_ws_go in_run s = d :: tl → isspace d = false).
Proof.
  revert in_run. induction s as [|c s IH]; intros in_run; [by split|].
  cbn [sub_ws_go]. destruct (isspace c) eqn:Hc.
  - destruct in_run; [apply IH|].
    destruct (IH true) as [Hsp Hhd]. split; [|done].
    cbn [spaced]. split; [|done]. intros _. split; [done|].
    destruct (sub_ws_go true s) as [|d tl] eqn:Hs; [done|]. by apply (Hhd eq_refl d tl).
  - destruct (IH false) as [Hsp _]. split.
    + cbn [spaced]. split; [|done]. intros Hc'. congruence.
    + intros _ d tl [= <- _]. done.
Qed.

Lemma sub_ws_go_head s d tl :
  s = d :: tl → isspace d = false → sub_ws_go true s = sub_ws_go false s.
Proof. intros -> Hd. cbn [sub_ws_go]. by rewrite Hd. Qed.

Lemma spaced_sub_ws u : spaced u → sub_ws u = u.
Proof.
  unfold sub_ws. induction u as [|c tl IH]; [done|].
  cbn [spaced sub_ws_go]. intros [Hc Htl]. destruct (isspace c) eqn:Hsp.
  - destruct (Hc eq_refl) as [-> Hnext]. f_equal.
    destruct tl as [|d tl']; [done|].
    rewrite (sub_ws_go_head _ d tl') by done. by apply IH.
  - f_equal. by apply IH.
Qed.

Lemma spaced_lstrip_by p u : spaced u → spaced (lstrip_by p u).
Proof.
  induction u as [|c tl IH]; [done|]. cbn [lstrip_by]. intros Hu.
  destruct (p c); [|done]. apply IH. by destruct Hu.
Qed.

Lemma spaced_prefix u k : spaced (u ++ k) → spaced u.
Proof.
  induction u as [|c tl IH]; [done|]. rewrite <- app_comm_cons.
  cbn [spaced]. intros [Hc Htl]. split; [|by apply IH].
  intros Hsp. destruct (Hc Hsp) as [-> Hnext]. split; [done|].
  by destruct tl.
Qed.

Lemma spaced_strip u : spaced u → spaced (strip u).
Proof.
  intros Hu. unfold strip.
  destruct (rstrip_by_prefix isspace (lstrip_by isspace u)) as [k Hk].
  apply (spaced_prefix _ k). rewrite <- Hk. by apply spaced_lstrip_by.
Qed.

Lemma spaced_replace u : spaced u → replace (py "  ") (py " ") u = u.
Proof.
  unfold replace. induction u as [|c tl IH]; [done|].
  cbn [spaced]. intros [Hc Htl]. cbn [replace_go].
  destruct (startswith (py "  ") (c :: tl)) eqn:Hsw.
  - exfalso. apply startswith_app in Hsw as [tl' Heq].
    injection Heq as -> ->. by destruct (Hc eq_refl) as [_ Hnext].
  - f_equal. by apply IH.
Qed.

Lemma replace_absent a u : a ∉ u → replace [a] [] u = u.
Proof.
  unfold replace. induction u as [|c tl IH]; [done|]. intros Ha.
  apply not_elem_of_cons in Ha as [Hne Ha]. cbn [replace_go startswith].
  destruct (N.eqb_spec a c) as [->|_]; [done|].
  cbn [andb]. f_equal. by apply IH.
Qed.

Lemma elem_of_sub_ws_go in_run s c :
  c ∈ sub_ws_go in_run s → c ∈ s ∨ c = chr " ".
Proof.
  revert in_run. induction s as [|x s IH]; intros in_run; [intros H; inversion H|].
  cbn [sub_ws_go]. destruct (isspace x); [destruct in_run|].
  - intros H. destruct (IH _ H); [left; by right|by right].
  - intros H. apply elem_of_cons in H as [->|H]; [by right|].
    destruct (IH _ H); [left; by right|by right].
  - intros H. apply elem_of_cons in H as [->|H]; [left; left|].
    destruct (IH _ H); [left; by right|by right].
Qed.

Lemma elem_of_strip s c : c ∈ strip s → c ∈ s.
Proof.
  unfold strip. intros Hc.
  destruct (rstrip_by_prefix isspace (lstrip_by isspace s)) as [k Hk].
  destruct (lstrip_by_suffix isspace s) as [k' Hk'].
  rewrite Hk', Hk. rewrite !elem_of_app. auto.
Qed.

(** Normalizing whitespace twice is normalizing it once. *)
Lemma normalize_idemp s : strip (sub_ws (strip (sub_ws s))) = strip (sub_ws s).
Proof.
  rewrite (spaced_sub_ws (strip (sub_ws s))); [apply strip_idemp|].
  apply spaced_strip, sub_ws_go_spaced.
Qed.

Lemma clean_definition_normalize s :
  (∀ c, c ∈ soft_hyphen → c ∉ s) → clean_definition s = strip (sub_ws s).
Proof.
  intros Hs. unfold clean_definition, soft_hyphen.
  assert (Habs : 0xAD%N ∉ strip (sub_ws s)).
  { intros Hin. apply elem_of_strip, elem_of_sub_ws_go in Hin as [Hin|Hin].
    - apply (Hs 0xAD%N); [left|done].
    - discriminate Hin. }
  do 2 rewrite (replace_absent _ (strip (sub_ws s))) by done.
  apply spaced_replace, spaced_strip, sub_ws_go_spaced.
Qed.

(** On a text without soft hyphen, cleaning twice is cleaning once. *)
Lemma clean_definition_idemp_without_soft_hyphen s :
  (∀ c, c ∈ soft_hyphen → c ∉ s) →
  clean_definition (clean_definition s) = clean_definition s.
Proof.
  intros Hs. rewrite (clean_definition_normalize s Hs).
  rewrite clean_definition_normalize; [apply normalize_idemp|].
  intros c Hc Hin. apply elem_of_strip, elem_of_sub_ws_go in Hin as [Hin|Hin].
  - by apply (Hs c).
  - subst c. apply list_elem_of_singleton in Hc. discriminate Hc.
Qed.

End CleaningTwice.

(** ** Heading detector: what follows the detected term *)

Section Heading.
Context {ucd : UnicodeData}.

Lemma ascii_solid c : (33 ≤ c ≤ 126)%N → Solid c.
Proof.
  intros [Hlo Hhi]. unfold Solid, solid, isspace, in_range.
  apply andb_true_intro. split; apply negb_true_iff.
  - repeat (apply orb_false_intro);
      try (apply andb_false_iff; rewrite !N.leb_gt; lia);
      apply N.eqb_neq; lia.
  - apply N.eqb_neq. lia.
Qed.

Lemma in_range_bounds lo hi c : in_range lo hi c = true → (lo ≤ c ≤ hi)%N.
Proof. unfold in_range. rewrite andb_true_iff, !N.leb_le. done. Qed.

Lemma upper_AZ_solid c : upper_AZ c = true → Solid c.
Proof.
  intros Hc. apply in_range_bounds in Hc. apply ascii_solid.
  change (chr "A") with 65%N in Hc. change (chr "Z") with 90%N in Hc. lia.
Qed.

Lemma is_chr_solid a c : Solid (chr a) → is_chr a c = true → Solid c.
Proof. intros Ha Hc. apply is_chr_true in Hc. by subst. Qed.

Lemma cls_Ss_solid c : cls_Ss c = true → Solid c.
Proof. intros Hc. by apply cls_Ss_true in Hc as [->| ->]. Qed.

Lemma def_start_solid c : def_start c = true → Solid c.
Proof.
  unfold def_start. rewrite !orb_true_iff. intros [[Hc|Hc]|Hc].
  - by apply upper_AZ_solid.
  - by apply (is_chr_solid "'").
  - by apply (is_chr_solid "034").
Qed.

Lemma lparen_solid c : is_chr "(" c = true → Solid c.
Proof. by apply is_chr_solid. Qed.

Lemma remainder_solid (line g w2 s' : pystr) (n : nat) :
  line = g ++ w2 ++ s' → n ≤ length g → Exists Solid w2 →
  ∃ c, c ∈ drop n line ∧ solid c = true.
Proof.
  intros -> Hn Hw. apply Exists_exists in Hw as (c & Hc & Hs).
  exists c. split; [|done]. rewrite drop_app_le by done.
  rewrite !elem_of_app. right. by left.
Qed.

Lemma term_of_length m : length (term_of m) ≤ length (group 1 m).
Proof.
  unfold term_of. etrans; [apply rstrip_length|]. apply strip_length.
Qed.

(** Patterns 1, 1b, 3 and 4 *)
Lemma lower_term_remainder tail line m :
  no_group 1 tail → forces Solid tail →
  re_match (Bol >> re_lower_term >> tail) line = Some m →
  ∃ c, c ∈ drop (length (term_of m)) line ∧ solid c = true.
Proof.
  intros Hno Hf Hm. unfold re_lower_term in Hm.
  destruct (match_group1 Solid _ _ _ _ Hno Hm) as (w2 & s' & Hline & Hw2).
  eapply remainder_solid; [done|apply term_of_length|by apply Hw2].
Qed.

Lemma pattern1_remainder line t :
  pattern1 line = Some t → ∃ c, c ∈ drop (length t) line ∧ solid c = true.
Proof.
  unfold pattern1. destruct (re_match re_pattern1 line) as [m|] eqn:Hm; [|done].
  destruct (_ && _); [|done]. destruct (_is_valid_term _); [|done].
  intros [= <-]. eapply lower_term_remainder; [| |exact Hm].
  - cbn. repeat split; lia.
  - cbn [forces]. right. right. left. apply def_start_solid.
Qed.

Lemma pattern1b_remainder line t :
  pattern1b line = Some t → ∃ c, c ∈ drop (length t) line ∧ solid c = true.
Proof.
  unfold pattern1b. destruct (re_match re_pattern1b line) as [m|] eqn:Hm; [|done].
  destruct (matched _); [|done]. destruct (_ && _); [|done].
  intros [= <-]. eapply lower_term_remainder; [| |exact Hm].
  - cbn. repeat split; lia.
  - cbn [forces]. right. apply lparen_solid.
Qed.

Lemma pattern3_remainder line t :
  pattern3 line = Some t → ∃ c, c ∈ drop (length t) line ∧ solid c = true.
Proof.
  unfold pattern3. destruct (re_match re_pattern3 line) as [m|] eqn:Hm; [|done].
  destruct (_ && _); [|done].
  intros [= <-]. eapply lower_term_remainder; [| |exact Hm].
  - cbn. repeat split; lia.
  - cbn [forces]. right. left. apply cls_Ss_solid.
Qed.

Lemma pattern4_remainder line t :
  pattern4 line = Some t → ∃ c, c ∈ drop (length t) line ∧ solid c = true.
Proof.
  unfold pattern4. destruct (re_match re_pattern4 line) as [m|] eqn:Hm; [|done].
  destruct (_ && _); [|done].
  intros [= <-]. eapply lower_term_remainder; [| |exact Hm].
  - cbn. repeat split; lia.
  - cbn [forces]. right. left. apply lparen_solid.
Qed.

(** Pattern 2: the term is rebuilt from the words of group 1. *)
Lemma trim_trailing_suffix rparts : trim_trailing rparts `suffix_of` rparts.
Proof.
  induction rparts as [|w more IH]; [done|]. cbn [trim_trailing].
  destruct more as [|w' more']; [done|].
  destruct (in_set _ _); [|done]. by apply suffix_cons_r.
Qed.

Lemma trimmed_term_length g :
  length (join (py " ") (reverse (trim_trailing (reverse (split (strip g))))))
  ≤ length g.
Proof.
  destruct (trim_trailing_suffix (reverse (split (strip g)))) as [k Hk].
  apply (f_equal reverse) in Hk.
  rewrite reverse_involutive, reverse_app in Hk.
  etrans; [apply (join_app_length _ (reverse k))|]. rewrite <- Hk.
  etrans; [apply split_join_length|]. apply strip_length.
Qed.

Lemma pattern2_remainder line t :
  pattern2 line = Some t → ∃ c, c ∈ drop (length t) line ∧ solid c = true.
Proof.
  unfold pattern2. destruct (re_match re_pattern2 line) as [m|] eqn:Hm; [|done].
  destruct (_ && _); [|done]. destruct (negb _); [|done].
  destruct (_is_valid_term _); [|done].
  intros [= <-]. unfold re_pattern2 in Hm.
  assert (Hno : no_group 1
            (plus isspace >> Grp 2 (Cls upper_AZ >> Cls lower_az >> star dot)))
    by (cbn; repeat split; lia).
  destruct (match_group1 Solid _ _ _ _ Hno Hm) as (w2 & s' & Hline & Hw2).
  eapply remainder_solid; [done|apply trimmed_term_length|].
  apply Hw2. cbn [forces]. right. left. apply upper_AZ_solid.
Qed.

(** Whatever pattern detects a heading, a solid character follows the
    term on the line. *)
Lemma heading_remainder first_line t :
  detect_entry_heading first_line = Some t →
  ∃ c, c ∈ drop (length t) (strip first_line) ∧ solid c = true.
Proof.
  unfold detect_entry_heading. destruct (length _ <? 5); [done|].
  unfold or_else.
  destruct (pattern1 _) eqn:H1; [intros [= <-]; by apply pattern1_remainder|].
  destruct (pattern1b _) eqn:H1b; [intros [= <-]; by apply pattern1b_remainder|].
  destruct (pattern2 _) eqn:H2; [intros [= <-]; by apply pattern2_remainder|].
  destruct (pattern3 _) eqn:H3; [intros [= <-]; by apply pattern3_remainder|].
  apply pattern4_remainder.
Qed.

End Heading.

(** ** Entry accumulator *)

Section Accumulator.
Context {ucd : UnicodeData}.

Lemma foldl_invariant {A B} (I : A → Prop) (f : A → B → A) (l : list B) (a : A) :
  I a → (∀ a b, I a → I (f a b)) → I (foldl f a l).
Proof.
  intros Ha Hf. revert a Ha. induction l as [|b l IH]; intros a Ha; [done|].
  simpl. apply IH. by apply Hf.
Qed.

(** Whatever holds initially and is kept by the body of the block loop
    holds when the pages are exhausted. *)
Lemma run_blocks_ind (I : acc → Prop) (doc : list (list block)) :
  I acc_init → (∀ p a b, I a → I (process_block p a b)) → I (run_blocks doc).
Proof.
  intros H0 Hstep. unfold run_blocks. apply foldl_invariant; [done|].
  intros a p Ha. unfold process_page. apply foldl_invariant; [done|].
  intros a' b. apply Hstep.
Qed.

(** The body of the loop leaves the entries as they are or saves the
    open entry. *)
Lemma process_block_entries p a b :
  entries (process_block p a b) = entries a
  ∨ entries (process_block p a b) = finalize a.
Proof.
  unfold process_block.
  destruct (negb (type b =? 0)%Z); [by left|].
  destruct (negb (nonempty (strip (get_block_text b)))); [by left|].
  destruct (negb (nonempty (get_block_first_line b))); [by left|].
  destruct (is_running_header _); [by left|].
  destruct (is_page_number _); [by left|].
  destruct (truthy _); [by right|].
  destruct (current_term a); by left.
Qed.

Lemma finalize_classified a :
  entries_classified (entries a) → entries_classified (finalize a).
Proof.
  intros Ha. unfold finalize.
  destruct (_ && _); [|done]. destruct (nonempty _); [|done].
  intros e He. apply elem_of_app in He as [He|He]; [by apply Ha|].
  by apply list_elem_of_singleton in He as ->.
Qed.

Lemma run_blocks_classified doc : entries_classified (entries (run_blocks doc)).
Proof.
  apply run_blocks_ind.
  - intros e He. inversion He.
  - intros p a b Ha.
    destruct (process_block_entries p a b) as [-> | ->]; [done|].
    by apply finalize_classified.
Qed.

(** C5, as amended: an entry of the extraction is a cross-reference
    exactly when its stripped definition begins with See or see, or with
    an opening parenthesis and See or see, followed by whitespace, and
    is under 120 characters long. *)
Theorem cross_ref_iff (doc : list (list block)) (e : entry) :
  e ∈ extract_entries doc →
  (is_cross_ref e = true ↔ cross_reference (definition e)).
Proof.
  intros He. rewrite <- is_cross_reference_iff.
  rewrite (finalize_classified _ (run_blocks_classified doc) e He). done.
Qed.

Lemma get_block_first_line_stripped b :
  strip (get_block_first_line b) = get_block_first_line b.
Proof.
  unfold get_block_first_line. destruct (negb _); [done|].
  destruct (lines b); [done|]. apply strip_idemp.
Qed.

Lemma has_substance_app_l ls1 ls2 : has_substance ls1 → has_substance (ls1 ++ ls2).
Proof.
  intros (l & c & Hl & Hc & Hs). exists l, c. rewrite elem_of_app. auto.
Qed.

Lemma process_block_open p a b : open_entry_ok a → open_entry_ok (process_block p a b).
Proof.
  intros Ha. unfold process_block.
  destruct (negb (type b =? 0)%Z); [done|].
  destruct (negb (nonempty (strip (get_block_text b)))); [done|].
  destruct (negb (nonempty (get_block_first_line b))); [done|].
  destruct (is_running_header _); [done|].
  destruct (is_page_number _); [done|].
  destruct (detect_entry_heading (get_block_first_line b)) as [d|] eqn:Hd.
  - destruct (truthy (Some d)) eqn:Ht.
    + intros t [= <-]. cbn [truthy] in Ht. apply nonempty_true in Ht.
      split; [done|]. cbn [current_definition_lines].
      change (default [] (Some d)) with d.
      apply has_substance_app_l.
      apply heading_remainder in Hd as (c & Hc & Hs).
      rewrite get_block_first_line_stripped in Hc.
      assert (Hin : c ∈ strip (drop (length d) (get_block_first_line b)))
        by by apply strip_solid.
      destruct (strip (drop (length d) (get_block_first_line b))) as [|x r] eqn:Hr.
      { inversion Hin. }
      cbn [nonempty]. exists (x :: r), c. split; [left|done].
    + destruct (current_term a) as [t0|] eqn:Hc; [|done].
      intros t [= <-]. destruct (Ha t0 Hc) as [Hne Hsub].
      split; [done|]. by apply has_substance_app_l.
  - cbn [truthy]. destruct (current_term a) as [t0|] eqn:Hc; [|done].
    intros t [= <-]. destruct (Ha t0 Hc) as [Hne Hsub].
    split; [done|]. by apply has_substance_app_l.
Qed.

Lemma run_blocks_open doc : open_entry_ok (run_blocks doc).
Proof. apply run_blocks_ind; [done|]. intros p a b. apply process_block_open. Qed.

Lemma clean_definition_substance lines :
  has_substance lines → clean_definition (join (py " ") lines) ≠ [].
Proof.
  intros (l & c & Hl & Hc & Hs) Hnil.
  assert (Hin : c ∈ clean_definition (join (py " ") lines)).
  { apply clean_definition_solid; [|done]. by apply (elem_of_join _ _ l). }
  rewrite Hnil in Hin. inversion Hin.
Qed.

(** C9: when the blocks are exhausted with an entry open, the extraction
    is made of the entries saved so far followed by the open entry,
    finalized: its buffered lines joined and cleaned, a non-empty text. *)
Theorem open_entry_finalized (doc : list (list block)) (t : pystr) :
  collecting (run_blocks doc) t →
  let a := run_blocks doc in
  let d := clean_definition (join (py " ") (current_definition_lines a)) in
  d ≠ []
  ∧ extract_entries doc =
      entries a ++ [Entry t d (current_page a + 1) (is_cross_reference d)].
Proof.
  intros Ht. cbv zeta. unfold collecting in Ht.
  destruct (run_blocks_open doc t Ht) as [Hne Hsub].
  pose proof (clean_definition_substance _ Hsub) as Hd.
  split; [done|]. unfold extract_entries, finalize.
  generalize dependent (run_blocks doc). intros a Ht Hsub Hd.
  rewrite Ht. cbn [truthy]. change (default [] (Some t)) with t.
  apply nonempty_true in Hne, Hd. rewrite Hne, Hd.
  destruct Hsub as (l & c & Hl & _).
  destruct (current_definition_lines a) as [|l0 ls] eqn:Hlines; [inversion Hl|].
  reflexivity.
Qed.

(** The term that the body of the loop leaves open, for a block that
    reaches the detector. *)
Lemma process_block_term p a b :
  reaches_detection b = true →
  current_term (process_block p a b) =
    let detected := detect_entry_heading (get_block_first_line b) in
    if truthy detected then detected else current_term a.
Proof.
  unfold reaches_detection, process_block.
  rewrite !andb_true_iff. intros ((((-> & ->) & ->) & H4) & H5).
  apply negb_true_iff in H4, H5. rewrite H4, H5. cbn [negb].
  cbv zeta. destruct (truthy _); [reflexivity|].
  destruct (current_term a) eqn:Hc; [reflexivity|exact Hc].
Qed.

Lemma first_line_spans_eq b1 b2 :
  type b1 = 0%Z → type b2 = 0%Z →
  first_line_spans b1 = first_line_spans b2 →
  get_block_first_line b1 = get_block_first_line b2.
Proof.
  unfold first_line_spans, get_block_first_line. intros -> -> Hl.
  cbn [Z.eqb negb].
  destruct (lines b1) as [|l1 ?], (lines b2) as [|l2 ?]; try done.
  cbn in Hl. by injection Hl as ->.
Qed.

(** C1: two text blocks with the same first line get the same answer from
    the heading detector, whatever their other lines; and when both reach
    the detector, the accumulator is left with the same open term. *)
Theorem heading_first_line_only (b1 b2 : block) :
  type b1 = 0%Z → type b2 = 0%Z →
  first_line_spans b1 = first_line_spans b2 →
  detect_entry_heading (get_block_first_line b1)
  = detect_entry_heading (get_block_first_line b2)
  ∧ ∀ p a, reaches_detection b1 = true → reaches_detection b2 = true →
           current_term (process_block p a b1) = current_term (process_block p a b2).
Proof.
  intros H1 H2 Hl. pose proof (first_line_spans_eq _ _ H1 H2 Hl) as Heq.
  split; [by rewrite Heq|].
  intros p a R1 R2. rewrite !process_block_term by done. by rewrite Heq.
Qed.

End Accumulator.

(** ** Post-processor *)

Section PostProcessor.
Context {ucd : UnicodeData}.

Lemma post_process_entries_snoc refs r σ :
  post_process_entries (refs ++ [r]) σ
  = post_process_step (post_process_entries refs σ) r.
Proof. unfold post_process_entries. by rewrite foldl_app. Qed.

(** The four ways through the body of the loop. *)
Lemma step_dangling st r : heap st !! r = None → post_process_step st r = st.
Proof. unfold post_process_step. by intros ->. Qed.

Lemma step_dropped st r e :
  heap st !! r = Some e → admissible e = false → post_process_step st r = st.
Proof.
  unfold post_process_step, admissible. intros -> Hadm.
  destruct (length (term e) <? 2); [done|].
  destruct ((length (definition e) <? 10) && negb (is_cross_ref e)); [done|].
  destruct (endswith _ _ || endswith _ _ || endswith _ _); [done|].
  destruct (60 <? length (term e)); [done|].
  destruct ((length (split (term e)) =? 1) && in_set _ _); [done|].
  destruct (_is_valid_term (term e)); [done|]. done.
Qed.

Lemma step_admitted st r e :
  heap st !! r = Some e → admissible e = true →
  post_process_step st r =
    if bool_decide (lower (term e) ∈ seen_terms st)
    then PP (cleaned st) (seen_terms st)
            (merge_into (reverse (cleaned st)) (lower (term e)) (definition e) (heap st))
    else PP (cleaned st ++ [r]) ({[lower (term e)]} ∪ seen_terms st) (heap st).
Proof.
  unfold post_process_step, admissible. intros -> Hadm.
  destruct (length (term e) <? 2); [done|].
  destruct ((length (definition e) <? 10) && negb (is_cross_ref e)); [done|].
  destruct (endswith _ _ || endswith _ _ || endswith _ _); [done|].
  destruct (60 <? length (term e)); [done|].
  destruct ((length (split (term e)) =? 1) && in_set _ _); [done|].
  destruct (_is_valid_term (term e)); [|done]. done.
Qed.

(** The search of [merge_into] stops at the one entry with the term. *)
Lemma merge_into_found (l : list ref) (x d : pystr) (σ : gmap ref entry) p ep :
  p ∈ l → σ !! p = Some ep → lower (term ep) = x →
  (∀ q eq, q ∈ l → σ !! q = Some eq → lower (term eq) = x → q = p) →
  merge_into l x d σ = <[p := append_definition ep (py " " ++ d)]> σ.
Proof.
  intros Hp Hep Hx Huniq. induction l as [|prev more IH]; [inversion Hp|].
  cbn [merge_into]. destruct (decide (prev = p)) as [->|Hne].
  - rewrite Hep. by rewrite bool_decide_eq_true_2.
  - apply elem_of_cons in Hp as [->|Hp]; [done|].
    assert (IH' : merge_into more x d σ = <[p := append_definition ep (py " " ++ d)]> σ).
    { apply IH; [done|]. intros q eq Hq. apply Huniq. by right. }
    destruct (σ !! prev) as [e'|] eqn:He'; [|done].
    rewrite bool_decide_eq_false_2; [done|].
    intros Hx'. apply Hne. apply (Huniq prev e'); [left|done|done].
Qed.

Lemma pp_inv_init σ : pp_inv (PP [] ∅ σ).
Proof.
  split; [constructor|]. split; [intros r Hr; inversion Hr|].
  split; [intros x Hx; set_solver|]. intros r1 r2 e1 e2 Hr. inversion Hr.
Qed.

(** A merge, in a state that satisfies the invariant. *)
Lemma merge_step st r e :
  pp_inv st → heap st !! r = Some e → admissible e = true →
  lower (term e) ∈ seen_terms st →
  ∃ p ep, p ∈ cleaned st ∧ heap st !! p = Some ep
          ∧ lower (term ep) = lower (term e)
          ∧ post_process_step st r =
              PP (cleaned st) (seen_terms st) (<[p := merged ep e]> (heap st)).
Proof.
  intros (Hnd & Hin & Hseen & Huniq) He Hadm Hx.
  destruct (Hseen _ Hx) as (p & ep & Hp & Hep & Hterm).
  exists p, ep. do 3 (split; [done|]).
  rewrite (step_admitted _ _ _ He Hadm), bool_decide_eq_true_2 by done.
  f_equal. apply merge_into_found; [by apply elem_of_reverse|done|done|].
  intros q eq Hq Heq Hxq. rewrite elem_of_reverse in Hq.
  apply (Huniq q p eq ep); try done. by rewrite Hxq.
Qed.

Lemma pp_inv_step st r : pp_inv st → pp_inv (post_process_step st r).
Proof.
  intros Hinv. destruct (heap st !! r) as [e|] eqn:He;
    [|by rewrite step_dangling].
  destruct (admissible e) eqn:Hadm; [|by rewrite (step_dropped _ _ e)].
  destruct (decide (lower (term e) ∈ seen_terms st)) as [Hx|Hx].
  - destruct (merge_step _ _ _ Hinv He Hadm Hx) as (p & ep & Hp & Hep & Hterm & ->).
    destruct Hinv as (Hnd & Hin & Hseen & Huniq).
    assert (Hlook : ∀ q eq, (<[p := merged ep e]> (heap st)) !! q = Some eq →
                    ∃ eq0, heap st !! q = Some eq0 ∧ term eq = term eq0).
    { intros q eq. destruct (decide (p = q)) as [<-|Hne].
      - rewrite lookup_insert_eq. intros [= <-]. by exists ep.
      - rewrite lookup_insert_ne by done. intros ?. by exists eq. }
    assert (Hback : ∀ q eq0, heap st !! q = Some eq0 →
                    ∃ eq, (<[p := merged ep e]> (heap st)) !! q = Some eq
                          ∧ term eq = term eq0).
    { intros q eq0. destruct (decide (p = q)) as [<-|Hne].
      - rewrite lookup_insert_eq. intros ?. exists (merged ep e). by simplify_eq.
      - rewrite lookup_insert_ne by done. intros ?. by exists eq0. }
    split; [done|]. cbn [cleaned seen_terms heap]. split; [|split].
    + intros q Hq. destruct (Hin q Hq) as (eq0 & H0 & Hs).
      destruct (Hback _ _ H0) as (eq & H1 & Ht). exists eq. by rewrite Ht.
    + intros x Hxs. destruct (Hseen x Hxs) as (q & eq0 & Hq & H0 & Ht0).
      destruct (Hback _ _ H0) as (eq & H1 & Ht). exists q, eq.
      cbn [cleaned heap]. by rewrite Ht.
    + intros r1 r2 e1 e2 Hr1 Hr2 H1 H2 Ht.
      destruct (Hlook _ _ H1) as (e1' & H1' & Ht1).
      destruct (Hlook _ _ H2) as (e2' & H2' & Ht2).
      apply (Huniq r1 r2 e1' e2'); try done. by rewrite <- Ht1, <- Ht2.
  - rewrite (step_admitted _ _ _ He Hadm), bool_decide_eq_false_2 by done.
    destruct Hinv as (Hnd & Hin & Hseen & Huniq).
    assert (Hfresh : r ∉ cleaned st).
    { intros Hr. destruct (Hin r Hr) as (e' & He' & Hs). by simplify_eq. }
    split; [|split; [|split]]; cbn [cleaned seen_terms heap].
    + apply NoDup_app. split; [done|]. split; [|apply NoDup_singleton].
      intros q Hq Hq'. apply list_elem_of_singleton in Hq'. by subst.
    + intros q Hq. apply elem_of_app in Hq as [Hq|Hq].
      * destruct (Hin q Hq) as (eq & H0 & Hs). exists eq. split; [done|set_solver].
      * apply list_elem_of_singleton in Hq as ->. exists e. split; [done|set_solver].
    + intros x Hxs. apply elem_of_union in Hxs as [Hxs|Hxs].
      * apply elem_of_singleton in Hxs as ->. exists r, e.
        cbn [cleaned heap]. rewrite elem_of_app, list_elem_of_singleton. auto.
      * destruct (Hseen x Hxs) as (q & eq & Hq & H0 & Ht). exists q, eq.
        cbn [cleaned heap]. rewrite elem_of_app. auto.
    + intros r1 r2 e1 e2 Hr1 Hr2 H1 H2 Ht.
      apply elem_of_app in Hr1 as [Hr1|Hr1], Hr2 as [Hr2|Hr2];
        rewrite ?list_elem_of_singleton in *; subst.
      * by apply (Huniq r1 r2 e1 e2).
      * destruct (Hin r1 Hr1) as (e' & He' & Hs). simplify_eq.
        exfalso. apply Hx. by rewrite <- Ht.
      * destruct (Hin r2 Hr2) as (e' & He' & Hs). simplify_eq.
        exfalso. apply Hx. by rewrite Ht.
      * done.
Qed.

Lemma post_process_inv refs σ : pp_inv (post_process_entries refs σ).
Proof.
  unfold post_process_entries. apply foldl_invariant; [apply pp_inv_init|].
  intros st r. apply pp_inv_step.
Qed.

Lemma pp_inv_unique st : pp_inv st → unique_terms st.
Proof.
  intros (Hnd & _ & _ & Huniq) i j r1 r2 e1 e2 Hi Hj H1 H2 Ht.
  assert (r1 = r2) as ->.
  { apply (Huniq r1 r2 e1 e2); try done; by eapply list_elem_of_lookup_2. }
  by apply (NoDup_lookup (cleaned st) i j r2).
Qed.

Lemma pp_inv_accepted st x : pp_inv st → accepted st x ↔ x ∈ seen_terms st.
Proof.
  intros (_ & Hin & Hseen & _). split; [|apply Hseen].
  intros (p & ep & Hp & Hep & <-). destruct (Hin p Hp) as (e & He & Hs).
  by simplify_eq.
Qed.

Lemma pp_inv_earliest st p ep :
  pp_inv st → p ∈ cleaned st → heap st !! p = Some ep →
  ∃ i, earliest_accepted st (lower (term ep)) i p ep.
Proof.
  intros Hinv Hp Hep. apply list_elem_of_lookup_1 in Hp as [i Hi].
  exists i. do 3 (split; [done|]).
  intros j q eq Hj Hq Heq Ht.
  assert (j = i) by by apply (pp_inv_unique st Hinv j i q p eq ep). lia.
Qed.

Lemma post_process_sublist refs σ : cleaned (post_process_entries refs σ) `sublist_of` refs.
Proof.
  induction refs as [|r refs IH] using rev_ind; [done|].
  rewrite post_process_entries_snoc.
  set (st := post_process_entries refs σ) in *.
  destruct (heap st !! r) as [e|] eqn:He.
  - destruct (admissible e) eqn:Hadm.
    + rewrite (step_admitted _ _ _ He Hadm). case_bool_decide; cbn [cleaned].
      * by apply sublist_inserts_r.
      * by apply sublist_app.
    + rewrite (step_dropped _ _ _ He Hadm). by apply sublist_inserts_r.
  - rewrite step_dangling by done. by apply sublist_inserts_r.
Qed.

(** C3, as amended: the accepted entries have pairwise different
    lowercased terms and stand in the order of the input; and the next
    entry, when it passes the checks that precede the test for duplicates,
    is merged into the earliest (the only) accepted entry with its
    lowercased term, whose definition gets one space and the definition of
    the duplicate appended while the accepted list stays as it is, or else,
    when its term is new, goes to the end of the accepted list; an entry
    that fails one of the checks changes nothing. *)
Theorem post_process_unique_merge (σ : gmap ref entry) (refs : list ref) :
  let st := post_process_entries refs σ in
  unique_terms st
  ∧ cleaned st `sublist_of` refs
  ∧ ∀ r e, heap st !! r = Some e →
      let st' := post_process_entries (refs ++ [r]) σ in
      (admissible e = true → accepted st (lower (term e)) →
         ∃ i p ep, earliest_accepted st (lower (term e)) i p ep
                   ∧ heap st' = <[p := merged ep e]> (heap st)
                   ∧ cleaned st' = cleaned st)
      ∧ (admissible e = true → ¬ accepted st (lower (term e)) →
         cleaned st' = cleaned st ++ [r] ∧ heap st' = heap st)
      ∧ (admissible e = false → st' = st).
Proof.
  cbv zeta. pose proof (post_process_inv refs σ) as Hinv.
  split; [by apply pp_inv_unique|]. split; [apply post_process_sublist|].
  intros r e He. rewrite post_process_entries_snoc. split; [|split].
  - intros Hadm Hacc. apply pp_inv_accepted in Hacc; [|done].
    destruct (merge_step _ _ _ Hinv He Hadm Hacc) as (p & ep & Hp & Hep & Hterm & ->).
    destruct (pp_inv_earliest _ _ _ Hinv Hp Hep) as [i Hi].
    exists i, p, ep. rewrite <- Hterm. done.
  - intros Hadm Hacc. rewrite pp_inv_accepted in Hacc by done.
    rewrite (step_admitted _ _ _ He Hadm), bool_decide_eq_false_2 by done.
    done.
  - intros Hadm. by apply (step_dropped _ _ e).
Qed.

(** C10: a merge changes the definition of the retained entry, by one
    space and the definition of the duplicate, and nothing else: its term,
    page and cross-reference flag, every other entry of the store and the
    accepted list are as they were. *)
Theorem merge_frame (σ : gmap ref entry) (refs : list ref) (r : ref) (e : entry) :
  let st := post_process_entries refs σ in
  let st' := post_process_step st r in
  heap st !! r = Some e → admissible e = true → accepted st (lower (term e)) →
  ∃ p ep, p ∈ cleaned st ∧ heap st !! p = Some ep
          ∧ lower (term ep) = lower (term e)
          ∧ heap st' !! p =
              Some (Entry (term ep) (definition ep ++ py " " ++ definition e)
                          (page ep) (is_cross_ref ep))
          ∧ (∀ q, q ≠ p → heap st' !! q = heap st !! q)
          ∧ cleaned st' = cleaned st.
Proof.
  cbv zeta. intros He Hadm Hacc.
  pose proof (post_process_inv refs σ) as Hinv.
  apply pp_inv_accepted in Hacc; [|done].
  destruct (merge_step _ _ _ Hinv He Hadm Hacc) as (p & ep & Hp & Hep & Hterm & ->).
  exists p, ep. do 3 (split; [done|]). cbn [heap cleaned].
  split; [apply lookup_insert_eq|]. split; [|done].
  intros q Hq. by apply lookup_insert_ne.
Qed.

End PostProcessor.

(** ** The properties on the worked inputs *)

Lemma heading_first_line_only_witness :
  type mandrake_head = 0%Z ∧ type mandrake_two_lines = 0%Z
  ∧ first_line_spans mandrake_head = first_line_spans mandrake_two_lines
  ∧ (detect_entry_heading (get_block_first_line mandrake_head)
     = detect_entry_heading (get_block_first_line mandrake_two_lines)
     ∧ ∀ p a, reaches_detection mandrake_head = true →
              reaches_detection mandrake_two_lines = true →
              current_term (process_block p a mandrake_head)
              = current_term (process_block p a mandrake_two_lines)).
Proof.
  split; [reflexivity|]. split; [reflexivity|]. split; [reflexivity|].
  apply (heading_first_line_only mandrake_head mandrake_two_lines); reflexivity.
Defined.

Lemma extract_see_doc : extract_entries see_doc = [see_entry].
Proof. vm_compute. reflexivity. Qed.

Lemma extract_aureole_doc : extract_entries aureole_doc = [aureole_entry].
Proof. vm_compute. reflexivity. Qed.

(** C5 fails as worded: SEE in capitals begins with see, letter case apart,
    yet the entry is no cross-reference. *)
Lemma cross_ref_claim_fails :
  ¬ (∀ doc e, e ∈ extract_entries doc →
       (is_cross_ref e = true ↔ claimed_cross_reference (definition e))).
Proof.
  intros H. destruct (H see_doc see_entry) as [_ Hback].
  { rewrite extract_see_doc. left. }
  assert (Hfalse : is_cross_ref see_entry = true); [|discriminate Hfalse].
  apply Hback. split.
  - left. split; [vm_compute; lia | reflexivity].
  - vm_compute. lia.
Qed.

Lemma cross_ref_iff_witness :
  aureole_entry ∈ extract_entries aureole_doc
  ∧ (is_cross_ref aureole_entry = true ↔ cross_reference (definition aureole_entry)).
Proof.
  assert (Hin : aureole_entry ∈ extract_entries aureole_doc).
  { rewrite extract_aureole_doc. left. }
  split; [exact Hin|]. exact (cross_ref_iff aureole_doc aureole_entry Hin).
Defined.

(** C6 fails as worded: the text A. has two characters once stripped, and
    one once the full stop is removed. *)
Lemma running_header_claim_fails :
  ¬ (∀ text, is_running_header text = true ↔ claimed_running_header text).
Proof.
  intros H. destruct (H (py "A.")) as [_ Hback].
  assert (Hfalse : is_running_header (py "A.") = true); [|discriminate Hfalse].
  apply Hback. split; [discriminate|]. split.
  - unfold mostly_uppercase. vm_compute. lia.
  - vm_compute. lia.
Qed.

(** C7 fails as worded: the Arabic-Indic digit three, U+0663, is a digit
    for the pattern and no ASCII digit. *)
Lemma page_number_claim_fails :
  ¬ (∀ text, is_page_number text = true ↔ claimed_page_number text).
Proof.
  intros H. destruct (H [0x663%N]) as [Hforth _].
  destruct (Hforth eq_refl) as [_ Hdigits].
  specialize (Hdigits 0x663%N ltac:(left)). discriminate Hdigits.
Qed.

(** C8: cleaning a soft hyphen, a space and a letter leaves the space in
    front, which a second cleaning strips. *)
Theorem clean_definition_not_idempotent :
  clean_definition (soft_hyphen ++ py " a") = py " a"
  ∧ clean_definition (clean_definition (soft_hyphen ++ py " a")) = py "a".
Proof. split; reflexivity. Qed.

(** The same through the extraction: the definition keeps the space that
    stood before the soft hyphen. *)
Example trailing_hyphen_definition :
  extract_entries trailing_hyphen_doc
  = [Entry (py "mandrake") (py "The mandrake is a charm. ") 9 false].
Proof. vm_compute. reflexivity. Qed.

Lemma open_entry_finalized_witness :
  collecting (run_blocks mandrake_doc) (py "mandrake")
  ∧ let a := run_blocks mandrake_doc in
    let d := clean_definition (join (py " ") (current_definition_lines a)) in
    d ≠ []
    ∧ extract_entries mandrake_doc =
        entries a ++ [Entry (py "mandrake") d (current_page a + 1) (is_cross_reference d)].
Proof.
  assert (Hc : collecting (run_blocks mandrake_doc) (py "mandrake"))
    by (vm_compute; reflexivity).
  split; [exact Hc|]. exact (open_entry_finalized mandrake_doc (py "mandrake") Hc).
Defined.

Lemma phoenix_state :
  let st := post_process_entries [0] phoenix_store in
  cleaned st = [0] ∧ heap st = phoenix_store.
Proof. split; vm_compute; reflexivity. Qed.

(** C3 fails as worded: a duplicate too short to keep is dropped, its
    definition is not appended. *)
Lemma merge_claim_fails : ¬ claimed_merge.
Proof.
  intros H. destruct phoenix_state as [Hcl Hheap].
  destruct (H phoenix_store [0] 2 phoenix_short) as (i & p & ep & Hearly & Hmerged & _).
  { rewrite Hheap. reflexivity. }
  { exists 0, phoenix_first. rewrite Hcl, Hheap. split; [left|]. split; reflexivity. }
  destruct Hearly as (Hi & Hp & _).
  rewrite Hcl in Hi. rewrite Hheap in Hp.
  destruct i as [|i]; [|destruct i; discriminate Hi].
  injection Hi as <-. injection Hp as <-.
  vm_compute in Hmerged. discriminate Hmerged.
Qed.

Lemma merge_frame_witness :
  let st := post_process_entries [0] phoenix_store in
  let st' := post_process_step st 1 in
  heap st !! 1 = Some phoenix_second ∧ admissible phoenix_second = true
  ∧ accepted st (lower (term phoenix_second))
  ∧ ∃ p ep, p ∈ cleaned st ∧ heap st !! p = Some ep
            ∧ lower (term ep) = lower (term phoenix_second)
            ∧ heap st' !! p =
                Some (Entry (term ep) (definition ep ++ py " " ++ definition phoenix_second)
                            (page ep) (is_cross_ref ep))
            ∧ (∀ q, q ≠ p → heap st' !! q = heap st !! q)
            ∧ cleaned st' = cleaned st.
Proof.
  cbv zeta. destruct phoenix_state as [Hcl Hheap].
  assert (H1 : heap (post_process_entries [0] phoenix_store) !! 1 = Some phoenix_second).
  { rewrite Hheap. reflexivity. }
  assert (H2 : admissible phoenix_second = true) by reflexivity.
  assert (H3 : accepted (post_process_entries [0] phoenix_store)
                        (lower (term phoenix_second))).
  { exists 0, phoenix_first. rewrite Hcl, Hheap. split; [left|]. split; reflexivity. }
  split; [exact H1|]. split; [exact H2|]. split; [exact H3|].
  exact (merge_frame phoenix_store [0] 1 phoenix_second H1 H2 H3).
Defined.

(** C2: on the two-block input of the mandrake entry the whole pipeline
    yields exactly one entry, with term mandrake, the two texts joined by
    one space as its definition, and is_cross_ref false. *)
Theorem mandrake_pipeline :
  pipeline mandrake_doc =
    [ Entry (py "mandrake")
        (py "The mandrake is a fertility symbol and protective charm. It was harvested under strict ritual conditions.")
        9 false ].
Proof. vm_compute. reflexivity. Qed.

(** The examples of the docstring of [detect_entry_heading] and of the
    specification. *)
Example detect_docstring_samples :
  map detect_entry_heading
    [py "abracadabra This charm was used by the Gnostics";
     py "fiery curtain The fiery curtain constitutes a barrier";
     py "tower (see also house; ziggurat) The tower of Babel";
     py "bird (see also anqa; bustard; cock; crane;";
     py "anqa (see also simurg)";
     py "Abraham The Old Testament patriarch";
     py "The African legend says that Both St John and others"]
  = [Some (py "abracadabra"); Some (py "fiery curtain"); Some (py "tower");
     Some (py "bird"); Some (py "anqa"); Some (py "Abraham"); None].
Proof. vm_compute. reflexivity. Qed.

Example aureole_pipeline : pipeline aureole_doc = [aureole_entry].
Proof. vm_compute. reflexivity. Qed.

Example automobile_dropped : pipeline automobile_doc = pipeline mandrake_doc.
Proof. vm_compute. reflexivity. Qed.

Example phoenix_merged :
  pipeline phoenix_doc =
    [ Entry (py "phoenix")
        (py "The phoenix rises from its own ashes. It is a symbol of resurrection.")
        9 false;
      Entry (py "mandrake") (py "The mandrake is a fertility symbol.") 10 false ].
Proof. vm_compute. reflexivity. Qed.

(** Whether a block reaches the detector depends on all its lines: the
    block classifier reads the whole text. *)
Example classifier_reads_the_block :
  first_line_spans header_like = first_line_spans header_like_two_lines
  ∧ reaches_detection header_like = false
  ∧ reaches_detection header_like_two_lines = true
  ∧ detect_entry_heading (get_block_first_line header_like_two_lines) = Some (py "a'").
Proof. repeat split; vm_compute; reflexivity. Qed.

(** * Further properties *)

(** ** The loops of the extraction *)

Section Loops.
Context {ucd : UnicodeData}.

Lemma foldl_flat_map {A B C} (f : A → C → A) (g : B → list C) (l : list B) (a : A) :
  foldl f a (flat_map g l) = foldl (λ a x, foldl f a (g x)) a l.
Proof.
  revert a. induction l as [|x l IH]; intros a; [done|].
  simpl. by rewrite foldl_app, IH.
Qed.

Lemma foldl_fmap {A B C} (f : A → C → A) (g : B → C) (l : list B) (a : A) :
  foldl f a (map g l) = foldl (λ a x, f a (g x)) a l.
Proof. revert a. induction l as [|x l IH]; intros a; [done|]. simpl. by rewrite IH. Qed.

Lemma foldl_ext_elem {A B} (f g : A → B → A) (l : list B) (a : A) :
  (∀ a x, x ∈ l → f a x = g a x) → foldl f a l = foldl g a l.
Proof.
  revert a. induction l as [|x l IH]; intros a H; [done|]. simpl.
  rewrite (H a x) by left. apply IH. intros a' y Hy. apply H. by right.
Qed.

(** The two nested loops are one loop over the stream of blocks. *)
Lemma run_blocks_stream doc : run_blocks doc = foldl process_item acc_init (stream doc).
Proof.
  unfold run_blocks, stream. rewrite foldl_flat_map.
  apply foldl_ext_elem. intros a p _. unfold process_page.
  by rewrite foldl_fmap.
Qed.

Lemma page_range_elem doc p :
  p ∈ page_range doc ↔ DICT_START_PAGE ≤ p < DICT_END_PAGE `min` length doc.
Proof. unfold page_range. rewrite elem_of_seq. lia. Qed.

Lemma stream_elem doc p b :
  (p, b) ∈ stream doc ↔ p ∈ page_range doc ∧ ∃ bs, doc !! p = Some bs ∧ b ∈ bs.
Proof.
  unfold stream. rewrite elem_of_flat_map. split.
  - intros (q & Hq & Hb). apply list_elem_of_fmap in Hb as (b' & [= -> ->] & Hb').
    split; [done|]. apply page_range_elem in Hq as [_ Hq].
    destruct (doc !! q) as [bs|] eqn:Hd; [by exists bs|].
    apply lookup_ge_None in Hd. lia.
  - intros (Hp & bs & Hd & Hb). exists p. split; [done|]. rewrite Hd.
    apply list_elem_of_fmap. by exists b.
Qed.

(** X1: a document of at most eight pages has no dictionary page, and the
    extraction is empty. *)
Theorem short_document_no_entries (doc : list (list block)) :
  length doc ≤ DICT_START_PAGE → extract_entries doc = [].
Proof.
  intros Hlen. unfold extract_entries, run_blocks, page_range.
  replace (DICT_END_PAGE `min` length doc - DICT_START_PAGE) with 0 by lia.
  reflexivity.
Qed.

(** X2: the extraction reads the pages of index 8 to 1803 only: two
    documents that agree on them give the same entries. *)
Theorem page_window (doc doc' : list (list block)) :
  (∀ i, DICT_START_PAGE ≤ i < DICT_END_PAGE → doc !! i = doc' !! i) →
  extract_entries doc = extract_entries doc'.
Proof.
  intros Hsame.
  assert (Hlt : ∀ i, DICT_START_PAGE ≤ i < DICT_END_PAGE →
                     (i < length doc ↔ i < length doc')).
  { intros i Hi. rewrite <- !lookup_lt_is_Some, (Hsame i Hi). done. }
  assert (Hrange : page_range doc = page_range doc').
  { unfold page_range. f_equal.
    pose proof (Hlt (length doc)). pose proof (Hlt (length doc')).
    pose proof (Hlt DICT_START_PAGE). pose proof (Hlt (DICT_END_PAGE - 1)).
    unfold DICT_START_PAGE, DICT_END_PAGE in *. lia. }
  unfold extract_entries, run_blocks. rewrite <- Hrange. f_equal.
  apply foldl_ext_elem. intros a p Hp. unfold process_page.
  rewrite (Hsame p); [done|].
  apply page_range_elem in Hp. lia.
Qed.

End Loops.

(** ** What the accumulator yields *)

Section Yield.
Context {ucd : UnicodeData}.

(** A block that does not reach the detector leaves the accumulator as it
    is. *)
Lemma process_block_skipped p a b :
  reaches_detection b = false → process_block p a b = a.
Proof.
  unfold reaches_detection, process_block.
  destruct (type b =? 0)%Z; [|done]. cbn [negb andb].
  destruct (nonempty (strip (get_block_text b))); [|done]. cbn [negb andb].
  destruct (nonempty (get_block_first_line b)); [|done]. cbn [negb andb].
  destruct (is_running_header _); [done|]. cbn [negb andb].
  destruct (is_page_number _); [done|]. done.
Qed.

Lemma foldl_filter_skip {A B} (f : A → B → A) (q : B → bool) (l : list B) (a : A) :
  (∀ a x, q x = false → f a x = a) →
  foldl f a (List.filter q l) = foldl f a l.
Proof.
  intros Hskip. revert a. induction l as [|x l IH]; intros a; [done|].
  simpl. destruct (q x) eqn:Hq; simpl; [apply IH|].
  rewrite (Hskip a x Hq). apply IH.
Qed.

(** X3: the blocks that the classifier skips (images, empty blocks, running
    headers, page numbers) have no effect: the extraction is that of the
    stream of blocks without them. *)
Theorem skipped_blocks_transparent (doc : list (list block)) :
  extract_entries doc
  = finalize (foldl process_item acc_init
                (List.filter (λ pb, reaches_detection pb.2) (stream doc))).
Proof.
  unfold extract_entries. rewrite run_blocks_stream. f_equal. symmetry.
  apply foldl_filter_skip. intros a [p b] Hq. by apply process_block_skipped.
Qed.

(** The open entry, finalized: both guards of the save pass. *)
Lemma finalize_open a t :
  open_entry_ok a → current_term a = Some t →
  finalize a =
    entries a ++
    [Entry t (clean_definition (join (py " ") (current_definition_lines a)))
           (current_page a + 1)
           (is_cross_reference
              (clean_definition (join (py " ") (current_definition_lines a))))].
Proof.
  intros Hok Ht. destruct (Hok t Ht) as [Hne Hsub].
  pose proof (clean_definition_substance _ Hsub) as Hd.
  unfold finalize. rewrite Ht. cbn [truthy]. change (default [] (Some t)) with t.
  apply nonempty_true in Hne, Hd. rewrite Hne, Hd.
  destruct Hsub as (l & c & Hl & _).
  destruct (current_definition_lines a) as [|l0 ls] eqn:Hlines; [inversion Hl|].
  reflexivity.
Qed.

Lemma finalize_idle a : current_term a = None → finalize a = entries a.
Proof. unfold finalize. by intros ->. Qed.

Lemma finalize_terms a :
  open_entry_ok a →
  map term (finalize a) = map term (entries a) ++ option_list (current_term a).
Proof.
  intros Hok. destruct (current_term a) as [t|] eqn:Ht.
  - rewrite (finalize_open a t Hok Ht), map_app. done.
  - rewrite finalize_idle by done. by rewrite app_nil_r.
Qed.

Lemma foldl_process_item_open s : open_entry_ok (foldl process_item acc_init s).
Proof.
  apply foldl_invariant; [done|]. intros a [p b]. apply process_block_open.
Qed.

(** What the body of the loop does on a block that opens an entry, and on
    the others. *)
Lemma process_block_heading p a b t :
  block_heading b = Some t →
  entries (process_block p a b) = finalize a
  ∧ current_term (process_block p a b) = Some t
  ∧ current_page (process_block p a b) = p.
Proof.
  unfold block_heading, reaches_detection, process_block.
  destruct (type b =? 0)%Z; [|done]. cbn [negb andb].
  destruct (nonempty (strip (get_block_text b))); [|done]. cbn [negb andb].
  destruct (nonempty (get_block_first_line b)); [|done]. cbn [negb andb].
  destruct (is_running_header _); [done|]. cbn [negb andb].
  destruct (is_page_number _); [done|]. cbn [negb].
  destruct (truthy _); [|done]. by intros ->.
Qed.

Lemma process_block_continuation p a b :
  block_heading b = None →
  entries (process_block p a b) = entries a
  ∧ current_term (process_block p a b) = current_term a
  ∧ current_page (process_block p a b) = current_page a.
Proof.
  unfold block_heading. destruct (reaches_detection b) eqn:Hr.
  - intros Hd. unfold reaches_detection in Hr. unfold process_block.
    rewrite !andb_true_iff in Hr. destruct Hr as ((((-> & ->) & ->) & H4) & H5).
    apply negb_true_iff in H4, H5. rewrite H4, H5. cbn [negb].
    destruct (truthy (detect_entry_heading (get_block_first_line b))) eqn:Ht.
    + destruct (detect_entry_heading (get_block_first_line b)); done.
    + destruct (current_term a) eqn:Hc; [done|]. by rewrite Hc.
  - intros _. by rewrite process_block_skipped.
Qed.

Lemma foldl_process_item_snoc s p b :
  foldl process_item acc_init (s ++ [(p, b)])
  = process_block p (foldl process_item acc_init s) b.
Proof. by rewrite foldl_app. Qed.

Lemma foldl_process_item_terms s :
  let a := foldl process_item acc_init s in
  map term (entries a) ++ option_list (current_term a)
  = omap (λ pb, block_heading pb.2) s.
Proof.
  induction s as [|[p b] s IH] using rev_ind; [done|]. cbv zeta in *.
  rewrite foldl_process_item_snoc, omap_app.
  replace (omap (λ pb : nat * block, block_heading pb.2) [(p, b)])
    with (option_list (block_heading b))
    by (cbn; by destruct (block_heading b)).
  pose proof (foldl_process_item_open s) as Hok. rewrite <- IH.
  destruct (block_heading b) as [t|] eqn:Hb.
  - destruct (process_block_heading p (foldl process_item acc_init s) b t Hb)
      as (-> & -> & _).
    by rewrite finalize_terms.
  - destruct (process_block_continuation p (foldl process_item acc_init s) b Hb)
      as (-> & -> & _).
    cbn [option_list]. by rewrite app_nil_r.
Qed.

Lemma extract_entries_terms doc : map term (extract_entries doc) = headings doc.
Proof.
  unfold extract_entries, headings. rewrite run_blocks_stream.
  rewrite finalize_terms by apply foldl_process_item_open.
  apply foldl_process_item_terms.
Qed.

(** X4: every heading yields one entry and every entry comes from a
    heading: the terms of the extraction are the headings of the blocks,
    in order.  In particular a document without heading yields nothing. *)
Theorem terms_are_headings (doc : list (list block)) :
  map term (extract_entries doc) = headings doc
  ∧ (headings doc = [] → extract_entries doc = []).
Proof.
  pose proof (extract_entries_terms doc) as Hterms.
  split; [done|]. intros Hnone. rewrite Hnone in Hterms.
  by apply map_eq_nil in Hterms.
Qed.

End Yield.

(** ** The shape of a detected term *)

Section TermShape.
Context {ucd : UnicodeData}.

Lemma star_loop_within (P : char → Prop) (body : mstate → list mstate) fuel st st' :
  (∀ a b, b ∈ body a →
     ∃ w, rest a = w ++ rest b ∧ pos b = pos a + length w ∧ Forall P w) →
  st' ∈ star_loop body fuel st →
  ∃ w, rest st = w ++ rest st' ∧ pos st' = pos st + length w ∧ Forall P w.
Proof.
  intros Hbody. revert st. induction fuel as [|fuel IH]; intros st; simpl.
  - rewrite list_elem_of_singleton. intros ->. exists []. simpl.
    split; [done|]. split; [lia|constructor].
  - rewrite elem_of_app, elem_of_flat_map, list_elem_of_singleton.
    intros [(y & Hy & Hst')| ->].
    + apply elem_of_filter_bool in Hy as [Hy _].
      destruct (Hbody _ _ Hy) as (w1 & E1 & P1 & F1).
      destruct (IH _ Hst') as (w2 & E2 & P2 & F2).
      exists (w1 ++ w2). rewrite E1, E2, length_app, <- app_assoc.
      split; [done|]. split; [lia|]. by apply Forall_app.
    + exists []. simpl. split; [done|]. split; [lia|constructor].
Qed.

(** A match of a pattern within [P] consumes characters of [P] only. *)
Lemma exec_within (P : char → Prop) r st st' :
  within P r → st' ∈ exec r st →
  ∃ w, rest st = w ++ rest st' ∧ pos st' = pos st + length w ∧ Forall P w.
Proof.
  revert st st'. induction r as [| |p|p lo hi g|r1 IH1 r2 IH2|r1 IH1|r1 IH1|i r1 IH1];
    intros st st' Hin Hst'.
  - apply exec_bol in Hst' as [_ ->]. exists []. simpl.
    split; [done|]. split; [lia|constructor].
  - apply exec_eol in Hst' as [-> _]. exists []. simpl.
    split; [done|]. split; [lia|constructor].
  - apply exec_cls in Hst' as (c & s & Hr & Hp & ->).
    exists [c]. cbn [advance pos rest]. rewrite Hr. cbn [drop app length].
    split; [done|]. split; [done|]. constructor; [by apply Hin|constructor].
  - apply exec_many in Hst' as (k & Hk & ->).
    apply counts_elem in Hk as (Hlo & Hn & _).
    pose proof (run_le p (rest st)) as Hle.
    exists (take k (rest st)). cbn [advance pos rest].
    rewrite take_drop, length_take_le by lia. split; [done|]. split; [done|].
    apply Forall_forall. intros c Hc. apply Hin. by apply (run_take p (rest st) k).
  - destruct Hin as [Hin1 Hin2]. apply exec_seq in Hst' as (y & Hy & Hst').
    destruct (IH1 _ _ Hin1 Hy) as (w1 & E1 & P1 & F1).
    destruct (IH2 _ _ Hin2 Hst') as (w2 & E2 & P2 & F2).
    exists (w1 ++ w2). rewrite E1, E2, length_app, <- app_assoc.
    split; [done|]. split; [lia|]. by apply Forall_app.
  - simpl in Hst'. apply elem_of_app in Hst' as [Hst'|Hst'].
    + by apply IH1.
    + apply list_elem_of_singleton in Hst' as ->. exists []. simpl.
      split; [done|]. split; [lia|constructor].
  - simpl in Hst'. eapply star_loop_within; [|done].
    intros a b. by apply IH1.
  - simpl in Hst'. apply list_elem_of_fmap in Hst' as (y & -> & Hy).
    destruct (IH1 _ _ Hin Hy) as (w & E & Pw & F). by exists w.
Qed.

(** Group 1 of a pattern that opens with [^] and the group: a prefix of the
    line, made of what the group allows. *)
Lemma match_group1_within (P : char → Prop) r1 tail line m :
  within P r1 → no_group 1 tail →
  re_match (Bol >> Grp 1 r1 >> tail) line = Some m →
  Forall P (group 1 m) ∧ group 1 m `prefix_of` line.
Proof.
  intros Hin Hno Hm. apply re_match_Some in Hm.
  apply exec_seq in Hm as (st0 & H0 & Hm). apply exec_bol in H0 as [_ ->].
  apply exec_seq in Hm as (st1 & H1 & Hm).
  simpl in H1. apply list_elem_of_fmap in H1 as (y & -> & Hy).
  destruct (exec_within P _ _ _ Hin Hy) as (w1 & E1 & P1 & F1).
  rewrite (exec_group 1 _ _ _ Hno Hm).
  unfold group, capture. simpl in *. rewrite P1, Nat.sub_0_r, E1.
  rewrite take_app_length. split; [done|]. by exists (rest y).
Qed.


Lemma lstrip_by_snoc_keep p l c :
  p c = false → lstrip_by p (l ++ [c]) = lstrip_by p l ++ [c].
Proof.
  intros Hc. induction l as [|x l IH]; simpl; [by rewrite Hc|].
  destruct (p x); [done|done].
Qed.

Lemma rstrip_by_cons_keep p c t :
  p c = false → rstrip_by p (c :: t) = c :: rstrip_by p t.
Proof.
  intros Hc. unfold rstrip_by.
  rewrite reverse_cons, lstrip_by_snoc_keep, reverse_app by done. done.
Qed.

Lemma lower_az_solid c : lower_az c = true → Solid c.
Proof.
  intros Hc. apply in_range_bounds in Hc. apply ascii_solid.
  change (chr "a") with 97%N in Hc. change (chr "z") with 122%N in Hc. lia.
Qed.

Lemma Solid_not_space c : Solid c → isspace c = false.
Proof.
  unfold Solid, solid. intros Hc. apply andb_true_iff in Hc as [Hc _].
  by apply negb_true_iff in Hc.
Qed.

Lemma ascii_letter_not_space c : ascii_letter c = true → isspace c = false.
Proof.
  unfold ascii_letter. intros Hc. apply orb_true_iff in Hc as [Hc|Hc];
    apply Solid_not_space; [by apply lower_az_solid|by apply upper_AZ_solid].
Qed.

Lemma ascii_letter_not_stop c : ascii_letter c = true → char_in (py ".,") c = false.
Proof.
  unfold ascii_letter, char_in. intros Hc. apply bool_decide_eq_false.
  intros Hin. change (py ".,") with [chr "."; chr ","] in Hin.
  repeat (apply elem_of_cons in Hin as [->|Hin]; [vm_compute in Hc; discriminate|]).
  inversion Hin.
Qed.

(** Stripping keeps a leading letter. *)
Lemma strip_cons_letter c u :
  ascii_letter c = true → strip (c :: u) = c :: rstrip_by isspace u.
Proof.
  intros Hc. apply ascii_letter_not_space in Hc. unfold strip.
  cbn [lstrip_by]. rewrite Hc. by apply rstrip_by_cons_keep.
Qed.

Lemma term_of_head m c g :
  group 1 m = c :: g → ascii_letter c = true →
  ∃ t', term_of m = c :: t'.
Proof.
  intros Hg Hc. unfold term_of, rstrip. rewrite Hg, strip_cons_letter by done.
  rewrite rstrip_by_cons_keep by by apply ascii_letter_not_stop. eauto.
Qed.

Lemma elem_of_lstrip_by p s c : c ∈ lstrip_by p s → c ∈ s.
Proof.
  destruct (lstrip_by_suffix p s) as [k Hk]. intros Hc. rewrite Hk.
  apply elem_of_app. by right.
Qed.

Lemma elem_of_rstrip_by p s c : c ∈ rstrip_by p s → c ∈ s.
Proof.
  destruct (rstrip_by_prefix p s) as [k Hk]. intros Hc. rewrite Hk.
  apply elem_of_app. by left.
Qed.

Lemma term_of_chars (P : char → Prop) m :
  Forall P (group 1 m) → Forall P (term_of m).
Proof.
  rewrite !Forall_forall. intros Hg c Hc. apply Hg.
  unfold term_of, rstrip in Hc. by apply elem_of_rstrip_by, elem_of_strip in Hc.
Qed.

Lemma exec_grp i r st x :
  x ∈ exec (Grp i r) st ↔ ∃ y, y ∈ exec r st ∧ x = capture i st y.
Proof.
  simpl. rewrite list_elem_of_fmap. split.
  - intros (y & -> & Hy). by exists y.
  - intros (y & Hy & ->). by exists y.
Qed.

(** The group of a pattern that opens with a class begins with a character
    of the class. *)
Lemma match_group1_head p r1 tail line m :
  no_group 1 tail →
  re_match (Bol >> Grp 1 (Cls p >> r1) >> tail) line = Some m →
  ∃ c g, group 1 m = c :: g ∧ p c = true.
Proof.
  intros Hno Hm. apply re_match_Some in Hm.
  apply exec_seq in Hm as (st0 & H0 & Hm). apply exec_bol in H0 as [_ ->].
  apply exec_seq in Hm as (st1 & H1 & Hm).
  apply exec_grp in H1 as (y & Hy & ->).
  apply exec_seq in Hy as (y1 & Hy1 & Hy).
  apply exec_cls in Hy1 as (c & s & Hr & Hp & ->).
  destruct (exec_word (λ _, True) _ _ _ Hy) as (w & E & Pw & _).
  rewrite (exec_group 1 _ _ _ Hno Hm).
  unfold group, capture. simpl in *. subst line.
  rewrite Pw, Nat.sub_0_r. exists c, (take (length w) s). by split.
Qed.

Lemma term_char_heading c : term_char c = true → heading_char c = true.
Proof. unfold heading_char. by intros ->. Qed.

Lemma lower_az_term_char c : lower_az c = true → term_char c = true.
Proof. unfold term_char. by intros ->. Qed.

Lemma lower_term_shape tail line m :
  no_group 1 tail →
  re_match (Bol >> re_lower_term >> tail) line = Some m →
  (2 <=? length (term_of m)) && (length (term_of m) <=? 50) = true →
  term_shape (term_of m).
Proof.
  intros Hno Hm Hlen. unfold re_lower_term in Hm.
  apply andb_true_iff in Hlen as [H2 H50].
  apply Nat.leb_le in H2, H50. split; [lia|]. split.
  - apply term_of_chars.
    eapply (match_group1_within (λ c, heading_char c = true)); [|done|done].
    cbn. split; intros c Hc; apply term_char_heading; [by apply lower_az_term_char|done].
  - destruct (match_group1_head _ _ _ _ _ Hno Hm) as (c & g & Hg & Hc).
    assert (Hl : ascii_letter c = true) by (unfold ascii_letter; by rewrite Hc).
    destruct (term_of_head m c g Hg Hl) as [t' Ht']. by exists c, t'.
Qed.


(** Pattern 2: group 1 begins with a capital and a small letter. *)
Lemma capitalized_group r tail line m :
  no_group 1 tail →
  re_match (Bol >> Grp 1 (re_capitalized >> r) >> tail) line = Some m →
  ∃ c1 c2 g, group 1 m = c1 :: c2 :: g ∧ upper_AZ c1 = true ∧ lower_az c2 = true.
Proof.
  intros Hno Hm. apply re_match_Some in Hm.
  apply exec_seq in Hm as (st0 & H0 & Hm). apply exec_bol in H0 as [_ ->].
  apply exec_seq in Hm as (st1 & H1 & Hm).
  apply exec_grp in H1 as (y & Hy & ->).
  apply exec_seq in Hy as (y2 & Hy2 & Hy). unfold re_capitalized in Hy2.
  apply exec_seq in Hy2 as (y1 & Hy1 & Hy2).
  apply exec_cls in Hy1 as (c1 & s & Hr & Hp1 & ->).
  apply exec_many in Hy2 as (k & Hk & ->).
  apply counts_elem in Hk as (Hlo & Hrun & _).
  destruct (run_head lower_az _ (Nat.le_trans _ _ _ Hlo Hrun)) as (c2 & s' & Hr2 & Hp2).
  destruct (exec_word (λ _, True) _ _ _ Hy) as (w & E & Pw & _).
  rewrite (exec_group 1 _ _ _ Hno Hm).
  unfold group, capture. simpl in *. subst line. simpl in Hr2.
  rewrite ?drop_0 in Hr2. subst s.
  rewrite Pw, Nat.sub_0_r. destruct k as [|k]; [lia|].
  exists c1, c2, (take (k + length w) s'). by split.
Qed.

Lemma split_cons2 c1 c2 u :
  isspace c1 = false → isspace c2 = false →
  ∃ w0 ws, split (c1 :: c2 :: u) = (c1 :: c2 :: w0) :: ws.
Proof.
  intros H1 H2. unfold split. cbn [split_go].
  destruct (split_go u) as [w0 ws]. rewrite H1, H2. by exists w0, ws.
Qed.

Lemma trim_trailing_last l x : last l = Some x → last (trim_trailing l) = Some x.
Proof.
  induction l as [|w more IH]; [done|]. cbn [trim_trailing].
  destruct more as [|w' more']; [done|].
  destruct (in_set _ _); [|done]. intros Hl. by apply IH.
Qed.

Lemma trimmed_parts_head first ws :
  ∃ ps, reverse (trim_trailing (reverse (first :: ws))) = first :: ps.
Proof.
  assert (Hl : last (trim_trailing (reverse (first :: ws))) = Some first).
  { apply trim_trailing_last. by rewrite last_reverse. }
  rewrite <- (reverse_involutive (trim_trailing _)) in Hl.
  rewrite last_reverse in Hl.
  destruct (reverse (trim_trailing (reverse (first :: ws)))) as [|x ps]; [done|].
  injection Hl as ->. by exists ps.
Qed.

Lemma elem_of_join_inv sep ws c :
  c ∈ join sep ws → c ∈ sep ∨ ∃ w, w ∈ ws ∧ c ∈ w.
Proof.
  induction ws as [|x ws IH]; [intros H; inversion H|].
  destruct ws as [|y ws].
  - intros Hc. right. exists x. split; [left|done].
  - change (join sep (x :: y :: ws)) with (x ++ sep ++ join sep (y :: ws)).
    rewrite !elem_of_app. intros [Hc|[Hc|Hc]].
    + right. exists x. split; [left|done].
    + by left.
    + destruct (IH Hc) as [?|(w & Hw & Hcw)]; [by left|].
      right. exists w. split; [by right|done].
Qed.

Lemma elem_of_split_go s w c :
  (w = (split_go s).1 ∨ w ∈ (split_go s).2) → c ∈ w → c ∈ s.
Proof.
  revert w. induction s as [|x s IH]; intros w.
  - simpl. intros [->|Hw] Hc; [inversion Hc|inversion Hw].
  - cbn [split_go]. destruct (split_go s) as [w0 ws]. cbn [fst snd] in IH.
    destruct (isspace x); cbn [fst snd].
    + intros [->|Hw] Hc; [inversion Hc|]. right.
      destruct w0 as [|z w0]; cbn [push_word] in Hw.
      * apply (IH w); [by right|done].
      * apply elem_of_cons in Hw as [->|Hw].
        -- apply (IH (z :: w0)); [by left|done].
        -- apply (IH w); [by right|done].
    + intros [->|Hw] Hc.
      * apply elem_of_cons in Hc as [->|Hc]; [left|right]. apply (IH w0); auto.
      * right. apply (IH w); auto.
Qed.

Lemma elem_of_split s w c : w ∈ split s → c ∈ w → c ∈ s.
Proof.
  unfold split. intros Hw. apply elem_of_split_go.
  destruct (split_go s) as [w0 ws]. cbn [fst snd].
  destruct w0 as [|z w0]; cbn [push_word] in Hw; [by right|].
  apply elem_of_cons in Hw as [->|Hw]; auto.
Qed.

Lemma elem_of_trimmed parts w :
  w ∈ reverse (trim_trailing (reverse parts)) → w ∈ parts.
Proof.
  rewrite elem_of_reverse. intros Hw.
  destruct (trim_trailing_suffix (reverse parts)) as [k Hk].
  apply elem_of_reverse. rewrite Hk. apply elem_of_app. by right.
Qed.

Lemma name_char_heading c : name_char c = true → heading_char c = true.
Proof.
  unfold name_char, heading_char, term_char.
  rewrite !orb_true_iff. tauto.
Qed.


Lemma heading_char_space : heading_char (chr " ") = true.
Proof. reflexivity. Qed.

Lemma pattern2_term_shape line t : pattern2 line = Some t → term_shape t.
Proof.
  unfold pattern2. destruct (re_match re_pattern2 line) as [m|] eqn:Hm; [|done].
  destruct (_ && _) eqn:Hlen; [|done]. destruct (negb _); [|done].
  destruct (_is_valid_term _); [|done].
  intros Ht. apply (inj Some) in Ht. subst t. unfold re_pattern2 in Hm.
  apply andb_true_iff in Hlen as [H35 _]. apply Nat.leb_le in H35.
  assert (Hno : no_group 1
            (plus isspace >> Grp 2 (Cls upper_AZ >> Cls lower_az >> star dot)))
    by (cbn; repeat split; lia).
  destruct (capitalized_group _ _ _ _ Hno Hm) as (c1 & c2 & g & Hg & Hc1 & Hc2).
  assert (Hl1 : ascii_letter c1 = true) by (unfold ascii_letter; by rewrite Hc1, orb_true_r).
  assert (Hl2 : ascii_letter c2 = true) by (unfold ascii_letter; by rewrite Hc2).
  assert (Hraw : strip (group 1 m) = c1 :: c2 :: rstrip_by isspace g).
  { rewrite Hg, strip_cons_letter by done.
    by rewrite rstrip_by_cons_keep by by apply ascii_letter_not_space. }
  destruct (split_cons2 c1 c2 (rstrip_by isspace g)) as (w0 & ws & Hsplit);
    [by apply ascii_letter_not_space..|].
  destruct (trimmed_parts_head (c1 :: c2 :: w0) ws) as [ps Hparts].
  unfold pystr in *. split; [|split].
  - rewrite Hraw, Hsplit, Hparts in H35 |- *.
    rewrite join_cons_length in H35 |- *. cbn [length] in H35 |- *. lia.
  - apply Forall_forall. intros c Hc.
    apply elem_of_join_inv in Hc as [Hc|(w & Hw & Hc)].
    + apply list_elem_of_singleton in Hc as ->. apply heading_char_space.
    + apply name_char_heading. apply elem_of_trimmed in Hw.
      pose proof (elem_of_strip _ _ (elem_of_split _ _ _ Hw Hc)) as Hin.
      assert (Hwithin : Forall (λ c, name_char c = true) (group 1 m)).
      { eapply (match_group1_within (λ c, name_char c = true)); [|exact Hno|exact Hm].
        unfold re_capitalized, name_char. cbn.
        repeat split; intros x Hx; by rewrite Hx, ?orb_true_r. }
      by apply (proj1 (Forall_forall _ _) Hwithin).
  - rewrite Hraw, Hsplit, Hparts.
    exists c1. destruct ps as [|p1 ps]; cbn [join]; eauto.
Qed.

Lemma pattern1_term_shape line t : pattern1 line = Some t → term_shape t.
Proof.
  unfold pattern1. destruct (re_match re_pattern1 line) as [m|] eqn:Hm; [|done].
  destruct (_ && _) eqn:Hlen; [|done]. destruct (_is_valid_term _); [|done].
  intros [= <-]. apply andb_true_iff in Hlen as [Hlen _].
  eapply lower_term_shape; [|exact Hm|exact Hlen]. cbn. repeat split; lia.
Qed.

Lemma pattern1b_term_shape line t : pattern1b line = Some t → term_shape t.
Proof.
  unfold pattern1b. destruct (re_match re_pattern1b line) as [m|] eqn:Hm; [|done].
  destruct (matched _); [|done]. destruct (_ && _) eqn:Hlen; [|done].
  intros [= <-]. apply andb_true_iff in Hlen as [Hlen _].
  eapply lower_term_shape; [|exact Hm|exact Hlen]. cbn. repeat split; lia.
Qed.

Lemma pattern3_term_shape line t : pattern3 line = Some t → term_shape t.
Proof.
  unfold pattern3. destruct (re_match re_pattern3 line) as [m|] eqn:Hm; [|done].
  destruct (_ && _) eqn:Hlen; [|done].
  intros [= <-]. eapply lower_term_shape; [|exact Hm|exact Hlen].
  cbn. repeat split; lia.
Qed.

Lemma pattern4_term_shape line t : pattern4 line = Some t → term_shape t.
Proof.
  unfold pattern4. destruct (re_match re_pattern4 line) as [m|] eqn:Hm; [|done].
  destruct (_ && _) eqn:Hlen; [|done].
  intros [= <-]. eapply lower_term_shape; [|exact Hm|exact Hlen].
  cbn. repeat split; lia.
Qed.

Lemma detect_term_shape first_line t :
  detect_entry_heading first_line = Some t → term_shape t.
Proof.
  unfold detect_entry_heading. destruct (length _ <? 5); [done|].
  unfold or_else.
  destruct (pattern1 _) eqn:H1; [intros [= <-]; by eapply pattern1_term_shape|].
  destruct (pattern1b _) eqn:H1b; [intros [= <-]; by eapply pattern1b_term_shape|].
  destruct (pattern2 _) eqn:H2; [intros [= <-]; by eapply pattern2_term_shape|].
  destruct (pattern3 _) eqn:H3; [intros [= <-]; by eapply pattern3_term_shape|].
  apply pattern4_term_shape.
Qed.

End TermShape.

(** ** Detected terms and extracted entries *)

Section Extracted.
Context {ucd : UnicodeData}.

Lemma endswith_singleton_elem x t : endswith [x] t = true → x ∈ t.
Proof.
  unfold endswith. rewrite reverse_singleton. intros Hsw.
  apply startswith_app in Hsw as [tl Htl].
  apply elem_of_reverse. rewrite Htl. left.
Qed.

Lemma not_heading_char_endswith a t :
  heading_char (chr a) = false →
  Forall (λ c, heading_char c = true) t → endswith [chr a] t = false.
Proof.
  intros Ha Ht. apply not_true_is_false. intros Hsw.
  apply endswith_singleton_elem in Hsw.
  apply (proj1 (Forall_forall _ _) Ht) in Hsw. congruence.
Qed.

(** X5: a detected term has 2 to 50 characters, and the stripped line has at
    least 5 and is longer than the term: text always follows the term. *)
Theorem detected_term_bounds (first_line t : pystr) :
  detect_entry_heading first_line = Some t →
  2 ≤ length t ≤ 50
  ∧ 5 ≤ length (strip first_line)
  ∧ length t < length (strip first_line).
Proof.
  intros Hd. destruct (detect_term_shape _ _ Hd) as [Hlen _].
  split; [done|]. split.
  - unfold detect_entry_heading in Hd.
    destruct (length (strip first_line) <? 5) eqn:H5; [done|].
    by apply Nat.ltb_ge in H5.
  - destruct (heading_remainder _ _ Hd) as (c & Hc & _).
    destruct (decide (length t < length (strip first_line))) as [|Hge]; [done|].
    rewrite drop_ge in Hc by lia. inversion Hc.
Qed.

(** X6: a detected term begins with an ASCII letter, is made of ASCII
    letters, whitespace, commas, apostrophes and hyphens, and so ends with
    none of the full stop, the colon and the semicolon. *)
Theorem detected_term_alphabet (first_line t : pystr) :
  detect_entry_heading first_line = Some t →
  (∃ c t', t = c :: t' ∧ ascii_letter c = true)
  ∧ (∀ c, c ∈ t → heading_char c = true)
  ∧ endswith (py ".") t = false
  ∧ endswith (py ":") t = false
  ∧ endswith (py ";") t = false.
Proof.
  intros Hd. destruct (detect_term_shape _ _ Hd) as (_ & Hchars & Hhead).
  split; [done|]. split; [by apply Forall_forall|].
  repeat split; by apply not_heading_char_endswith.
Qed.

Lemma block_heading_detect b t :
  block_heading b = Some t →
  detect_entry_heading (get_block_first_line b) = Some t.
Proof.
  unfold block_heading. destruct (reaches_detection b); [|done].
  cbv zeta. by destruct (truthy _).
Qed.

Lemma extract_entries_term_detected doc e :
  e ∈ extract_entries doc →
  ∃ p b, (p, b) ∈ stream doc ∧ block_heading b = Some (term e).
Proof.
  intros He.
  assert (Hin : term e ∈ headings doc).
  { rewrite <- extract_entries_terms. apply list_elem_of_fmap. by exists e. }
  unfold headings in Hin. apply list_elem_of_omap in Hin as ([p b] & Hpb & Hb).
  by exists p, b.
Qed.

(** X7: the terms of the extracted entries have the shape of detected
    terms, so that the checks of the post-processor on the length of the
    term and on its last character never reject an extracted entry. *)
Theorem extracted_terms_pass (doc : list (list block)) (e : entry) :
  e ∈ extract_entries doc →
  term_shape (term e)
  ∧ (length (term e) <? 2) = false
  ∧ (endswith (py ".") (term e) || endswith (py ":") (term e)
     || endswith (py ";") (term e)) = false
  ∧ (60 <? length (term e)) = false.
Proof.
  intros He. destruct (extract_entries_term_detected doc e He) as (p & b & _ & Hb).
  apply block_heading_detect in Hb.
  pose proof (detect_term_shape _ _ Hb) as Hshape.
  destruct Hshape as (Hlen & Hchars & Hhead).
  split; [done|]. split; [apply Nat.ltb_ge; lia|]. split; [|apply Nat.ltb_ge; lia].
  rewrite !orb_false_iff. repeat split; by apply not_heading_char_endswith.
Qed.

End Extracted.

(** ** Cleaned definitions *)

Section Definitions.
Context {ucd : UnicodeData}.

Lemma elem_of_replace_go old new k s c :
  c ∈ replace_go old new k s → c ∈ s ∨ c ∈ new.
Proof.
  revert k. induction s as [|x s IH]; intros k; [intros H; inversion H|].
  cbn [replace_go]. destruct k as [|k].
  - destruct (startswith old (x :: s)).
    + rewrite elem_of_app. intros [Hc|Hc]; [by right|].
      destruct (IH _ Hc); [left; by right|by right].
    + intros Hc. apply elem_of_cons in Hc as [->|Hc]; [left; left|].
      destruct (IH _ Hc); [left; by right|by right].
  - intros Hc. destruct (IH _ Hc); [left; by right|by right].
Qed.

Lemma elem_of_replace_remove a v c : c ∈ replace [a] [] v → c ∈ v ∧ c ≠ a.
Proof.
  unfold replace. induction v as [|x v IH]; [intros H; inversion H|].
  cbn [replace_go startswith length]. destruct (N.eqb_spec a x) as [->|Hne]; cbn [andb].
  - cbn [app]. intros Hc. destruct (IH Hc). split; [by right|done].
  - intros Hc. apply elem_of_cons in Hc as [->|Hc]; [split; [left|done]|].
    destruct (IH Hc). split; [by right|done].
Qed.

Lemma spaced_elem u c : spaced u → c ∈ u → isspace c = true → c = chr " ".
Proof.
  induction u as [|x u IH]; [intros _ H; inversion H|].
  cbn [spaced]. intros [Hx Hu] Hc Hsp.
  apply elem_of_cons in Hc as [->|Hc]; [by destruct (Hx Hsp)|by apply IH].
Qed.

Lemma clean_definition_chars text c :
  c ∈ clean_definition text →
  (c ∉ soft_hyphen) ∧ (isspace c = true → c = chr " ").
Proof.
  unfold clean_definition. intros Hc.
  apply elem_of_replace_go in Hc as [Hc|Hc].
  - apply elem_of_replace_remove in Hc as [Hc Hne].
    apply elem_of_replace_remove in Hc as [Hc _].
    split; [by intros ?%list_elem_of_singleton|].
    apply elem_of_strip in Hc.
    apply (spaced_elem (sub_ws text)); [apply sub_ws_go_spaced|done].
  - apply list_elem_of_singleton in Hc as ->.
    split; [|done]. intros Hin%list_elem_of_singleton. discriminate Hin.
Qed.

(** X8: a cleaned text holds no soft hyphen, and no whitespace but the
    space: tabs, line feeds and the like are gone. *)
Theorem clean_definition_alphabet (text : pystr) (c : char) :
  c ∈ clean_definition text →
  (c ∉ soft_hyphen) ∧ (isspace c = true → c = chr " ").
Proof. apply clean_definition_chars. Qed.

Lemma finalize_cleaned a :
  (∀ e, e ∈ entries a → cleaned_text (definition e)) →
  ∀ e, e ∈ finalize a → cleaned_text (definition e).
Proof.
  intros Ha. unfold finalize.
  destruct (_ && _); [|done].
  destruct (nonempty _) eqn:Hne; [|done].
  intros e He. apply elem_of_app in He as [He|He]; [by apply Ha|].
  apply list_elem_of_singleton in He as ->. cbn [definition].
  apply nonempty_true in Hne. split; [done|eauto].
Qed.

Lemma extract_entries_cleaned doc e :
  e ∈ extract_entries doc → cleaned_text (definition e).
Proof.
  revert e. apply finalize_cleaned. apply run_blocks_ind.
  - intros e He. inversion He.
  - intros p a b Ha.
    destruct (process_block_entries p a b) as [-> | ->]; [done|].
    by apply finalize_cleaned.
Qed.

(** X9: no extracted entry has an empty definition, a soft hyphen in it or
    whitespace other than the space. *)
Theorem extracted_definitions (doc : list (list block)) (e : entry) :
  e ∈ extract_entries doc →
  definition e ≠ []
  ∧ ∀ c, c ∈ definition e →
         (c ∉ soft_hyphen) ∧ (isspace c = true → c = chr " ").
Proof.
  intros He. destruct (extract_entries_cleaned doc e He) as [Hne [text Ht]].
  split; [done|]. intros c Hc. rewrite Ht in Hc.
  by apply (clean_definition_chars text).
Qed.

End Definitions.

(** ** The pages of the entries *)

Section Pages.
Context {ucd : UnicodeData}.

Lemma finalize_pages a :
  open_entry_ok a → map page (finalize a) = map page (entries a) ++ open_page a.
Proof.
  intros Hok. unfold open_page. destruct (current_term a) as [t|] eqn:Ht.
  - rewrite (finalize_open a t Hok Ht), map_app. done.
  - rewrite finalize_idle by done. by rewrite app_nil_r.
Qed.

Lemma foldl_process_item_pages s :
  let a := foldl process_item acc_init s in
  map page (entries a) ++ open_page a = omap heading_page s.
Proof.
  induction s as [|[p b] s IH] using rev_ind; [done|]. cbv zeta in *.
  rewrite foldl_process_item_snoc, omap_app.
  replace (omap heading_page [(p, b)])
    with (option_list (heading_page (p, b)))
    by (cbn; by destruct (heading_page (p, b))).
  pose proof (foldl_process_item_open s) as Hok. rewrite <- IH.
  unfold heading_page. cbn [fst snd]. unfold open_page at 1.
  destruct (block_heading b) as [t|] eqn:Hb.
  - destruct (process_block_heading p (foldl process_item acc_init s) b t Hb)
      as (-> & -> & ->).
    by rewrite finalize_pages.
  - destruct (process_block_continuation p (foldl process_item acc_init s) b Hb)
      as (-> & -> & ->).
    cbn [option_list]. by rewrite app_nil_r.
Qed.

Lemma extract_entries_pages doc : map page (extract_entries doc) = heading_pages doc.
Proof.
  unfold extract_entries, heading_pages. rewrite run_blocks_stream.
  rewrite finalize_pages by apply foldl_process_item_open.
  apply foldl_process_item_pages.
Qed.

(** The stream visits the pages in increasing order. *)
Lemma flat_map_seq_sorted (f : nat → list block) start n :
  StronglySorted le
    (map fst (flat_map (λ p, map (pair p) (f p)) (seq start n)))
  ∧ ∀ q, q ∈ map fst (flat_map (λ p, map (pair p) (f p)) (seq start n)) →
         start ≤ q < start + n.
Proof.
  revert start. induction n as [|n IH]; intros start.
  - split; [constructor|]. intros q Hq. inversion Hq.
  - cbn [seq flat_map]. rewrite map_app. destruct (IH (S start)) as [Hs Hb].
    assert (Hhere : ∀ q, q ∈ map fst (map (pair start) (f start)) → q = start).
    { intros q Hq. apply list_elem_of_fmap in Hq as ([q' b] & -> & Hq).
      by apply list_elem_of_fmap in Hq as (b' & [= -> _] & _). }
    split.
    + apply StronglySorted_app_2; [| |done].
      * intros x1 x2 H1 H2. apply Hhere in H1 as ->. apply Hb in H2. lia.
      * induction (f start) as [|b bs IHb]; [constructor|].
        cbn. constructor.
        -- apply IHb. intros q Hq. apply Hhere. cbn. by right.
        -- apply Forall_forall. intros q Hq.
           assert (q = start) as -> by (apply Hhere; cbn; by right). done.
    + intros q Hq. apply elem_of_app in Hq as [Hq|Hq].
      * apply Hhere in Hq as ->. lia.
      * apply Hb in Hq. lia.
Qed.

Lemma stream_pages_sorted doc : StronglySorted le (map fst (stream doc)).
Proof. apply flat_map_seq_sorted. Qed.

Lemma heading_pages_sorted s :
  StronglySorted le (map fst s) → StronglySorted le (omap heading_page s).
Proof.
  induction s as [|[p b] s IH]; [constructor|]. cbn [map fst].
  intros Hs. apply StronglySorted_cons in Hs as [Hall Hs]. cbn [omap list_omap].
  destruct (heading_page (p, b)) as [n|] eqn:Hn; [|by apply IH].
  constructor; [by apply IH|]. apply Forall_forall. intros q Hq.
  apply list_elem_of_omap in Hq as ([p' b'] & Hin & Hq).
  unfold heading_page in Hn, Hq. cbn [fst snd] in Hn, Hq.
  destruct (block_heading b); [|done]. destruct (block_heading b'); [|done].
  injection Hn as <-. injection Hq as <-.
  assert (p ≤ p'); [|lia].
  apply (proj1 (Forall_forall _ _) Hall). apply list_elem_of_fmap.
  by exists (p', b').
Qed.

(** X10: every entry carries the number, counted from 1, of the page on
    which the block of its heading stands, whatever pages its text runs
    over. *)
Theorem entry_pages (doc : list (list block)) :
  map page (extract_entries doc) = heading_pages doc.
Proof. apply extract_entries_pages. Qed.

(** X11: the pages of the entries never decrease along the output, and lie
    between 9 and the end of the dictionary, page 1804 or the last page of
    a shorter document. *)
Theorem entry_pages_ordered (doc : list (list block)) :
  StronglySorted le (map page (extract_entries doc))
  ∧ ∀ e, e ∈ extract_entries doc →
         DICT_START_PAGE < page e ≤ DICT_END_PAGE `min` length doc.
Proof.
  rewrite extract_entries_pages. split.
  - apply heading_pages_sorted, stream_pages_sorted.
  - intros e He.
    assert (Hin : page e ∈ heading_pages doc).
    { rewrite <- extract_entries_pages. apply list_elem_of_fmap. by exists e. }
    apply list_elem_of_omap in Hin as ([p b] & Hpb & Hp).
    apply stream_elem in Hpb as [Hrange _]. apply page_range_elem in Hrange.
    unfold heading_page in Hp. cbn [fst snd] in Hp.
    destruct (block_heading b); [|done]. injection Hp as <-. lia.
Qed.

End Pages.

(** ** The post-processor over a whole input *)

Section WholeRun.
Context {ucd : UnicodeData}.

Lemma extends_refl e : extends e e.
Proof. by repeat split. Qed.

Lemma extends_trans e1 e2 e3 : extends e1 e2 → extends e2 e3 → extends e1 e3.
Proof.
  intros (Ht & Hp & Hx & Hd) (Ht' & Hp' & Hx' & Hd').
  repeat split; try congruence. by etrans.
Qed.

Lemma extends_append e x : extends e (append_definition e x).
Proof. repeat split. cbn. by apply prefix_app_r. Qed.

Lemma extends_admissible e e' :
  extends e e' → admissible e = true → admissible e' = true.
Proof.
  intros (Ht & _ & Hx & Hd). apply prefix_length in Hd.
  unfold admissible. rewrite Ht, Hx. rewrite !andb_true_iff.
  intros (((((H1 & H2) & H3) & H4) & H5) & H6). repeat split; try done.
  destruct (is_cross_ref e); [by rewrite andb_false_r|].
  rewrite andb_true_r in *. apply negb_true_iff in H2. apply negb_true_iff.
  apply Nat.ltb_ge in H2. apply Nat.ltb_ge. lia.
Qed.

(** The three ways through the body of the loop. *)
Lemma step_cases st r :
  post_process_step st r = st
    ∧ (heap st !! r = None ∨ ∃ e, heap st !! r = Some e ∧ admissible e = false)
  ∨ (∃ e, heap st !! r = Some e ∧ admissible e = true
          ∧ lower (term e) ∈ seen_terms st
          ∧ post_process_step st r =
              PP (cleaned st) (seen_terms st)
                 (merge_into (reverse (cleaned st)) (lower (term e)) (definition e)
                             (heap st)))
  ∨ (∃ e, heap st !! r = Some e ∧ admissible e = true
          ∧ (lower (term e) ∉ seen_terms st)
          ∧ post_process_step st r =
              PP (cleaned st ++ [r]) ({[lower (term e)]} ∪ seen_terms st) (heap st)).
Proof.
  destruct (heap st !! r) as [e|] eqn:He.
  - destruct (admissible e) eqn:Hadm.
    + right. rewrite (step_admitted _ _ _ He Hadm). case_bool_decide.
      * left. by exists e.
      * right. by exists e.
    + left. split; [by apply (step_dropped _ _ e)|]. right. by exists e.
  - left. split; [by apply step_dangling|by left].
Qed.

Lemma merge_into_lookup l x d σ q :
  merge_into l x d σ !! q = σ !! q
  ∨ (q ∈ l ∧ ∃ e, σ !! q = Some e
            ∧ merge_into l x d σ !! q = Some (append_definition e (py " " ++ d))).
Proof.
  induction l as [|prev more IH]; [by left|]. cbn [merge_into].
  assert (Hmore : merge_into more x d σ !! q = σ !! q
    ∨ (q ∈ prev :: more ∧ ∃ e, σ !! q = Some e
         ∧ merge_into more x d σ !! q = Some (append_definition e (py " " ++ d)))).
  { destruct IH as [IH|(Hq & IH)]; [by left|right]. split; [by right|done]. }
  destruct (σ !! prev) as [e|] eqn:He; [|done].
  case_bool_decide; [|done].
  destruct (decide (prev = q)) as [->|Hne].
  - right. split; [left|]. exists e. by rewrite lookup_insert_eq.
  - left. by rewrite lookup_insert_ne.
Qed.

(** A pass through the loop keeps the accepted references and extends
    entries among them only. *)
Lemma step_lookup st r q :
  heap (post_process_step st r) !! q = heap st !! q
  ∨ (q ∈ cleaned st ∧ ∃ e e', heap st !! q = Some e
       ∧ heap (post_process_step st r) !! q = Some e' ∧ extends e e').
Proof.
  destruct (step_cases st r) as [[-> _]|[(e & He & Hadm & Hx & ->)|(e & He & Hadm & Hx & ->)]];
    [by left| |by left].
  cbn [heap].
  destruct (merge_into_lookup (reverse (cleaned st)) (lower (term e)) (definition e)
              (heap st) q) as [H|(Hq & e0 & H0 & H1)]; [by left|right].
  split; [by apply elem_of_reverse|]. exists e0, (append_definition e0 (py " " ++ definition e)).
  split; [done|]. split; [done|]. apply extends_append.
Qed.

Lemma step_cleaned_mono st r q : q ∈ cleaned st → q ∈ cleaned (post_process_step st r).
Proof.
  destruct (step_cases st r) as [[-> _]|[(e & _ & _ & _ & ->)|(e & _ & _ & _ & ->)]];
    [done|done|]. cbn [cleaned]. intros Hq. apply elem_of_app. by left.
Qed.

Lemma step_cleaned_other st r q :
  q ≠ r → q ∈ cleaned (post_process_step st r) ↔ q ∈ cleaned st.
Proof.
  intros Hne. split; [|apply step_cleaned_mono].
  destruct (step_cases st r) as [[-> _]|[(e & _ & _ & _ & ->)|(e & _ & _ & _ & ->)]];
    [done|done|]. cbn [cleaned]. intros Hq.
  apply elem_of_app in Hq as [Hq|Hq]; [done|].
  by apply list_elem_of_singleton in Hq.
Qed.

Lemma foldl_cleaned_other l st q :
  q ∉ l → q ∈ cleaned (foldl post_process_step st l) ↔ q ∈ cleaned st.
Proof.
  revert st. induction l as [|r l IH]; intros st Hq; [done|]. cbn [foldl].
  apply not_elem_of_cons in Hq as [Hne Hq]. rewrite IH by done.
  by apply step_cleaned_other.
Qed.

Lemma post_process_lookup refs σ q :
  let st := post_process_entries refs σ in
  (σ !! q = None → heap st !! q = None)
  ∧ ∀ e, σ !! q = Some e →
         ∃ e', heap st !! q = Some e' ∧ extends e e' ∧ (q ∉ cleaned st → e' = e).
Proof.
  cbv zeta. induction refs as [|r refs IH] using rev_ind.
  - split; [done|]. intros e He. exists e. split; [done|]. split; [apply extends_refl|done].
  - rewrite post_process_entries_snoc.
    set (st := post_process_entries refs σ) in *. destruct IH as [IHn IHs].
    destruct (step_lookup st r q) as [Hsame|(Hq & e0 & e1 & H0 & H1 & Hext)].
    + rewrite Hsame. split; [done|]. intros e He.
      destruct (IHs e He) as (e' & He' & Hext & Hout). exists e'.
      split; [done|]. split; [done|]. intros Hq. apply Hout.
      intros Hq'. apply Hq. by apply step_cleaned_mono.
    + split.
      * intros Hn. apply IHn in Hn. congruence.
      * intros e He. destruct (IHs e He) as (e' & He' & Hext' & _).
        exists e1. split; [done|]. split.
        -- apply (extends_trans e e0 e1); [|done]. congruence.
        -- intros Hq'. exfalso. apply Hq'. by apply step_cleaned_mono.
Qed.

Lemma post_process_unprocessed refs σ q :
  q ∉ refs → heap (post_process_entries refs σ) !! q = σ !! q.
Proof.
  intros Hq. destruct (post_process_lookup refs σ q) as [Hn Hs].
  assert (Hout : q ∉ cleaned (post_process_entries refs σ)).
  { intros Hin. apply Hq. eapply elem_of_sublist; [done|apply post_process_sublist]. }
  destruct (σ !! q) as [e|] eqn:He; [|by apply Hn].
  destruct (Hs e eq_refl) as (e' & He' & _ & Heq). rewrite He'. f_equal. by apply Heq.
Qed.

Lemma post_process_admissible refs σ r :
  r ∈ cleaned (post_process_entries refs σ) →
  ∃ e, heap (post_process_entries refs σ) !! r = Some e ∧ admissible e = true.
Proof.
  revert r. induction refs as [|r0 refs IH] using rev_ind; intros r.
  - intros Hr. inversion Hr.
  - rewrite post_process_entries_snoc.
    set (st := post_process_entries refs σ) in *.
    destruct (step_cases st r0)
      as [[-> _]|[(e & He & Hadm & Hx & Hst)|(e & He & Hadm & Hx & ->)]].
    + apply IH.
    + intros Hr. assert (Hr' : r ∈ cleaned st) by (by rewrite Hst in Hr).
      destruct (IH r Hr') as (e0 & H0 & Hadm0).
      destruct (step_lookup st r0 r) as [Hsame|(_ & e1 & e2 & H1 & H2 & Hext)].
      * exists e0. by rewrite Hsame.
      * exists e2. split; [done|]. apply (extends_admissible e0); [|done]. congruence.
    + cbn [cleaned heap]. intros Hr. apply elem_of_app in Hr as [Hr|Hr]; [by apply IH|].
      apply list_elem_of_singleton in Hr as ->. by exists e.
Qed.

(** The terms seen are those of the entries that pass the checks. *)
Lemma post_process_seen refs σ x :
  NoDup refs →
  x ∈ seen_terms (post_process_entries refs σ)
  ↔ ∃ r e, r ∈ refs ∧ σ !! r = Some e ∧ admissible e = true ∧ lower (term e) = x.
Proof.
  revert x. induction refs as [|r0 refs IH] using rev_ind; intros x Hnd.
  - split; [set_solver|]. intros (r & e & Hr & _). inversion Hr.
  - apply NoDup_app in Hnd as (Hnd & Hfresh & _).
    assert (Hr0 : r0 ∉ refs).
    { intros Hin. apply (Hfresh r0 Hin). by apply list_elem_of_singleton. }
    rewrite post_process_entries_snoc.
    pose proof (post_process_unprocessed refs σ r0 Hr0) as Hheap.
    set (st := post_process_entries refs σ) in *.
    assert (Hold : x ∈ seen_terms st →
      ∃ r e, r ∈ refs ++ [r0] ∧ σ !! r = Some e ∧ admissible e = true
             ∧ lower (term e) = x).
    { intros Hx. apply IH in Hx as (r & e & Hr & He); [|done].
      exists r, e. split; [|done]. apply elem_of_app. by left. }
    destruct (step_cases st r0)
      as [[-> Hwhy]|[(e & He & Hadm & Hx & ->)|(e & He & Hadm & Hx & ->)]];
      cbn [seen_terms].
    + split; [done|]. intros (r & e & Hr & He & Hadm & Hx).
      apply elem_of_app in Hr as [Hr|Hr]; [apply IH; [done|]; by exists r, e|].
      apply list_elem_of_singleton in Hr as ->. rewrite Hheap, He in Hwhy.
      destruct Hwhy as [?|(e' & ? & ?)]; [done|]. simplify_eq. congruence.
    + split; [done|]. intros (r & e' & Hr & He' & Hadm' & Hx').
      apply elem_of_app in Hr as [Hr|Hr]; [apply IH; [done|]; by exists r, e'|].
      apply list_elem_of_singleton in Hr as ->. rewrite Hheap in He. by simplify_eq.
    + rewrite elem_of_union, elem_of_singleton. split.
      * intros [->|Hx']; [|by apply Hold]. exists r0, e.
        split; [apply elem_of_app; right; by apply list_elem_of_singleton|].
        by rewrite <- Hheap.
      * intros (r & e' & Hr & He' & Hadm' & Hx').
        apply elem_of_app in Hr as [Hr|Hr]; [right; apply IH; [done|]; by exists r, e'|].
        apply list_elem_of_singleton in Hr as ->. rewrite Hheap in He. left. by simplify_eq.
Qed.

Lemma post_process_kept_iff σ l1 r l2 e :
  NoDup (l1 ++ r :: l2) → σ !! r = Some e →
  r ∈ cleaned (post_process_entries (l1 ++ r :: l2) σ)
  ↔ admissible e = true
    ∧ ∀ r' e', r' ∈ l1 → σ !! r' = Some e' → admissible e' = true →
               lower (term e') ≠ lower (term e).
Proof.
  intros Hnd He. apply NoDup_app in Hnd as (Hnd1 & Hfresh & Hnd2).
  apply NoDup_cons in Hnd2 as [Hr2 _].
  assert (Hr1 : r ∉ l1) by (intros Hin; apply (Hfresh r Hin); left).
  unfold post_process_entries. rewrite foldl_app. cbn [foldl].
  rewrite foldl_cleaned_other by done.
  fold (post_process_entries l1 σ).
  pose proof (post_process_unprocessed l1 σ r Hr1) as Hheap. rewrite He in Hheap.
  pose proof (post_process_seen l1 σ (lower (term e)) Hnd1) as Hseen.
  assert (Hout : r ∉ cleaned (post_process_entries l1 σ)).
  { intros Hin. apply Hr1. eapply elem_of_sublist; [done|apply post_process_sublist]. }
  set (st := post_process_entries l1 σ) in *.
  destruct (step_cases st r)
    as [[-> Hwhy]|[(e0 & He0 & Hadm & Hx & ->)|(e0 & He0 & Hadm & Hx & ->)]];
    cbn [cleaned].
  - split; [done|]. intros [Hadm _]. rewrite Hheap in Hwhy.
    destruct Hwhy as [?|(e' & ? & ?)]; [done|]. simplify_eq. congruence.
  - split; [done|]. intros [_ Hnew]. simplify_eq.
    apply Hseen in Hx as (r' & e' & Hr' & He' & Hadm' & Hx'). by destruct (Hnew r' e').
  - simplify_eq. split; [|intros _; apply elem_of_app; right; by apply list_elem_of_singleton].
    intros _. split; [done|]. intros r' e' Hr' He' Hadm' Hx'.
    apply Hx. apply Hseen. by exists r', e'.
Qed.

(** ** Post-processing its own result *)

Lemma readmit σ l :
  ∀ c s,
  NoDup l →
  (∀ r, r ∈ l → ∃ e, σ !! r = Some e ∧ admissible e = true ∧ lower (term e) ∉ s) →
  (∀ r1 r2 e1 e2, r1 ∈ l → r2 ∈ l → σ !! r1 = Some e1 → σ !! r2 = Some e2 →
                  lower (term e1) = lower (term e2) → r1 = r2) →
  ∃ s', foldl post_process_step (PP c s σ) l = PP (c ++ l) s' σ
        ∧ ∀ x, x ∈ s' ↔ x ∈ s ∨ ∃ r e, r ∈ l ∧ σ !! r = Some e ∧ lower (term e) = x.
Proof.
  induction l as [|r l IH]; intros c s Hnd Hadm Huniq.
  - exists s. rewrite app_nil_r. split; [done|]. intros x. split; [by left|].
    intros [?|(r & e & Hr & _)]; [done|inversion Hr].
  - apply NoDup_cons in Hnd as [Hr Hnd].
    destruct (Hadm r) as (e & He & Hae & Hse); [left|]. cbn [foldl].
    rewrite (step_admitted (PP c s σ) r e He Hae). cbn [seen_terms cleaned heap].
    rewrite bool_decide_eq_false_2 by done.
    destruct (IH (c ++ [r]) ({[lower (term e)]} ∪ s)) as (s' & -> & Hs'); [done| | |].
    + intros r' Hr'. destruct (Hadm r') as (e' & He' & Hae' & Hse'); [by right|].
      exists e'. split; [done|]. split; [done|].
      rewrite not_elem_of_union, not_elem_of_singleton. split; [|done].
      intros Heq. assert (r' = r); [|by subst].
      apply (Huniq r' r e' e); [by right|left|done|done|done].
    + intros r1 r2 e1 e2 H1 H2. apply Huniq; by right.
    + exists s'. rewrite <- app_assoc. split; [done|]. intros x. rewrite Hs'.
      rewrite elem_of_union, elem_of_singleton. split.
      * intros [[->|Hx]|(r' & e' & Hr' & He')]; [right|by left|right].
        -- exists r, e. split; [left|done].
        -- exists r', e'. split; [by right|done].
      * intros [Hx|(r' & e' & Hr' & He' & Hx)]; [by left; right|].
        apply elem_of_cons in Hr' as [->|Hr'].
        -- left; left. by simplify_eq.
        -- right. by exists r', e'.
Qed.

Lemma post_process_again refs σ :
  let st := post_process_entries refs σ in
  post_process_entries (cleaned st) (heap st) = st.
Proof.
  cbv zeta. pose proof (post_process_inv refs σ) as (Hnd & Hin & Hseen & Huniq).
  pose proof (post_process_admissible refs σ) as Hadm.
  destruct (post_process_entries refs σ) as [c s h]. cbn [cleaned seen_terms heap] in *.
  destruct (readmit h c [] ∅ Hnd) as (s' & Hrun & Hs').
  - intros r Hr. destruct (Hadm r Hr) as (e & He & Hae). exists e. set_solver.
  - intros r1 r2 e1 e2. apply Huniq.
  - unfold post_process_entries. rewrite Hrun. cbn [app]. f_equal.
    apply set_eq. intros x. rewrite Hs'. split.
    + intros [?|(r & e & Hr & He & <-)]; [set_solver|].
      destruct (Hin r Hr) as (e' & He' & Hx). by simplify_eq.
    + intros Hx. right. destruct (Hseen x Hx) as (p & ep & Hp & Hep & Ht).
      by exists p, ep.
Qed.

End WholeRun.

(** ** The result of post-processing *)

Section PostProcessed.
Context {ucd : UnicodeData}.

(** What holds of every entry of the store and is kept by a merge holds of
    every entry of the store in the end. *)
Lemma post_process_heap_ind (Q : entry → Prop) σ refs :
  (∀ r e, σ !! r = Some e → Q e) →
  (∀ ep e, Q ep → Q e → Q (append_definition ep (py " " ++ definition e))) →
  ∀ r e, heap (post_process_entries refs σ) !! r = Some e → Q e.
Proof.
  intros Hσ Hmerge. induction refs as [|r0 refs IH] using rev_ind; [exact Hσ|].
  rewrite post_process_entries_snoc.
  set (st := post_process_entries refs σ) in *.
  destruct (step_cases st r0)
    as [[-> _]|[(e0 & He0 & _ & _ & ->)|(e0 & He0 & _ & _ & ->)]]; [done| |done].
  cbn [heap]. intros r e.
  destruct (merge_into_lookup (reverse (cleaned st)) (lower (term e0)) (definition e0)
              (heap st) r) as [->|(_ & ep & Hep & ->)]; [apply IH|].
  intros [= <-]. apply Hmerge; [by apply (IH r)|by apply (IH r0)].
Qed.

Lemma omap_sublist {A B} (f : A → option B) l1 l2 :
  l1 `sublist_of` l2 → omap f l1 `sublist_of` omap f l2.
Proof.
  induction 1 as [|x l1 l2 _ IH|x l1 l2 _ IH]; cbn [omap list_omap]; [done| |].
  - destruct (f x); [by constructor|done].
  - destruct (f x); [by constructor|done].
Qed.

Lemma StronglySorted_sublist {A} (R : A → A → Prop) l1 l2 :
  l1 `sublist_of` l2 → StronglySorted R l2 → StronglySorted R l1.
Proof.
  induction 1 as [|x l1 l2 Hsub IH|x l1 l2 Hsub IH]; [done| |].
  - intros [Hall Hs]%StronglySorted_cons. constructor; [by apply IH|].
    apply Forall_forall. intros y Hy. apply (proj1 (Forall_forall _ _) Hall).
    by eapply elem_of_sublist.
  - intros [_ Hs]%StronglySorted_cons. by apply IH.
Qed.

Lemma omap_lookup_seq {A} (pre es : list A) :
  omap (λ i, (pre ++ es) !! i) (seq (length pre) (length es)) = es.
Proof.
  revert pre. induction es as [|e es IH]; intros pre; [done|].
  cbn [length seq omap list_omap]. rewrite list_lookup_middle by done.
  f_equal. specialize (IH (pre ++ [e])).
  rewrite <- app_assoc, length_app, Nat.add_1_r in IH. exact IH.
Qed.

Lemma deref_map_seq (es : list entry) :
  deref (map_seq 0 es) (seq 0 (length es)) = es.
Proof.
  unfold deref.
  trans (omap (λ i, ([] ++ es) !! i) (seq (length (@nil entry)) (length es)));
    [|apply omap_lookup_seq].
  cbn [length app]. generalize (seq 0 (length es)). intros l.
  induction l as [|j l IH]; [done|].
  cbn [omap list_omap]. by rewrite lookup_map_seq_0, IH.
Qed.

Lemma deref_elem σ l e : e ∈ deref σ l ↔ ∃ r, r ∈ l ∧ σ !! r = Some e.
Proof. unfold deref. apply list_elem_of_omap. Qed.

Lemma deref_labels refs σ l :
  map label (deref (heap (post_process_entries refs σ)) l) = map label (deref σ l).
Proof.
  unfold deref. induction l as [|r l IH]; [done|]. cbn [omap list_omap].
  destruct (post_process_lookup refs σ r) as [Hn Hs].
  destruct (σ !! r) as [e|] eqn:He.
  - destruct (Hs e eq_refl) as (e' & -> & (Ht & Hp & Hx & _) & _).
    cbn [map]. rewrite IH. f_equal. unfold label. by rewrite Ht, Hp, Hx.
  - by rewrite Hn.
Qed.

Lemma pipeline_labels_sublist doc :
  map label (pipeline doc) `sublist_of` map label (extract_entries doc).
Proof.
  unfold pipeline. cbv zeta. rewrite deref_labels. apply fmap_sublist.
  set (es := extract_entries doc).
  trans (deref (map_seq 0 es) (seq 0 (length es))); [|by rewrite deref_map_seq].
  unfold deref. apply omap_sublist, post_process_sublist.
Qed.

Lemma pipeline_elem doc e :
  e ∈ pipeline doc →
  admissible e = true ∧ ∃ e0, e0 ∈ extract_entries doc ∧ extends e0 e.
Proof.
  unfold pipeline. cbv zeta. set (es := extract_entries doc).
  intros (r & Hr & He)%deref_elem. split.
  - destruct (post_process_admissible _ _ r Hr) as (e' & He' & Hadm). congruence.
  - destruct (post_process_lookup (seq 0 (length es)) (map_seq 0 es) r) as [Hn Hs].
    destruct (map_seq 0 es !! r) as [e0|] eqn:H0.
    + destruct (Hs e0 eq_refl) as (e' & He' & Hext & _). exists e0.
      split; [|congruence]. rewrite lookup_map_seq_0 in H0.
      by eapply list_elem_of_lookup_2.
    + rewrite Hn in He; done.
Qed.

Lemma deref_NoDup {B} (f : entry → B) σ l :
  NoDup l →
  (∀ r1 r2 e1 e2, r1 ∈ l → r2 ∈ l → σ !! r1 = Some e1 → σ !! r2 = Some e2 →
                  f e1 = f e2 → r1 = r2) →
  NoDup (map f (deref σ l)).
Proof.
  unfold deref. induction l as [|r l IH]; intros Hnd Huniq; [constructor|].
  apply NoDup_cons in Hnd as [Hr Hnd]. cbn [omap list_omap].
  assert (Hrest : NoDup (map f (omap (λ r, σ !! r) l))).
  { apply IH; [done|]. intros r1 r2 e1 e2 H1 H2. apply Huniq; by right. }
  destruct (σ !! r) as [e|] eqn:He; [|done]. cbn [map].
  apply NoDup_cons. split; [|done].
  intros (e' & Hf & (r' & Hr' & He')%list_elem_of_omap)%list_elem_of_fmap.
  apply Hr. replace r with r'; [done|].
  apply (Huniq r' r e' e); [by right|left|done|done|done].
Qed.

(** X12: post-processing never removes an entry from the store, never
    creates one and never changes a term, a page or a cross-reference
    flag; a definition only grows at its end, and only the definitions of
    accepted entries grow. *)
Theorem post_process_frame (σ : gmap ref entry) (refs : list ref) (q : ref) :
  let st := post_process_entries refs σ in
  (σ !! q = None → heap st !! q = None)
  ∧ ∀ e, σ !! q = Some e →
         ∃ e', heap st !! q = Some e' ∧ extends e e' ∧ (q ∉ cleaned st → e' = e).
Proof. apply post_process_lookup. Qed.

(** X13: every accepted entry passes all the checks in the end, after
    every merge into it. *)
Theorem accepted_entries_admissible (σ : gmap ref entry) (refs : list ref) (r : ref) :
  let st := post_process_entries refs σ in
  r ∈ cleaned st → ∃ e, heap st !! r = Some e ∧ admissible e = true.
Proof. apply post_process_admissible. Qed.

(** X14: when no entry stands twice in the input, an entry is accepted
    exactly when it passes the checks and no earlier entry that passes
    them has its term, letter case apart. *)
Theorem first_admissible_kept (σ : gmap ref entry) (l1 l2 : list ref) (r : ref)
    (e : entry) :
  NoDup (l1 ++ r :: l2) → σ !! r = Some e →
  r ∈ cleaned (post_process_entries (l1 ++ r :: l2) σ)
  ↔ admissible e = true
    ∧ ∀ r' e', r' ∈ l1 → σ !! r' = Some e' → admissible e' = true →
               lower (term e') ≠ lower (term e).
Proof. apply post_process_kept_iff. Qed.

(** X15: post-processing the result of post-processing changes nothing: no
    entry is dropped or merged, and the state at the end is the same. *)
Theorem post_process_idempotent (σ : gmap ref entry) (refs : list ref) :
  let st := post_process_entries refs σ in
  post_process_entries (cleaned st) (heap st) = st.
Proof. apply post_process_again. Qed.

(** X16: the terms, pages and cross-reference flags of the final entries
    are those of extracted entries, in the order of the extraction; so the
    pages of the final entries never decrease. *)
Theorem pipeline_labels (doc : list (list block)) :
  map label (pipeline doc) `sublist_of` map label (extract_entries doc)
  ∧ StronglySorted le (map page (pipeline doc)).
Proof.
  split; [apply pipeline_labels_sublist|].
  apply (StronglySorted_sublist _ _ (map page (extract_entries doc))).
  - assert (Hpage : ∀ l, map page l = map (λ x : pystr * nat * bool, x.1.2) (map label l)).
    { intros l. rewrite <- list_fmap_compose. done. }
    rewrite !Hpage. apply fmap_sublist, pipeline_labels_sublist.
  - rewrite extract_entries_pages.
    apply heading_pages_sorted, stream_pages_sorted.
Qed.

(** X17: every final entry passes all the checks of the post-processor,
    and is an extracted entry whose definition the merges have extended,
    with a term of the shape that the detector yields. *)
Theorem pipeline_entries (doc : list (list block)) (e : entry) :
  e ∈ pipeline doc →
  admissible e = true
  ∧ term_shape (term e)
  ∧ ∃ e0, e0 ∈ extract_entries doc ∧ extends e0 e.
Proof.
  intros He. destruct (pipeline_elem doc e He) as (Hadm & e0 & H0 & Hext).
  split; [done|]. split; [|by exists e0].
  destruct (extract_entries_term_detected doc e0 H0) as (p & b & _ & Hb).
  apply block_heading_detect, detect_term_shape in Hb.
  destruct Hext as (-> & _). done.
Qed.

(** X18: no two final entries have the same term, letter case apart. *)
Theorem pipeline_terms_unique (doc : list (list block)) :
  NoDup (map (λ e, lower (term e)) (pipeline doc)).
Proof.
  unfold pipeline. cbv zeta.
  destruct (post_process_inv (seq 0 (length (extract_entries doc)))
              (map_seq 0 (extract_entries doc))) as (Hnd & _ & _ & Huniq).
  by apply deref_NoDup.
Qed.

(** X19: the definitions of the final entries hold no soft hyphen and no
    whitespace other than the space, as those of the extracted entries;
    and one that is no cross-reference has ten characters at least. *)
Theorem pipeline_definitions (doc : list (list block)) (e : entry) :
  e ∈ pipeline doc →
  (∀ c, c ∈ definition e → (c ∉ soft_hyphen) ∧ (isspace c = true → c = chr " "))
  ∧ (is_cross_ref e = false → 10 ≤ length (definition e)).
Proof.
  intros He. split.
  - revert He. unfold pipeline. cbv zeta. intros (r & _ & He)%deref_elem.
    refine (post_process_heap_ind
              (λ e, ∀ c, c ∈ definition e →
                         (c ∉ soft_hyphen) ∧ (isspace c = true → c = chr " "))
              _ _ _ _ r e He); clear r e He.
    + intros r e He c Hc. rewrite lookup_map_seq_0 in He.
      apply list_elem_of_lookup_2 in He.
      destruct (extract_entries_cleaned doc e He) as [_ [text Ht]].
      rewrite Ht in Hc. by apply (clean_definition_chars text).
    + intros ep e Hep He c. cbn [append_definition definition].
      rewrite !elem_of_app. intros [Hc|[Hc|Hc]]; [by apply Hep| |by apply He].
      apply list_elem_of_singleton in Hc as ->. split; [|done].
      unfold soft_hyphen. rewrite list_elem_of_singleton. done.
  - destruct (pipeline_elem doc e He) as (Hadm & _). intros Hx.
    unfold admissible in Hadm. rewrite Hx in Hadm.
    rewrite !andb_true_iff in Hadm. destruct Hadm as (((((_ & H2) & _) & _) & _) & _).
    rewrite andb_true_r in H2. apply negb_true_iff, Nat.ltb_ge in H2. lia.
Qed.

End PostProcessed.

(** ** The output of [main] and the slugs of the page *)

Section Output.
Context {ucd : UnicodeData}.

Lemma filter_partition_length {A} (p : A → bool) (l : list A) :
  length l = length (List.filter (λ x, negb (p x)) l) + length (List.filter p l).
Proof.
  induction l as [|x l IH]; [done|]. cbn [List.filter].
  destruct (p x); cbn [negb length]; lia.
Qed.

(** X20: the counts in the metadata that [main] writes add up: the total
    is the number of final entries, the sum of the definitions and the
    cross-references, and at most the number of headings detected. *)
Theorem metadata_counts (doc : list (list block)) :
  let m := (main_data doc).1 in
  total_entries m = length (main_data doc).2
  ∧ total_entries m = entries_with_definitions m + cross_references m
  ∧ total_entries m ≤ length (headings doc).
Proof.
  cbv zeta. unfold main_data. cbn [fst snd total_entries entries_with_definitions
                                   cross_references].
  split; [done|]. split; [apply filter_partition_length|].
  rewrite <- extract_entries_terms, length_map.
  rewrite <- (length_map label (pipeline doc)), <- (length_map label (extract_entries doc)).
  apply sublist_length, pipeline_labels_sublist.
Qed.

Lemma elem_of_sub_runs_go p rep b s c :
  c ∈ sub_runs_go p rep b s → (c ∈ s ∧ p c = false) ∨ c ∈ rep.
Proof.
  revert b. induction s as [|x s IH]; intros b; [intros H; inversion H|].
  cbn [sub_runs_go]. destruct (p x) eqn:Hp.
  - destruct b.
    + intros [[H ?]|H]%IH; [left; split; [by right|done]|by right].
    + rewrite elem_of_app. intros [H|[[H ?]|H]%IH];
        [by right|left; split; [by right|done]|by right].
  - intros [->|[[H ?]|H]%IH]%elem_of_cons;
      [left; split; [left|done]|left; split; [by right|done]|by right].
Qed.

Lemma sub_runs_go_hyphens p b s :
  p (chr "-") = true →
  single_hyphens (sub_runs_go p (py "-") b s)
  ∧ (b = true → head (sub_runs_go p (py "-") b s) ≠ Some (chr "-")).
Proof.
  intros Hp. revert b. induction s as [|x s IH]; intros b; [done|].
  cbn [sub_runs_go]. destruct (p x) eqn:Hx.
  - destruct b; [apply IH|]. destruct (IH true) as [Hs Hh].
    split; [|done]. change (py "-" ++ ?u) with (chr "-" :: u).
    cbn [single_hyphens]. split; [|done].
    destruct (sub_runs_go p (py "-") true s) as [|d u]; [done|].
    intros [_ ->]. by apply Hh.
  - destruct (IH false) as [Hs _].
    assert (Hne : x ≠ chr "-") by (intros ->; congruence).
    split; [|intros _ [= ?]; done]. cbn [single_hyphens]. split; [|done].
    destruct (sub_runs_go p (py "-") false s); [done|]. by intros [? _].
Qed.

Lemma single_hyphens_app l1 l2 :
  single_hyphens (l1 ++ l2) → single_hyphens l1 ∧ single_hyphens l2.
Proof.
  induction l1 as [|c l1 IH]; [done|]. cbn [app single_hyphens].
  intros [Hc Hs]. destruct (IH Hs) as [H1 H2]. split; [|done]. split; [|done].
  destruct l1; [done|]. exact Hc.
Qed.

Lemma strip_chars_head chars s c :
  head (strip_chars chars s) = Some c → c ∉ chars.
Proof.
  unfold strip_chars. intros Hh.
  destruct (rstrip_by_prefix (char_in chars) (lstrip_by (char_in chars) s)) as [k Hk].
  destruct (rstrip_by (char_in chars) (lstrip_by (char_in chars) s)) as [|x u] eqn:Hu;
    [done|].
  cbn in Hh. injection Hh as ->.
  assert (Hc : char_in chars c = false).
  { apply (lstrip_by_head (char_in chars) s). by rewrite Hk. }
  unfold char_in in Hc. by apply bool_decide_eq_false in Hc.
Qed.

Lemma strip_chars_last chars s c :
  last (strip_chars chars s) = Some c → c ∉ chars.
Proof.
  intros Hc%rstrip_by_last. unfold char_in in Hc. by apply bool_decide_eq_false in Hc.
Qed.

(** X21: a slug is made of the letters a to z, the digits and the hyphen
    alone, neither begins nor ends with a hyphen, and holds no two hyphens
    side by side, whatever the text. *)
Theorem slugify_shape (text : pystr) : slug_shape (slugify text).
Proof.
  unfold slugify. cbv zeta. set (s := strip (lower text)).
  assert (Hp : negb (slug_char (chr "-")) = true) by reflexivity.
  split; [|split; [|split]].
  - apply Forall_forall. intros c Hc. unfold strip_chars in Hc.
    apply elem_of_rstrip_by, elem_of_lstrip_by in Hc.
    apply elem_of_sub_runs_go in Hc as [[_ Hc]|Hc].
    + left. by apply negb_false_iff.
    + right. by apply list_elem_of_singleton in Hc.
  - intros Hh%strip_chars_head. apply Hh. by apply list_elem_of_singleton.
  - intros Hl%strip_chars_last. apply Hl. by apply list_elem_of_singleton.
  - destruct (sub_runs_go_hyphens (λ c, negb (slug_char c)) false s Hp) as [Hs _].
    unfold strip_chars, sub_runs.
    set (u := sub_runs_go _ _ false s) in *.
    destruct (lstrip_by_suffix (char_in (py "-")) u) as [k1 Hk1].
    destruct (rstrip_by_prefix (char_in (py "-")) (lstrip_by (char_in (py "-")) u))
      as [k2 Hk2].
    rewrite Hk1 in Hs. apply single_hyphens_app in Hs as [_ Hs].
    rewrite Hk2 in Hs. by apply single_hyphens_app in Hs as [Hs _].
Qed.

(** X22: cleaning a text that holds no soft hyphen a second time changes
    nothing. *)
Theorem clean_definition_idempotent_plain (s : pystr) :
  (∀ c, c ∈ soft_hyphen → c ∉ s) →
  clean_definition (clean_definition s) = clean_definition s.
Proof. apply clean_definition_idemp_without_soft_hyphen. Qed.

End Output.

(** ** No definition is lost *)

Section Kept.
Context {ucd : UnicodeData}.

Lemma foldl_step_extends l st p ep :
  p ∈ cleaned st → heap st !! p = Some ep →
  let st' := foldl post_process_step st l in
  p ∈ cleaned st' ∧ ∃ ep', heap st' !! p = Some ep' ∧ extends ep ep'.
Proof.
  cbv zeta. revert st ep. induction l as [|r l IH]; intros st ep Hp Hep.
  - split; [done|]. exists ep. split; [done|apply extends_refl].
  - cbn [foldl]. pose proof (step_cleaned_mono st r p Hp) as Hp'.
    destruct (step_lookup st r p) as [Hsame|(_ & e0 & e1 & H0 & H1 & Hext)].
    + rewrite <- Hsame in Hep. apply (IH _ _ Hp' Hep).
    + destruct (IH _ _ Hp' H1) as (Hin & ep' & Hep' & Hext'). split; [done|].
      exists ep'. split; [done|]. apply (extends_trans ep e1 ep'); [|done].
      congruence.
Qed.

Lemma step_keeps_definition l1 r σ e :
  NoDup (l1 ++ [r]) → σ !! r = Some e → admissible e = true →
  let st' := post_process_step (post_process_entries l1 σ) r in
  ∃ p ep, p ∈ cleaned st' ∧ heap st' !! p = Some ep
          ∧ lower (term ep) = lower (term e)
          ∧ ∃ a, definition ep = a ++ definition e.
Proof.
  cbv zeta. intros Hnd He Hadm. apply NoDup_app in Hnd as (_ & Hfresh & _).
  assert (Hr : r ∉ l1).
  { intros Hin. apply (Hfresh r Hin). by apply list_elem_of_singleton. }
  pose proof (post_process_unprocessed l1 σ r Hr) as Hheap. rewrite He in Hheap.
  pose proof (post_process_inv l1 σ) as Hinv.
  set (st := post_process_entries l1 σ) in *.
  destruct (decide (lower (term e) ∈ seen_terms st)) as [Hx|Hx].
  - destruct (merge_step st r e Hinv Hheap Hadm Hx) as (p & ep & Hp & Hep & Ht & ->).
    exists p, (merged ep e). cbn [cleaned heap]. split; [done|].
    split; [apply lookup_insert_eq|]. split; [done|].
    exists (definition ep ++ py " "). cbn [merged definition]. by rewrite <- app_assoc.
  - rewrite (step_admitted st r e Hheap Hadm), bool_decide_eq_false_2 by done.
    exists r, e. cbn [cleaned heap].
    split; [apply elem_of_app; right; by apply list_elem_of_singleton|].
    split; [done|]. split; [done|]. by exists [].
Qed.

(** X23: no definition is lost: when no entry stands twice in the input,
    the definition of every entry that passes the checks stands, whole, in
    the final definition of the accepted entry with its term, letter case
    apart. *)
Theorem admissible_definitions_kept (σ : gmap ref entry) (refs : list ref) (r : ref)
    (e : entry) :
  let st := post_process_entries refs σ in
  NoDup refs → r ∈ refs → σ !! r = Some e → admissible e = true →
  ∃ p ep, p ∈ cleaned st ∧ heap st !! p = Some ep
          ∧ lower (term ep) = lower (term e)
          ∧ ∃ a b, definition ep = a ++ definition e ++ b.
Proof.
  cbv zeta. intros Hnd Hr He Hadm.
  apply list_elem_of_split in Hr as (l1 & l2 & ->).
  assert (Hnd1 : NoDup (l1 ++ [r])).
  { replace (l1 ++ r :: l2) with ((l1 ++ [r]) ++ l2) in Hnd by by rewrite <- app_assoc.
    by apply NoDup_app in Hnd as [? _]. }
  destruct (step_keeps_definition l1 r σ e Hnd1 He Hadm)
    as (p & ep & Hp & Hep & Ht & a & Ha).
  unfold post_process_entries. rewrite foldl_app. cbn [foldl].
  fold (post_process_entries l1 σ).
  destruct (foldl_step_extends l2 _ p ep Hp Hep)
    as (Hin & ep' & Hep' & Ht' & _ & _ & [b Hb]).
  exists p, ep'. split; [done|]. split; [done|]. split; [congruence|].
  exists a, b. by rewrite Hb, Ha, <- app_assoc.
Qed.

End Kept.

(** ** The term and the beginning of the line *)

Section Opening.
Context {ucd : UnicodeData}.

Lemma term_of_prefix m c g :
  group 1 m = c :: g → ascii_letter c = true → term_of m `prefix_of` group 1 m.
Proof.
  intros Hg Hc. unfold term_of, rstrip. etrans; [apply rstrip_by_prefix|].
  unfold strip. etrans; [apply rstrip_by_prefix|].
  rewrite Hg. cbn [lstrip_by]. by rewrite (ascii_letter_not_space c Hc).
Qed.

Lemma lower_term_opens tail line m :
  no_group 1 tail →
  re_match (Bol >> re_lower_term >> tail) line = Some m →
  opens (term_of m) line.
Proof.
  intros Hno Hm. unfold re_lower_term in Hm.
  destruct (match_group1_head _ _ _ _ _ Hno Hm) as (c & g & Hg & Hc).
  destruct (match_group1 (λ _, True) _ _ _ _ Hno Hm) as (w2 & s' & Hline & _).
  assert (Hl : ascii_letter c = true) by (unfold ascii_letter; by rewrite Hc).
  destruct (term_of_head m c g Hg Hl) as [t' Ht'].
  exists c, (g ++ w2 ++ s'), t'. split; [by rewrite Hline, Hg|].
  split; [done|]. split; [done|]. intros _.
  etrans; [by apply (term_of_prefix m c g)|]. rewrite Hline. by apply prefix_app_r.
Qed.

Lemma upper_not_lower c : upper_AZ c = true → lower_az c = false.
Proof.
  intros Hu%in_range_bounds. apply not_true_is_false. intros Hl%in_range_bounds.
  change (chr "A") with 65%N in Hu. change (chr "Z") with 90%N in Hu.
  change (chr "a") with 97%N in Hl. change (chr "z") with 122%N in Hl. lia.
Qed.

Lemma pattern2_opens line t : pattern2 line = Some t → opens t line.
Proof.
  unfold pattern2. destruct (re_match re_pattern2 line) as [m|] eqn:Hm; [|done].
  destruct (_ && _); [|done]. destruct (negb _); [|done].
  destruct (_is_valid_term _); [|done].
  intros Ht. apply (inj Some) in Ht. subst t. unfold re_pattern2 in Hm.
  assert (Hno : no_group 1
            (plus isspace >> Grp 2 (Cls upper_AZ >> Cls lower_az >> star dot)))
    by (cbn; repeat split; lia).
  destruct (capitalized_group _ _ _ _ Hno Hm) as (c1 & c2 & g & Hg & Hc1 & Hc2).
  destruct (match_group1 (λ _, True) _ _ _ _ Hno Hm) as (w2 & s' & Hline & _).
  assert (Hl1 : ascii_letter c1 = true) by (unfold ascii_letter; by rewrite Hc1, orb_true_r).
  assert (Hl2 : ascii_letter c2 = true) by (unfold ascii_letter; by rewrite Hc2).
  assert (Hraw : strip (group 1 m) = c1 :: c2 :: rstrip_by isspace g).
  { rewrite Hg, strip_cons_letter by done.
    by rewrite rstrip_by_cons_keep by by apply ascii_letter_not_space. }
  destruct (split_cons2 c1 c2 (rstrip_by isspace g)) as (w0 & ws & Hsplit);
    [by apply ascii_letter_not_space..|].
  destruct (trimmed_parts_head (c1 :: c2 :: w0) ws) as [ps Hparts].
  unfold pystr in *. rewrite Hraw, Hsplit, Hparts.
  exists c1, (c2 :: g ++ w2 ++ s').
  assert (Hjoin : ∃ t', join (py " ") ((c1 :: c2 :: w0) :: ps) = c1 :: t')
    by (destruct ps as [|p1 ps]; cbn [join]; eauto).
  destruct Hjoin as [t' Ht']. exists t'.
  split; [by rewrite Hline, Hg|]. split; [done|]. split; [done|].
  intros Hlow. by rewrite (upper_not_lower c1 Hc1) in Hlow.
Qed.

Lemma pattern1_opens line t : pattern1 line = Some t → opens t line.
Proof.
  unfold pattern1. destruct (re_match re_pattern1 line) as [m|] eqn:Hm; [|done].
  destruct (_ && _); [|done]. destruct (_is_valid_term _); [|done].
  intros [= <-]. eapply lower_term_opens; [|exact Hm]. cbn. repeat split; lia.
Qed.

Lemma pattern1b_opens line t : pattern1b line = Some t → opens t line.
Proof.
  unfold pattern1b. destruct (re_match re_pattern1b line) as [m|] eqn:Hm; [|done].
  destruct (matched _); [|done]. destruct (_ && _); [|done].
  intros [= <-]. eapply lower_term_opens; [|exact Hm]. cbn. repeat split; lia.
Qed.

Lemma pattern3_opens line t : pattern3 line = Some t → opens t line.
Proof.
  unfold pattern3. destruct (re_match re_pattern3 line) as [m|] eqn:Hm; [|done].
  destruct (_ && _); [|done].
  intros [= <-]. eapply lower_term_opens; [|exact Hm]. cbn. repeat split; lia.
Qed.

Lemma pattern4_opens line t : pattern4 line = Some t → opens t line.
Proof.
  unfold pattern4. destruct (re_match re_pattern4 line) as [m|] eqn:Hm; [|done].
  destruct (_ && _); [|done].
  intros [= <-]. eapply lower_term_opens; [|exact Hm]. cbn. repeat split; lia.
Qed.

(** X24: a detected term begins with the first character of the stripped
    line, an ASCII letter, so that a line that begins otherwise is never a
    heading; and a term in small letters is the very beginning of the
    stripped line, so that the text cut off after it is the rest of the
    line. *)
Theorem detected_term_opens_line (first_line t : pystr) :
  detect_entry_heading first_line = Some t → opens t (strip first_line).
Proof.
  unfold detect_entry_heading. destruct (length _ <? 5); [done|].
  unfold or_else.
  destruct (pattern1 _) eqn:H1; [intros [= <-]; by apply pattern1_opens|].
  destruct (pattern1b _) eqn:H1b; [intros [= <-]; by apply pattern1b_opens|].
  destruct (pattern2 _) eqn:H2; [intros [= <-]; by apply pattern2_opens|].
  destruct (pattern3 _) eqn:H3; [intros [= <-]; by apply pattern3_opens|].
  apply pattern4_opens.
Qed.

End Opening.

(** ** The entries, heading by heading *)

Section Groups.
Context {ucd : UnicodeData}.

Lemma process_block_heading_eq p a b t :
  block_heading b = Some t →
  process_block p a b = Acc (finalize a) (Some t) (heading_lines b t) p.
Proof.
  unfold block_heading, reaches_detection, process_block, heading_lines.
  destruct (type b =? 0)%Z; [|done]. cbn [negb andb].
  destruct (nonempty (strip (get_block_text b))); [|done]. cbn [negb andb].
  destruct (nonempty (get_block_first_line b)); [|done]. cbn [negb andb].
  destruct (is_running_header _); [done|]. cbn [negb andb].
  destruct (is_page_number _); [done|]. cbn [negb].
  destruct (truthy _); [|done]. by intros ->.
Qed.

Lemma process_block_continuation_eq p a b :
  block_heading b = None →
  process_block p a b =
    match current_term a with
    | Some _ => Acc (entries a) (current_term a)
                    (current_definition_lines a ++ continuation_lines b)
                    (current_page a)
    | None => a
    end.
Proof.
  unfold block_heading, continuation_lines. destruct (reaches_detection b) eqn:Hr.
  - intros Hd. unfold reaches_detection in Hr. unfold process_block.
    rewrite !andb_true_iff in Hr. destruct Hr as ((((-> & ->) & ->) & H4) & H5).
    apply negb_true_iff in H4, H5. rewrite H4, H5. cbn [negb].
    destruct (truthy (detect_entry_heading (get_block_first_line b))) eqn:Ht; [|done].
    destruct (detect_entry_heading (get_block_first_line b)); done.
  - intros _. rewrite process_block_skipped by done.
    destruct a as [es [t|] ls pg]; [|done]. cbn. by rewrite app_nil_r.
Qed.

Lemma finalize_make_entry a t :
  open_entry_ok a → current_term a = Some t →
  finalize a = entries a ++ [make_entry t (current_definition_lines a) (current_page a)].
Proof. apply finalize_open. Qed.

Lemma finalize_foldl_groups s a :
  open_entry_ok a →
  finalize (foldl process_item a s)
  = entries a
    ++ match current_term a with
       | Some t => [make_entry t (current_definition_lines a ++ (group_entries s).1)
                               (current_page a)]
       | None => []
       end
    ++ (group_entries s).2.
Proof.
  revert a. induction s as [|[p b] s IH]; intros a Hok.
  - cbn [foldl group_entries fst snd]. rewrite !app_nil_r.
    destruct (current_term a) as [t|] eqn:Ht.
    + by apply finalize_make_entry.
    + rewrite app_nil_r. by apply finalize_idle.
  - cbn [foldl group_entries]. unfold process_item at 2. cbn [fst snd].
    pose proof (process_block_open p a b Hok) as Hok'.
    rewrite (IH _ Hok'). clear IH.
    destruct (block_heading b) as [t'|] eqn:Hb; cbn [fst snd].
    + rewrite (process_block_heading_eq p a b t' Hb).
      cbn [entries current_term current_definition_lines current_page].
      destruct (current_term a) as [t|] eqn:Ht.
      * rewrite (finalize_make_entry a t Hok Ht), app_nil_r, <- !app_assoc. done.
      * by rewrite (finalize_idle a Ht).
    + rewrite (process_block_continuation_eq p a b Hb).
      destruct (current_term a) as [t|] eqn:Ht; [|by rewrite Ht].
      cbn [entries current_term current_definition_lines current_page].
      by rewrite <- app_assoc.
Qed.

(** X25: the extraction, heading by heading: every heading block yields
    one entry, with its term, the number of its page, and the cleaned text
    of the rest of its first line, its later lines and the lines of the
    blocks up to the next heading, joined by spaces; the blocks before the
    first heading yield nothing. *)
Theorem extract_entries_by_groups (doc : list (list block)) :
  extract_entries doc = (group_entries (stream doc)).2.
Proof.
  unfold extract_entries. rewrite run_blocks_stream.
  by rewrite finalize_foldl_groups.
Qed.

End Groups.

(** ** The further properties on the worked inputs *)

Lemma short_document_no_entries_witness :
  length one_page_doc ≤ DICT_START_PAGE ∧ extract_entries one_page_doc = [].
Proof.
  assert (H : length one_page_doc ≤ DICT_START_PAGE) by (vm_compute; lia).
  split; [exact H|]. exact (short_document_no_entries one_page_doc H).
Defined.

Lemma page_window_witness :
  (∀ i, DICT_START_PAGE ≤ i < DICT_END_PAGE →
        mandrake_doc !! i = front_matter_doc !! i)
  ∧ extract_entries mandrake_doc = extract_entries front_matter_doc.
Proof.
  assert (H : ∀ i, DICT_START_PAGE ≤ i < DICT_END_PAGE →
                   mandrake_doc !! i = front_matter_doc !! i).
  { intros i Hi. unfold mandrake_doc, front_matter_doc.
    rewrite !lookup_app_r by (rewrite length_replicate; lia).
    by rewrite !length_replicate. }
  split; [exact H|]. exact (page_window mandrake_doc front_matter_doc H).
Defined.

Lemma detected_term_bounds_witness :
  detect_entry_heading mandrake_line = Some (py "mandrake")
  ∧ 2 ≤ length (py "mandrake") ≤ 50
  ∧ 5 ≤ length (strip mandrake_line)
  ∧ length (py "mandrake") < length (strip mandrake_line).
Proof.
  assert (H : detect_entry_heading mandrake_line = Some (py "mandrake"))
    by (vm_compute; reflexivity).
  split; [exact H|]. exact (detected_term_bounds mandrake_line (py "mandrake") H).
Defined.

Lemma detected_term_alphabet_witness :
  detect_entry_heading mandrake_line = Some (py "mandrake")
  ∧ (∃ c t', py "mandrake" = c :: t' ∧ ascii_letter c = true)
  ∧ (∀ c, c ∈ py "mandrake" → heading_char c = true)
  ∧ endswith (py ".") (py "mandrake") = false
  ∧ endswith (py ":") (py "mandrake") = false
  ∧ endswith (py ";") (py "mandrake") = false.
Proof.
  assert (H : detect_entry_heading mandrake_line = Some (py "mandrake"))
    by (vm_compute; reflexivity).
  split; [exact H|]. exact (detected_term_alphabet mandrake_line (py "mandrake") H).
Defined.

Lemma extracted_terms_pass_witness :
  see_entry ∈ extract_entries see_doc
  ∧ term_shape (term see_entry)
  ∧ (length (term see_entry) <? 2) = false
  ∧ (endswith (py ".") (term see_entry) || endswith (py ":") (term see_entry)
     || endswith (py ";") (term see_entry)) = false
  ∧ (60 <? length (term see_entry)) = false.
Proof.
  assert (H : see_entry ∈ extract_entries see_doc)
    by (rewrite extract_see_doc; left).
  split; [exact H|]. exact (extracted_terms_pass see_doc see_entry H).
Defined.

Lemma clean_definition_alphabet_witness :
  chr " " ∈ clean_definition tabbed_text
  ∧ (chr " " ∉ soft_hyphen) ∧ (isspace (chr " ") = true → chr " " = chr " ").
Proof.
  assert (H : chr " " ∈ clean_definition tabbed_text).
  { vm_compute. do 3 right. left. }
  split; [exact H|]. exact (clean_definition_alphabet tabbed_text (chr " ") H).
Defined.

Lemma extracted_definitions_witness :
  aureole_entry ∈ extract_entries aureole_doc
  ∧ definition aureole_entry ≠ []
  ∧ ∀ c, c ∈ definition aureole_entry →
         (c ∉ soft_hyphen) ∧ (isspace c = true → c = chr " ").
Proof.
  assert (H : aureole_entry ∈ extract_entries aureole_doc)
    by (rewrite extract_aureole_doc; left).
  split; [exact H|]. exact (extracted_definitions aureole_doc aureole_entry H).
Defined.

Lemma accepted_entries_admissible_witness :
  0 ∈ cleaned (post_process_entries [0; 1; 2] phoenix_store)
  ∧ ∃ e, heap (post_process_entries [0; 1; 2] phoenix_store) !! 0 = Some e
         ∧ admissible e = true.
Proof.
  assert (H : 0 ∈ cleaned (post_process_entries [0; 1; 2] phoenix_store)).
  { vm_compute. left. }
  split; [exact H|].
  exact (accepted_entries_admissible phoenix_store [0; 1; 2] 0 H).
Defined.

Lemma first_admissible_kept_witness :
  NoDup ([0] ++ 1 :: [2]) ∧ phoenix_store !! 1 = Some phoenix_second
  ∧ (1 ∈ cleaned (post_process_entries ([0] ++ 1 :: [2]) phoenix_store)
     ↔ admissible phoenix_second = true
       ∧ ∀ r' e', r' ∈ [0] → phoenix_store !! r' = Some e' → admissible e' = true →
                  lower (term e') ≠ lower (term phoenix_second)).
Proof.
  assert (H1 : NoDup ([0] ++ 1 :: [2])).
  { cbn [app]. repeat (apply NoDup_cons; split;
      [intros Hin; repeat (apply elem_of_cons in Hin as [Hin|Hin]; [discriminate Hin|]);
       inversion Hin|]).
    apply NoDup_nil_2. }
  assert (H2 : phoenix_store !! 1 = Some phoenix_second) by reflexivity.
  split; [exact H1|]. split; [exact H2|].
  exact (first_admissible_kept phoenix_store [0] [2] 1 phoenix_second H1 H2).
Defined.

Lemma pipeline_entries_witness :
  phoenix_entry ∈ pipeline phoenix_doc
  ∧ admissible phoenix_entry = true
  ∧ term_shape (term phoenix_entry)
  ∧ ∃ e0, e0 ∈ extract_entries phoenix_doc ∧ extends e0 phoenix_entry.
Proof.
  assert (H : phoenix_entry ∈ pipeline phoenix_doc)
    by (rewrite phoenix_merged; left).
  split; [exact H|]. exact (pipeline_entries phoenix_doc phoenix_entry H).
Defined.

Lemma pipeline_definitions_witness :
  aureole_entry ∈ pipeline aureole_doc
  ∧ (∀ c, c ∈ definition aureole_entry →
          (c ∉ soft_hyphen) ∧ (isspace c = true → c = chr " "))
  ∧ (is_cross_ref aureole_entry = false → 10 ≤ length (definition aureole_entry)).
Proof.
  assert (H : aureole_entry ∈ pipeline aureole_doc)
    by (rewrite aureole_pipeline; left).
  split; [exact H|]. exact (pipeline_definitions aureole_doc aureole_entry H).
Defined.

Lemma clean_definition_idempotent_plain_witness :
  (∀ c, c ∈ soft_hyphen → c ∉ tabbed_text)
  ∧ clean_definition (clean_definition tabbed_text) = clean_definition tabbed_text.
Proof.
  assert (H : ∀ c, c ∈ soft_hyphen → c ∉ tabbed_text).
  { intros c Hc. apply list_elem_of_singleton in Hc as ->. unfold tabbed_text.
    intros Hin. vm_compute in Hin.
    repeat (apply elem_of_cons in Hin as [Hin|Hin]; [discriminate Hin|]).
    inversion Hin. }
  split; [exact H|]. exact (clean_definition_idempotent_plain tabbed_text H).
Defined.

Lemma admissible_definitions_kept_witness :
  NoDup [0; 1; 2] ∧ 1 ∈ [0; 1; 2] ∧ phoenix_store !! 1 = Some phoenix_second
  ∧ admissible phoenix_second = true
  ∧ ∃ p ep, p ∈ cleaned (post_process_entries [0; 1; 2] phoenix_store)
            ∧ heap (post_process_entries [0; 1; 2] phoenix_store) !! p = Some ep
            ∧ lower (term ep) = lower (term phoenix_second)
            ∧ ∃ a b, definition ep = a ++ definition phoenix_second ++ b.
Proof.
  assert (H1 : NoDup [0; 1; 2]).
  { repeat (apply NoDup_cons; split;
      [intros Hin; repeat (apply elem_of_cons in Hin as [Hin|Hin]; [discriminate Hin|]);
       inversion Hin|]).
    apply NoDup_nil_2. }
  assert (H2 : 1 ∈ [0; 1; 2]) by (right; left).
  assert (H3 : phoenix_store !! 1 = Some phoenix_second) by reflexivity.
  assert (H4 : admissible phoenix_second = true) by reflexivity.
  split; [exact H1|]. split; [exact H2|]. split; [exact H3|]. split; [exact H4|].
  exact (admissible_definitions_kept phoenix_store [0; 1; 2] 1 phoenix_second
           H1 H2 H3 H4).
Defined.

Lemma detected_term_opens_line_witness :
  detect_entry_heading mandrake_line = Some (py "mandrake")
  ∧ opens (py "mandrake") (strip mandrake_line).
Proof.
  assert (H : detect_entry_heading mandrake_line = Some (py "mandrake"))
    by (vm_compute; reflexivity).
  split; [exact H|]. exact (detected_term_opens_line mandrake_line (py "mandrake") H).
Defined.
